(** * ngspeciesid: classification join, abundance and deduplication

    A shallow embedding of [src/ngspeciesid.py].  The script does its work in
    two languages:

    - an awk program (lines 44-66) that loads [taxonomy.tsv] into an
      associative array and joins every line of [hits.txt] with it, followed
      by a shell group (lines 69-72) that puts a header line in front;
    - a pandas part (lines 86-124) that reads the joined table, computes the
      abundance of every normalised species name, merges it back onto the
      rows and drops duplicate species.

    Files are lists of lines, lines are strings, awk's array [tax] is a
    [gmap string string], and a pandas DataFrame is a list of named, typed
    columns.  An abundance is a float64: it is modelled as the rational
    number it stands for, and every division and addition is rounded to the
    nearest float64 (module [Float]). *)

From Stdlib Require Import Ascii String QArith Qabs Qround Qpower Lqa.
From stdpp Require Import gmap strings list.

Set Warnings "-clear-no-such-hyp".

Local Open Scope string_scope.
Local Open Scope list_scope.

(** ** Text utilities shared by the awk and the CSV layer *)

Module Text.

Definition tab : ascii := Ascii.ascii_of_nat 9.
Definition colon : ascii := ":"%char.

(** [has_char c s]: does the character [c] occur in [s]? *)
Fixpoint has_char (c : ascii) (s : string) : bool :=
  match s with
  | EmptyString => false
  | String a rest => if Ascii.eqb a c then true else has_char c rest
  end.

(** Splitting at every occurrence of a one-character separator.  The empty
    string yields one empty piece; callers that need awk's convention (no
    piece at all) use [Awk.awk_split]. *)
Fixpoint split_on (sep : ascii) (s : string) : list string :=
  match s with
  | EmptyString => [EmptyString]
  | String a rest =>
      if Ascii.eqb a sep then EmptyString :: split_on sep rest
      else match split_on sep rest with
           | [] => [String a EmptyString]
           | piece :: pieces => String a piece :: pieces
           end
  end.

(** Joining with a one-character separator, as awk's [print a, b, c] does
    with [OFS]. *)
Fixpoint join_with (sep : ascii) (pieces : list string) : string :=
  match pieces with
  | [] => EmptyString
  | [p] => p
  | p :: rest => p +:+ String sep (join_with sep rest)
  end.

(** A tab-separated line, for writing examples. *)
Definition tsv (cells : list string) : string := join_with tab cells.

(** The part of [s] in front of the first [sep] (all of [s] when there is
    none): the wording the specification uses for the taxon identifier. *)
Fixpoint before_first (sep : ascii) (s : string) : string :=
  match s with
  | EmptyString => EmptyString
  | String a rest =>
      if Ascii.eqb a sep then EmptyString else String a (before_first sep rest)
  end.

(** Python's [str.replace(old, new)] for one-character [old] and [new]. *)
Fixpoint replace_char (old new : ascii) (s : string) : string :=
  match s with
  | EmptyString => EmptyString
  | String a rest =>
      String (if Ascii.eqb a old then new else a) (replace_char old new rest)
  end.

End Text.

(** ** float64 arithmetic *)

(** A finite float64 is a rational [m * 2^e] with [|m| < 2^53].  IEEE 754
    defines the result of a division or an addition as the exact result
    rounded to the nearest such number, ties going to the even [m]; this is
    [round_float].  The exponent range of float64 (2^-1074 to 2^1024) is not
    modelled: quotients and sums of counts of rows stay far inside it. *)
Module Float.
Local Open Scope Q_scope.

Definition pow2 (e : Z) : Q := 2 ^ e.

(** The integer part of the binary logarithm of a positive rational. *)
Definition exponent (q : Q) : Z :=
  let e := (Z.log2 (Qnum q) - Z.log2 (Zpos (Qden q)))%Z in
  if Qle_bool (pow2 e) q then e else (e - 1)%Z.

(** The nearest integer, the even one of two that are equally near. *)
Definition nearest_even (x : Q) : Z :=
  let f := Qfloor x in
  match Qcompare (x - inject_Z f) (1 # 2) with
  | Lt => f
  | Gt => (f + 1)%Z
  | Eq => if Z.even f then f else (f + 1)%Z
  end.

(** Rounding a positive rational to 53 significant bits. *)
Definition round_pos (q : Q) : Q :=
  let e := (exponent q - 52)%Z in
  Qred (inject_Z (nearest_even (q / pow2 e)) * pow2 e).

Definition round_float (q : Q) : Q :=
  match Qcompare q 0 with
  | Eq => 0
  | Gt => round_pos q
  | Lt => - round_pos (- q)
  end.

Definition fadd (a b : Q) : Q := round_float (a + b).
Definition fdiv (a b : Q) : Q := round_float (a / b).

(** An int64 converted to float64. *)
Definition of_int (z : Z) : Q := round_float (inject_Z z).

(** Half the distance between 1 and the next float64, the largest relative
    error of one rounding. *)
Definition ulp_half : Q := pow2 (-53).

(** *** numpy's sum of a float64 array *)

(** [np.add.reduce] over a contiguous array ([pairwise_sum] in numpy's
    [loops_utils.h]): fewer than 8 numbers are added from left to right,
    starting from 0; up to 128 numbers are added into eight running sums,
    number [i] going to sum [i mod 8], the sums are then added in pairs and
    the numbers left over after the last full group of eight are added to
    the result; a longer array is cut in two near the middle, at a multiple
    of eight, and the sums of the two parts are added. *)
Fixpoint strided (k : nat) (l : list Q) : list Q :=
  match l with
  | [] => []
  | x :: rest =>
      match k with
      | O => x :: strided 7 rest
      | S k' => strided k' rest
      end
  end.

Definition accumulate (l : list Q) : Q :=
  match l with
  | [] => 0
  | x :: rest => foldl fadd x rest
  end.

Definition block_sum (l : list Q) : Q :=
  let n := length l in
  let m := (n - n mod 8)%nat in
  let main := take m l in
  let r j := accumulate (strided j main) in
  let res := fadd (fadd (fadd (r 0%nat) (r 1%nat)) (fadd (r 2%nat) (r 3%nat)))
                  (fadd (fadd (r 4%nat) (r 5%nat)) (fadd (r 6%nat) (r 7%nat)))
  in
  foldl fadd res (drop m l).

(** The recursion of [pairwise_sum] halves the array; [fuel] bounds its
    depth and is never used up when it starts at the length of the array
    (lemma [pairwise_fuel_enough]). *)
Fixpoint pairwise_fuel (fuel : nat) (l : list Q) : Q :=
  let n := length l in
  if (n <? 8)%nat then foldl fadd 0 l
  else if (n <=? 128)%nat then block_sum l
  else match fuel with
       | O => block_sum l
       | S fuel' =>
           let n2 := (n / 2 - (n / 2) mod 8)%nat in
           fadd (pairwise_fuel fuel' (take n2 l))
                (pairwise_fuel fuel' (drop n2 l))
       end.

Definition pairwise_sum (l : list Q) : Q := pairwise_fuel (length l) l.

(** *** Error bounds *)

(** [near k s a]: the float [a] stands for the non-negative number [s] with
    the relative error of at most [k] roundings. *)
Definition near (k : nat) (s a : Q) : Prop :=
  0 <= s ∧ 0 <= a
  ∧ s * (1 - inject_Z (Z.of_nat k) * ulp_half) <= a
  ∧ a * (1 - inject_Z (Z.of_nat k) * ulp_half) <= s.

End Float.

(** ** The awk join (lines 44-66) and the header step (lines 69-72) *)

Module Awk.
Import Text.

(** awk splits an empty record, and [split] an empty string, into zero
    pieces; anything else is cut at every separator. *)
Definition awk_split (sep : ascii) (s : string) : list string :=
  if decide (s = EmptyString) then [] else split_on sep s.

(** [$n] and [parts[n]]: one-based, the empty string when out of range. *)
Definition field_at (n : nat) (fs : list string) : string :=
  nth (n - 1) fs EmptyString.

(** The variables of the program.  [NR] counts the records read from the
    main input, [header] and [tax] are the program's own. *)
Record awk_state := {
  NR : nat;
  header : string;
  tax : gmap string string
}.

Definition awk_init : awk_state :=
  {| NR := 0; header := EmptyString; tax := ∅ |}.

(** One turn of the [while ((getline < "taxonomy.tsv") > 0)] loop of the
    BEGIN block (lines 48-54).  [getline < file] sets [$0] and [NF] and
    leaves [NR] alone, so [line] arrives here with [NR] unchanged. *)
Definition BEGIN_body (st : awk_state) (line : string) : awk_state :=
  let fs := awk_split tab line in
  if (NR st =? 1)%nat then
    {| NR := NR st; header := line; tax := tax st |}
  else
    {| NR := NR st; header := header st;
       tax := <[field_at 1 fs := line]> (tax st) |}.

Definition BEGIN (taxonomy : list string) : awk_state :=
  foldl BEGIN_body awk_init taxonomy.

(** The main rule (lines 56-65) on one record of [hits.txt]. *)
Definition main_rule (st : awk_state) (record : string) : string :=
  let fs := awk_split tab record in
  let parts := awk_split colon (field_at 2 fs) in
  let tid := field_at 1 parts in
  let identity := field_at 3 fs in
  match tax st !! tid with
  | Some lineage => join_with tab [field_at 1 fs; identity; lineage]
  | None => join_with tab [field_at 1 fs; identity; tid; "UNKNOWN"]
  end.

(** Reading the main input: every record bumps [NR], then the rule runs. *)
Fixpoint main_loop (st : awk_state) (records : list string) : list string :=
  match records with
  | [] => []
  | r :: rest =>
      let st' := {| NR := S (NR st); header := header st; tax := tax st |} in
      main_rule st' r :: main_loop st' rest
  end.

(** [classified_full_tmp.tsv] *)
Definition classified_full_tmp (taxonomy hits : list string) : list string :=
  main_loop (BEGIN taxonomy) hits.

(** [head -n1 taxonomy.tsv] inside [$(...)]. *)
Definition head_n1 (file : list string) : string := hd EmptyString file.

(** [classified_full.tsv] (lines 69-72). *)
Definition classified_full (taxonomy hits : list string) : list string :=
  ("centroid" +:+ String tab ("identity" +:+ String tab (head_n1 taxonomy)))
  :: classified_full_tmp taxonomy hits.

(** Names for the parts of a hit and of an emitted row. *)
Definition query_id (hit : string) : string := field_at 1 (awk_split tab hit).
Definition target_id (hit : string) : string := field_at 2 (awk_split tab hit).
Definition identity_of (hit : string) : string := field_at 3 (awk_split tab hit).
Definition tid_of (hit : string) : string :=
  field_at 1 (awk_split colon (target_id hit)).
Definition row_taxon_id (row : string) : string :=
  field_at 3 (awk_split tab row).

(** An invariant of [tax]: every entry is filed under the first field of
    its line. *)
Definition keyed_by_first_field (m : gmap string string) : Prop :=
  ∀ k v, m !! k = Some v → before_first tab v = k.

End Awk.

(** ** The pandas part (lines 86-124) *)

Module Pandas.
Import Text.

(** A column is a typed array.  [TextCol] is a column of strings (dtype
    object), [NumCol] a float64 column whose values the model computes.
    [OtherCol] is a column read from a file whose cells are not all text:
    pandas types it as int64, float64, bool or as a mix, and the model
    keeps its cells as they were read without deciding which.  [None] is
    NaN in all three. *)
Inductive column :=
| TextCol (cells : list (option string))
| NumCol (cells : list (option Q))
| OtherCol (cells : list (option string)).

(** A DataFrame: named columns, in order. *)
Abbreviation DataFrame := (list (string * column)).

(** *** Reading a tab-separated file: [pd.read_csv(path, sep="\t")] *)

(** The strings pandas (2.x) reads as NaN by default. *)
Definition na_values : list string :=
  [""; "#N/A"; "#N/A N/A"; "#NA"; "-1.#IND"; "-1.#QNAN"; "-NaN"; "-nan";
   "1.#IND"; "1.#QNAN"; "<NA>"; "N/A"; "NA"; "NULL"; "NaN"; "None"; "n/a";
   "nan"; "null"].

Definition parse_cell (raw : option string) : option string :=
  match raw with
  | Some s => if bool_decide (s ∈ na_values) then None else Some s
  | None => None
  end.

(** A line the reader skips: nothing on it but spaces. *)
Fixpoint only_spaces (s : string) : bool :=
  match s with
  | EmptyString => true
  | String a rest => Ascii.eqb a " "%char && only_spaces rest
  end.

Fixpoint all_chars (p : ascii → bool) (s : string) : bool :=
  match s with
  | EmptyString => true
  | String a rest => p a && all_chars p rest
  end.

(** The characters the model reads the way pandas does: ASCII other than
    NUL, the line feed and the carriage return.  pandas ends a line at
    either of the last two and decodes the bytes above 127 as UTF-8. *)
Definition plain_char (c : ascii) : bool :=
  let n := nat_of_ascii c in
  (0 <? n)%nat && (n <? 128)%nat && negb (n =? 10)%nat && negb (n =? 13)%nat.

(** A field that starts with a double quote is read as a quoted field,
    which may run over tabs and line ends. *)
Definition quoted (field : string) : bool :=
  match field with
  | String c _ => (nat_of_ascii c =? 34)%nat
  | EmptyString => false
  end.

(** A line inside the model: plain characters and no quoted field. *)
Definition plain_line (l : string) : bool :=
  all_chars plain_char l && forallb (λ f, negb (quoted f)) (split_on tab l).

(** The characters a number is written with: digits, signs, the decimal
    point, the exponent letter and white space. *)
Definition number_char (c : ascii) : bool :=
  let n := nat_of_ascii c in
  ((48 <=? n)%nat && (n <=? 57)%nat)
  || bool_decide (n ∈ [43; 45; 46; 69; 101; 32; 9; 10; 11; 12; 13]%nat).

Definition lower (c : ascii) : ascii :=
  let n := nat_of_ascii c in
  if ((65 <=? n)%nat && (n <=? 90)%nat) then ascii_of_nat (n + 32) else c.

Fixpoint lower_string (s : string) : string :=
  match s with
  | EmptyString => EmptyString
  | String a rest => String (lower a) (lower_string rest)
  end.

(** The words pandas reads as an infinity or as a boolean, in lower
    case. *)
Definition value_words : list string :=
  ["inf"; "+inf"; "-inf"; "infinity"; "+infinity"; "-infinity";
   "true"; "false"].

(** A cell that pandas can only read as a string: it holds a character no
    number is written with, and it is none of the words above in any
    mixture of cases. *)
Definition surely_text (s : string) : bool :=
  negb (all_chars number_char s)
  && negb (bool_decide (lower_string s ∈ value_words)).

(** The dtype of a column read from text.  A column without rows is a
    column of strings, a column with rows but without a single value is
    float64.  A column all of whose values can only be strings is a column
    of strings.  Any other column holds a cell that looks like a number or
    a boolean; what pandas makes of it depends on the other cells and, in a
    long file, on the block the cell is in, and the model leaves it open. *)
Definition infer_column (cells : list (option string)) : column :=
  match cells with
  | [] => TextCol []
  | _ :: _ =>
      if forallb (λ c, bool_decide (c = None)) cells
      then NumCol (map (λ _, None) cells)
      else if forallb (λ c, match c with
                            | Some s => surely_text s
                            | None => true
                            end) cells
      then TextCol cells
      else OtherCol cells
  end.

(** Blank lines are skipped.  The first remaining line names the columns,
    every later one is a record, cut at the tabs.  A record shorter than the
    header is padded with NaN.

    [None] stands for two things: pandas raises, or the file is outside
    what this model covers.  pandas raises on a file without a line and on
    a record, other than the first, with more fields than the lines before
    it.  Outside the model are: a line that is not [plain_line]; a header
    with an empty or a repeated name, which pandas renames; a first record
    with more fields than the header, which makes pandas take its leading
    fields as the index.  No theorem below reads [None] as "pandas
    raises". *)
Definition read_csv (lines : list string) : option DataFrame :=
  if forallb plain_line lines then
    match filter (λ l, only_spaces l = false) lines with
    | [] => None
    | h :: body =>
        let names := split_on tab h in
        let records := map (split_on tab) body in
        if bool_decide (NoDup names ∧ EmptyString ∉ names)
           && forallb (λ r, length r <=? length names)%nat records
        then
          Some (imap (λ j name,
                  (name,
                   infer_column (map (λ r, parse_cell (r !! j)) records)))
                names)
        else None
    end
  else None.

(** *** Column access *)

(** [df[name]]; [None] stands for KeyError. *)
Fixpoint get_col (name : string) (df : DataFrame) : option column :=
  match df with
  | [] => None
  | (n, c) :: rest => if decide (n = name) then Some c else get_col name rest
  end.

(** [df[name] = c]: overwrite the column if it exists, append it otherwise. *)
Fixpoint set_col (name : string) (c : column) (df : DataFrame) : DataFrame :=
  match df with
  | [] => [(name, c)]
  | (n, c0) :: rest =>
      if decide (n = name) then (n, c) :: rest
      else (n, c0) :: set_col name c rest
  end.

(** [df.drop(columns=[name])] *)
Definition drop_col (name : string) (df : DataFrame) : option DataFrame :=
  match get_col name df with
  | None => None
  | Some _ => Some (filter (λ nc, nc.1 ≠ name) df)
  end.

(** *** Series operations *)

(** [s.str.replace(old, new, regex=False)]; NaN stays NaN.  A float
    column has no [.str]; for a column whose dtype the model leaves open the
    result is left open as well. *)
Definition str_replace (old new : ascii) (c : column) : option column :=
  match c with
  | TextCol cells =>
      Some (TextCol (map (option_map (replace_char old new)) cells))
  | NumCol _ | OtherCol _ => None
  end.

(** The values that are not NaN. *)
Definition non_null {A} (cells : list (option A)) : list A := omap id cells.

(** [duplicated(keep="first")]: the mask is true at every position whose
    key was seen at an earlier position.  NaN keys equal each other. *)
Fixpoint duplicated_from `{EqDecision K} (seen keys : list K) : list bool :=
  match keys with
  | [] => []
  | k :: rest => bool_decide (k ∈ seen) :: duplicated_from (k :: seen) rest
  end.

Definition duplicated `{EqDecision K} (keys : list K) : list bool :=
  duplicated_from [] keys.

(** Boolean indexing, [s[mask]]. *)
Fixpoint select {A} (mask : list bool) (l : list A) : list A :=
  match mask, l with
  | b :: m, x :: r => if b then x :: select m r else select m r
  | _, _ => []
  end.

(** The distinct values in order of first appearance. *)
Definition uniques `{EqDecision K} (keys : list K) : list K :=
  select (map negb (duplicated keys)) keys.

Definition count_of `{EqDecision K} (k : K) (l : list K) : nat :=
  length (filter (λ x, x = k) l).

(** [c / total] for two int64 counts: both are converted to float64 and
    divided.  [total] is positive wherever the script divides. *)
Definition ratio (c total : nat) : Q :=
  Float.fdiv (Float.of_int (Z.of_nat c)) (Float.of_int (Z.of_nat total)).

(** Sorting the entries by decreasing count.  pandas leaves the order of
    entries with equal counts open; here they stay in their order. *)
Fixpoint insert_by_count (e : string * nat) (l : list (string * nat))
  : list (string * nat) :=
  match l with
  | [] => [e]
  | e' :: rest =>
      if (e'.2 <=? e.2)%nat then e :: l else e' :: insert_by_count e rest
  end.

Definition sort_by_count (l : list (string * nat)) : list (string * nat) :=
  foldr insert_by_count [] l.

(** [s.value_counts()]: NaN is dropped first ([dropna] is on by default),
    every distinct value is counted, and the entries are listed by
    decreasing count. *)
Definition value_counts (cells : list (option string))
  : list (string * nat) :=
  let values := non_null cells in
  sort_by_count (map (λ k, (k, count_of k values)) (uniques values)).

(** [s.value_counts(normalize=True)]: the counts divided by their sum. *)
Definition value_counts_normalize (cells : list (option string))
  : list (string * Q) :=
  let counts := value_counts cells in
  let total := sum_list (map snd counts) in
  map (λ e, (e.1, ratio e.2 total)) counts.

(** [vc.rename_axis(key).reset_index(name=value)] *)
Definition reset_index (key value : string) (vc : list (string * Q))
  : DataFrame :=
  [(key, TextCol (map (λ e, Some e.1) vc));
   (value, NumCol (map (λ e, Some e.2) vc))].

(** [s.sum()] of a float64 column: every NaN is replaced by 0 and numpy
    adds the array. *)
Definition col_sum (c : column) : option Q :=
  match c with
  | NumCol cells => Some (Float.pairwise_sum (map (default 0%Q) cells))
  | TextCol _ | OtherCol _ => None
  end.

(** *** Merge *)

(** Position of the first key equal to [k], NaN matching NaN. *)
Fixpoint find_key (k : option string) (keys : list (option string))
  : option nat :=
  match keys with
  | [] => None
  | k' :: rest =>
      if decide (k' = k) then Some 0%nat else S <$> find_key k rest
  end.

Definition take_cells {A} (idx : list (option nat)) (cells : list (option A))
  : list (option A) :=
  map (λ i, match i with
            | Some n => match cells !! n with Some v => v | None => None end
            | None => None
            end) idx.

Definition take_rows (idx : list (option nat)) (c : column) : column :=
  match c with
  | TextCol cells => TextCol (take_cells idx cells)
  | NumCol cells => NumCol (take_cells idx cells)
  | OtherCol cells => OtherCol (take_cells idx cells)
  end.

(** [left.merge(right, on=key, how="left")] for a right frame whose keys are
    pairwise distinct, as those of [value_counts] are: every left row stays,
    in place, and receives the other columns of its matching right row, or
    NaN when there is none.  When a non-key column of [right] is already a
    column of [left], pandas renames both with suffixes; the column the
    source reads next is then missing, which is [None] here. *)
Definition merge_left (left right : DataFrame) (key : string)
  : option DataFrame :=
  match get_col key left, get_col key right with
  | Some (TextCol lk), Some (TextCol rk) =>
      let others := filter (λ nc, nc.1 ≠ key) right in
      if forallb (λ nc, bool_decide (get_col nc.1 left = None)) others then
        let idx := map (λ k, find_key k rk) lk in
        Some (left ++ map (λ nc, (nc.1, take_rows idx nc.2)) others)
      else None
  | _, _ => None
  end.

(** *** Dropping duplicates *)

#[global] Instance Q_eq_dec : EqDecision Q.
Proof. solve_decision. Defined.

Definition col_duplicated (c : column) : list bool :=
  match c with
  | TextCol cells => duplicated cells
  | NumCol cells => duplicated (map (option_map Qred) cells)
  | OtherCol cells => duplicated cells
  end.

Definition col_select (mask : list bool) (c : column) : column :=
  match c with
  | TextCol cells => TextCol (select mask cells)
  | NumCol cells => NumCol (select mask cells)
  | OtherCol cells => OtherCol (select mask cells)
  end.

(** [df.drop_duplicates(subset=[name])].  Which cells of a column are equal
    depends on its dtype; for a key column whose dtype the model leaves
    open the result is left open as well. *)
Definition drop_duplicates (name : string) (df : DataFrame)
  : option DataFrame :=
  match get_col name df with
  | None | Some (OtherCol _) => None
  | Some c =>
      let keep := map negb (col_duplicated c) in
      Some (map (λ nc, (nc.1, col_select keep nc.2)) df)
  end.

End Pandas.

(** ** One sample, end to end *)

Module Pipeline.
Import Text Awk Pandas.

Definition space : ascii := " "%char.
Definition underscore : ascii := "_"%char.

(** Line 89: [df["species"].str.replace(" ", "_", regex=False)] *)
Definition species_norm (df : DataFrame) : option (list (option string)) :=
  match get_col "species" df with
  | Some species =>
      match str_replace space underscore species with
      | Some (TextCol cells) => Some cells
      | _ => None
      end
  | None => None
  end.

(** Lines 92-97 *)
Definition abundance_table (norm : list (option string)) : DataFrame :=
  reset_index "species_norm" "abundance" (value_counts_normalize norm).

(** Lines 89-102: the table with its [abundance] column. *)
Definition add_abundance (df : DataFrame) : option DataFrame :=
  match species_norm df with
  | Some norm =>
      let df1 := set_col "species_norm" (TextCol norm) df in
      match merge_left df1 (abundance_table norm) "species_norm" with
      | Some df2 => drop_col "species_norm" df2
      | None => None
      end
  | None => None
  end.

(** Lines 106 and 114: the table is written with [to_csv] and read back.
    The model keeps the table as it is: text cells were parsed from such a
    file in the first place, and [to_csv] writes for every float64 the
    shortest decimal that denotes it, which the model takes to be read back
    as the same float64. *)
Definition reload (df : DataFrame) : DataFrame := df.

(** Line 117 *)
Definition df_clean (df : DataFrame) : option DataFrame :=
  drop_duplicates "species" (reload df).

(** Lines 108 and 124: [df["abundance"].sum()] *)
Definition abundance_sum (df : DataFrame) : option Q :=
  match get_col "abundance" df with
  | Some c => col_sum c
  | None => None
  end.

(** What the script computes for one sample folder: the annotated table,
    the sum it prints for it, the cleaned table and the sum printed for
    that. *)
Record sample_result := {
  annotated : DataFrame;
  annotated_sum : Q;
  cleaned : DataFrame;
  total_abundance : Q
}.

Definition process_sample (taxonomy hits : list string)
  : option sample_result :=
  match read_csv (classified_full taxonomy hits) with
  | Some df =>
      match add_abundance df with
      | Some df_ab =>
          match abundance_sum df_ab, df_clean df_ab with
          | Some s1, Some df_c =>
              match abundance_sum df_c with
              | Some s2 =>
                  Some {| annotated := df_ab; annotated_sum := s1;
                          cleaned := df_c; total_abundance := s2 |}
              | None => None
              end
          | _, _ => None
          end
      | None => None
      end
  | None => None
  end.

End Pipeline.

(** ** Sample inputs *)

Module Examples.
Import Text.

(** A two-column taxonomy table: header line, then one taxon. *)
Definition taxonomy_small : list string :=
  [tsv ["taxid"; "species"]; tsv ["9606"; "Homo sapiens"]].

(** A hit whose target names the header's first field as its taxon. *)
Definition hit_on_header : string := tsv ["read1"; "taxid:ref1"; "0.97"].

(** A taxonomy whose species is the last of four columns. *)
Definition taxonomy_wide : list string :=
  [tsv ["taxid"; "genus"; "family"; "species"];
   tsv ["9606"; "Homo"; "Hominidae"; "Homo sapiens"]].

(** One hit on a known taxon, one on a taxon the table does not have. *)
Definition hits_one_unknown : list string :=
  [tsv ["r1"; "9606:a"; "0.99"]; tsv ["r2"; "42:z"; "0.95"]].

(** A joined table reduced to the two columns that matter, with a row that
    has no species and two spellings of one species. *)
Definition species_mixed : list (option string) :=
  [Some "Homo sapiens"; None; Some "Homo_sapiens"; Some "Mus musculus"].

Definition table_mixed : Pandas.DataFrame :=
  [("centroid", Pandas.TextCol [Some "r1"; Some "r2"; Some "r3"; Some "r4"]);
   ("species", Pandas.TextCol species_mixed)].

(** The same without the second spelling and without the missing species. *)
Definition table_plain : Pandas.DataFrame :=
  [("centroid", Pandas.TextCol [Some "r1"; Some "r2"; Some "r3"; Some "r4"]);
   ("species",
    Pandas.TextCol
      [Some "Homo sapiens"; Some "Mus musculus"; Some "Homo sapiens";
       Some "Homo sapiens"])].

(** The joined table of a sample without any hit. *)
Definition table_empty : Pandas.DataFrame :=
  [("centroid", Pandas.TextCol []); ("identity", Pandas.TextCol []);
   ("taxid", Pandas.TextCol []); ("species", Pandas.TextCol [])].

(** A taxonomy that lists one species under two spellings, and a hit on
    each. *)
Definition taxonomy_two_spellings : list string :=
  [tsv ["taxid"; "species"]; tsv ["1"; "Homo sapiens"];
   tsv ["2"; "Homo_sapiens"]].

Definition hits_two_spellings : list string :=
  [tsv ["r1"; "1:a"; "0.99"]; tsv ["r2"; "2:b"; "0.98"]].

(** A taxonomy keyed by species name: its first column is called
    "species".  Two hits on names the table does not have. *)
Definition taxonomy_keyed_by_species : list string :=
  [tsv ["species"; "genus"]; tsv ["Homo_sapiens"; "Homo"]].

Definition hits_two_unknown : list string :=
  [tsv ["r1"; "Mus_musculus:a"; "0.97"];
   tsv ["r2"; "Rattus_rattus:b"; "0.96"]].

(** Three hits on [taxonomy_wide], the last two on taxa it does not have,
    and the table read from their join. *)
Definition hits_three : list string :=
  [tsv ["r1"; "9606:a"; "0.99"]; tsv ["r2"; "42:z"; "0.95"];
   tsv ["r3"; "77:y"; "0.93"]].

Definition joined_three : Pandas.DataFrame :=
  Eval vm_compute in
    default [] (Pandas.read_csv (Awk.classified_full taxonomy_wide hits_three)).

End Examples.

(** ** Vocabulary for the statements *)

Module Spec.
Import Text Pandas Pipeline.

(** The grouping key of a species name. *)
Definition normalise (s : string) : string :=
  replace_char space underscore s.

(** The distinct values that are new with respect to [seen], in order. *)
Definition uniques_from `{EqDecision K} (seen keys : list K) : list K :=
  select (map negb (duplicated_from seen keys)) keys.

(** Number of rows whose species normalises to [k]. *)
Definition rows_with (k : string) (species : list (option string)) : nat :=
  length (filter (λ c, option_map normalise c = Some k) species).

(** Number of rows that have a species at all. *)
Definition rows_with_species (species : list (option string)) : nat :=
  length (non_null species).

(** The keys of the abundance table, in the order of the table. *)
Definition table_keys (values : list string) : list string :=
  map fst (sort_by_count (map (λ k, (k, count_of k values)) (uniques values))).

(** The number a row receives for its key [k]: [h] of the count of the key
    and of the number of non-null keys, nothing for a key that is missing. *)
Definition fraction_by (h : nat → nat → Q) (values : list string)
    (k : option string) : option Q :=
  match k with
  | Some s =>
      if bool_decide (s ∈ values)
      then Some (h (count_of s values) (length values))
      else None
  | None => None
  end.

(** The abundance a row receives, in closed form: the float quotient of the
    count of its key and of the number of non-null keys. *)
Definition fraction_of : list string → option string → option Q :=
  fraction_by ratio.

(** The column names of [classified_full.tsv]. *)
Definition joined_names (taxonomy : list string) : list string :=
  "centroid" :: "identity" :: split_on tab (Awk.head_n1 taxonomy).

(** The cell a hit ends up with in column [j] of the joined table. *)
Definition joined_cell (taxonomy : list string) (j : nat) (hit : string)
  : option string :=
  parse_cell (split_on tab (Awk.main_rule (Awk.BEGIN taxonomy) hit) !! j).

(** The hit goes down the unknown branch of the join. *)
Definition unknown_taxon (taxonomy : list string) (hit : string) : Prop :=
  Awk.tax (Awk.BEGIN taxonomy) !! Awk.tid_of hit = None.

(** The exact sum of rationals, and the exact quotient of two counts: the
    numbers that the floats of the code stand for. *)
Definition Qsum (l : list Q) : Q := foldr Qplus 0%Q l.

Definition share (c total : nat) : Q :=
  (inject_Z (Z.of_nat c) / inject_Z (Z.of_nat total))%Q.

(** The exact share that the abundance of a row stands for. *)
Definition share_of : list string → option string → option Q :=
  fraction_by share.

(** Equal to 1.0 within a relative error of 1e-9. *)
Definition within_tolerance (q : Q) : Prop :=
  (Qabs (q - 1) <= (1 # 1000000000) * Qabs 1)%Q.

(** The sum of the fractions of the abundance table built from a column of
    normalised names, added the way pandas adds a float64 column. *)
Definition fractions_sum (norm : list (option string)) : option Q :=
  abundance_sum (abundance_table norm).

End Spec.

(** ** Shapes of rows and tables *)

Module Shape.
Import Text Pandas.

(** Number of cells of a column. *)
Definition col_length (c : column) : nat :=
  match c with
  | TextCol cells => length cells
  | NumCol cells => length cells
  | OtherCol cells => length cells
  end.

(** Number of tab-separated fields of the row the join emits for a hit. *)
Definition row_width (taxonomy : list string) (hit : string) : nat :=
  length (split_on tab (Awk.main_rule (Awk.BEGIN taxonomy) hit)).

(** The joined file is one that [read_csv] reads: its lines are inside the
    model, the column names are pairwise distinct and not empty, and no row
    has more fields than the header. *)
Definition readable (taxonomy hits : list string) : bool :=
  forallb plain_line (Awk.classified_full taxonomy hits)
  && bool_decide (NoDup (Spec.joined_names taxonomy)
                  ∧ EmptyString ∉ Spec.joined_names taxonomy)
  && forallb (λ hit, row_width taxonomy hit
                     <=? length (Spec.joined_names taxonomy))%nat hits.

(** The taxonomy lines whose first field [$1] is [key], in file order. *)
Definition lines_keyed (key : string) (taxonomy : list string) : list string :=
  filter (λ l, Awk.field_at 1 (Awk.awk_split tab l) = key) taxonomy.

End Shape.

Module MoreExamples.
Import Text.

(** A taxonomy that lists taxon 9606 twice. *)
Definition taxonomy_twice : list string :=
  [tsv ["taxid"; "genus"; "species"];
   tsv ["9606"; "Homo"; "Homo sapiens (old)"];
   tsv ["10090"; "Mus"; "Mus musculus"];
   tsv ["9606"; "Homo"; "Homo sapiens"]].

Definition hits_human : list string := [tsv ["r1"; "9606:ref7"; "0.99"]].

End MoreExamples.

(** ** Where a sample's table goes (lines 13-14, 119-136) *)

(** A path and a folder name are the sequences of their characters.
    [path_join] is [os.path.join] on two arguments and [basename] is
    [os.path.basename], both as [posixpath] defines them. *)
Module Paths.
Import Text.

Definition slash : ascii := "/"%char.

Definition starts_with_slash (p : string) : bool :=
  match p with
  | String c _ => Ascii.eqb c slash
  | EmptyString => false
  end.

Fixpoint last_char (p : string) : option ascii :=
  match p with
  | EmptyString => None
  | String c EmptyString => Some c
  | String _ rest => last_char rest
  end.

(** What [os.path.join] puts between [a] and a relative path: a slash,
    unless [a] is empty or already ends in one. *)
Definition joint (a : string) : string :=
  match last_char a with
  | None => EmptyString
  | Some c =>
      if Ascii.eqb c slash then EmptyString else String slash EmptyString
  end.

(** [os.path.join(a, b)]: an absolute [b] replaces [a]; otherwise [b] is
    appended after the joint. *)
Definition path_join (a b : string) : string :=
  if starts_with_slash b then b else a +:+ joint a +:+ b.

(** [os.path.basename(p)]: what follows the last slash of [p], all of [p]
    when it has none. *)
Fixpoint basename (p : string) : string :=
  match p with
  | EmptyString => EmptyString
  | String c rest =>
      if has_char slash rest then basename rest
      else if Ascii.eqb c slash then rest else p
  end.

(** The slice [s[:n]]: the first [n] characters, all of [s] when it is
    shorter. *)
Fixpoint take_chars (n : nat) (s : string) : string :=
  match n, s with
  | S n', String c rest => String c (take_chars n' rest)
  | _, _ => EmptyString
  end.

(** Line 13. *)
Definition folder_name (dirpath : string) : string := basename dirpath.

(** Line 14. *)
Definition fastq_path (dirpath : string) : string :=
  path_join dirpath "sorted.fastq".

(** Line 120. *)
Definition output_filename (folder_name : string) : string :=
  folder_name +:+ ".tsv".

(** Lines 128-129. *)
Definition group_prefix (folder_name : string) : string :=
  take_chars 3 folder_name.

Definition group_folder (root_dir folder_name : string) : string :=
  path_join root_dir (group_prefix folder_name).

(** Line 135. *)
Definition target_path (root_dir folder_name : string) : string :=
  path_join (group_folder root_dir folder_name) (output_filename folder_name).

(** The reference files the script copies from the working directory
    (lines 27-28), which is [root_dir] (line 8). *)
Definition reference_files (root_dir : string) : list string :=
  [path_join root_dir "taxonomy.tsv";
   path_join root_dir "species_taxid.fasta"].

End Paths.

(** ** The loop over the sample folders (lines 11-12, 79, 126-136) *)

(** [os.walk] hands the loop one entry per directory.  The two external
    tools of the shell script are a function [search] from a sample folder
    to the lines of [hits.txt]; it gives [None] when the script ends with a
    status other than zero, which [check=True] (line 79) turns into an
    exception.  No exception is caught anywhere, so the first one ends the
    run.  Of the files the run writes, the model keeps those copied to a
    target path (line 136): everything else lives in a temporary folder
    that is removed when the sample is done.  Paths are compared as
    strings, and failures of the file operations themselves (a missing
    reference file, a file in the place of a group folder, a folder in the
    place of a target) are not part of the model. *)
Module Batch.
Import Pandas Pipeline Paths.

Record walk_entry := {
  dirpath : string;
  dirnames : list string;
  filenames : list string
}.

(** Line 12. *)
Definition has_sample (e : walk_entry) : bool :=
  bool_decide ("sorted.fastq" ∈ filenames e).

Inductive outcome :=
  | Finished (files : gmap string DataFrame)
  | Raised (at_dir : string) (files : gmap string DataFrame).

Section run.
Variable root_dir : string.
Variable taxonomy : list string.
Variable search : string → option (list string).

(** The cleaned table of the sample in [dir], when every step succeeds. *)
Definition cleaned_table (dir : string) : option DataFrame :=
  match search dir with
  | Some hits => option_map cleaned (process_sample taxonomy hits)
  | None => None
  end.

(** The body of the loop for one sample folder. *)
Definition sample_step (dir : string) (files : gmap string DataFrame)
  : option (gmap string DataFrame) :=
  match cleaned_table dir with
  | Some table =>
      Some (<[target_path root_dir (folder_name dir) := table]> files)
  | None => None
  end.

Fixpoint walk (entries : list walk_entry) (files : gmap string DataFrame)
  : outcome :=
  match entries with
  | [] => Finished files
  | e :: rest =>
      if has_sample e then
        match sample_step (dirpath e) files with
        | Some files' => walk rest files'
        | None => Raised (dirpath e) files
        end
      else walk rest files
  end.

(** The sample folders called [name], in the order of the walk. *)
Definition samples_named (name : string) (entries : list walk_entry)
  : list walk_entry :=
  filter (λ e, has_sample e = true ∧ folder_name (dirpath e) = name) entries.

End run.

End Batch.

Module RunExamples.
Import Text Batch.

Definition entry (dir : string) (files : list string) : walk_entry :=
  {| dirpath := dir; dirnames := []; filenames := files |}.

(** Two runs hold a sample folder of the same name. *)
Definition walk_two_runs : list walk_entry :=
  [ {| dirpath := "/data"; dirnames := ["run1"; "run2"];
       filenames := ["taxonomy.tsv"; "species_taxid.fasta"] |};
    {| dirpath := "/data/run1"; dirnames := ["ABC01"]; filenames := [] |};
    entry "/data/run1/ABC01" ["sorted.fastq"];
    {| dirpath := "/data/run2"; dirnames := ["ABC01"]; filenames := [] |};
    entry "/data/run2/ABC01" ["sorted.fastq"] ].

Definition search_two_runs (dir : string) : option (list string) :=
  if decide (dir = "/data/run1/ABC01") then Some Examples.hits_one_unknown
  else if decide (dir = "/data/run2/ABC01") then Some MoreExamples.hits_human
  else None.

End RunExamples.

(** * Properties *)

(** ** Splitting and joining *)

Section text_facts.
Import Text.
Variable sep : ascii.

Lemma split_on_pieces_free (s : string) :
  Forall (λ p, has_char sep p = false) (split_on sep s).
Proof.
  induction s as [|a s IH]; simpl.
  - by constructor.
  - destruct (Ascii.eqb a sep) eqn:E.
    + by constructor.
    + destruct (split_on sep s) as [|p ps].
      * constructor; [|done]. simpl. by rewrite E.
      * inversion IH; subst. constructor; [|done]. simpl. by rewrite E.
Qed.

Lemma split_on_app_sep (a b : string) :
  has_char sep a = false →
  split_on sep (a +:+ String sep b) = a :: split_on sep b.
Proof.
  induction a as [|c a IH]; simpl; intros H.
  - by rewrite Ascii.eqb_refl.
  - destruct (Ascii.eqb c sep); [done|]. by rewrite IH.
Qed.

Lemma split_on_no_sep (a : string) :
  has_char sep a = false → split_on sep a = [a].
Proof.
  induction a as [|c a IH]; simpl; intros H; [done|].
  destruct (Ascii.eqb c sep); [done|]. by rewrite IH.
Qed.

Lemma split_on_join (pieces : list string) :
  pieces ≠ [] →
  Forall (λ p, has_char sep p = false) pieces →
  split_on sep (join_with sep pieces) = pieces.
Proof.
  induction pieces as [|p ps IH]; [done|]. intros _ Hfree.
  inversion Hfree as [|? ? Hp Hps]; subst.
  destruct ps as [|q qs].
  - simpl. by apply split_on_no_sep.
  - change (join_with sep (p :: q :: qs))
      with (p +:+ String sep (join_with sep (q :: qs))).
    rewrite split_on_app_sep by done. by rewrite IH.
Qed.

Lemma split_on_hd (s : string) :
  hd EmptyString (split_on sep s) = before_first sep s.
Proof.
  induction s as [|a s IH]; simpl; [done|].
  destruct (Ascii.eqb a sep); [done|].
  rewrite <- IH. by destruct (split_on sep s).
Qed.

Lemma before_first_free (s : string) :
  has_char sep (before_first sep s) = false.
Proof.
  induction s as [|a s IH]; simpl; [done|].
  destruct (Ascii.eqb a sep) eqn:E; [done|]. simpl. by rewrite E.
Qed.

Lemma before_first_other_free (c : ascii) (s : string) :
  has_char c s = false → has_char c (before_first sep s) = false.
Proof.
  induction s as [|a s IH]; simpl; [done|]. intros H.
  destruct (Ascii.eqb a sep); [done|]. simpl.
  destruct (Ascii.eqb a c); [done|]. by apply IH.
Qed.

Lemma before_first_app (a b : string) :
  has_char sep a = false → before_first sep (a +:+ String sep b) = a.
Proof.
  induction a as [|c a IH]; simpl; intros H.
  - by rewrite Ascii.eqb_refl.
  - destruct (Ascii.eqb c sep); [done|]. by rewrite IH.
Qed.

(** [before_first] really is the prefix in front of the first separator. *)
Lemma before_first_prefix (s : string) :
  ∃ rest, s = before_first sep s +:+ rest
          ∧ (rest = EmptyString ∨ ∃ r, rest = String sep r).
Proof.
  induction s as [|a s (rest & Hs & Hrest)]; simpl.
  - exists EmptyString. auto.
  - destruct (Ascii.eqb a sep) eqn:E.
    + apply Ascii.eqb_eq in E as ->. exists (String sep s). eauto.
    + exists rest. split; [|done].
      change (String a s = String a (before_first sep s +:+ rest)).
      by f_equal.
Qed.

Lemma app_sep_not_empty (a b : string) : a +:+ String sep b ≠ EmptyString.
Proof. by destruct a. Qed.

End text_facts.

(** ** The awk join *)

Section awk_facts.
Import Text Awk.

Lemma field_at_1 (fs : list string) : field_at 1 fs = hd EmptyString fs.
Proof. by destruct fs. Qed.

Lemma field1_before_first (sep : ascii) (s : string) :
  field_at 1 (awk_split sep s) = before_first sep s.
Proof.
  rewrite field_at_1. unfold awk_split. case_decide as E.
  - by subst.
  - apply split_on_hd.
Qed.

Lemma field_at_free (sep : ascii) (n : nat) (s : string) :
  has_char sep (field_at n (awk_split sep s)) = false.
Proof.
  unfold field_at, awk_split. case_decide.
  - by destruct (n - 1)%nat.
  - destruct (nth_in_or_default (n - 1) (split_on sep s) EmptyString)
      as [Hin | ->]; [|done].
    pose proof (split_on_pieces_free sep s) as Hall.
    rewrite Forall_forall in Hall. apply Hall. by apply list_elem_of_In.
Qed.

(** The loop over [taxonomy.tsv] never moves [NR]. *)
Lemma BEGIN_body_NR (st : awk_state) (line : string) :
  NR (BEGIN_body st line) = NR st.
Proof. unfold BEGIN_body. by destruct (NR st =? 1)%nat. Qed.

Lemma foldl_BEGIN_body_NR (lines : list string) (st : awk_state) :
  NR (foldl BEGIN_body st lines) = NR st.
Proof.
  revert st. induction lines as [|l ls IH]; intros st; simpl; [done|].
  by rewrite IH, BEGIN_body_NR.
Qed.

(** Hence every line, the first one included, goes into [tax], and
    [header] is never assigned. *)
Lemma foldl_BEGIN_body_stores (lines : list string) (st : awk_state) :
  NR st = 0%nat →
  tax (foldl BEGIN_body st lines)
  = foldl (λ m l, <[before_first tab l := l]> m) (tax st) lines
  ∧ header (foldl BEGIN_body st lines) = header st.
Proof.
  revert st. induction lines as [|l ls IH]; intros st H0; simpl; [done|].
  assert (BEGIN_body st l
          = {| NR := NR st; header := header st;
               tax := <[before_first tab l := l]> (tax st) |}) as ->.
  { unfold BEGIN_body. rewrite H0. simpl. by rewrite field1_before_first. }
  by destruct (IH {| NR := NR st; header := header st;
                     tax := <[before_first tab l := l]> (tax st) |} H0)
    as [-> ->].
Qed.

Lemma foldl_insert_keyed (lines : list string) (m : gmap string string) :
  keyed_by_first_field m →
  keyed_by_first_field
    (foldl (λ m l, <[before_first tab l := l]> m) m lines).
Proof.
  revert m. induction lines as [|l ls IH]; intros m Hm; simpl; [done|].
  apply IH. intros k v. rewrite lookup_insert.
  case_decide as E; [|by apply Hm]. by intros [= <-].
Qed.

Lemma BEGIN_keyed (taxonomy : list string) :
  keyed_by_first_field (tax (BEGIN taxonomy)).
Proof.
  unfold BEGIN.
  destruct (foldl_BEGIN_body_stores taxonomy awk_init eq_refl) as [-> _].
  by apply foldl_insert_keyed.
Qed.

(** The rule reads only [tax], so the loop is a map. *)
Lemma main_loop_map (records : list string) (st : awk_state) :
  main_loop st records = map (main_rule st) records.
Proof.
  revert st. induction records as [|r rs IH]; intros st; simpl; [done|].
  by rewrite IH.
Qed.

(** The two shapes of an emitted row. *)
Lemma main_rule_unknown (st : awk_state) (hit : string) :
  tax st !! tid_of hit = None →
  main_rule st hit
  = tsv [query_id hit; identity_of hit; tid_of hit; "UNKNOWN"].
Proof. unfold main_rule, tid_of, target_id. by intros ->. Qed.

Lemma main_rule_known (st : awk_state) (hit lineage : string) :
  tax st !! tid_of hit = Some lineage →
  main_rule st hit = tsv [query_id hit; identity_of hit; lineage].
Proof. unfold main_rule, tid_of, target_id. by intros ->. Qed.

Lemma tid_of_before_first (hit : string) :
  tid_of hit = before_first colon (target_id hit).
Proof. apply field1_before_first. Qed.

Lemma tid_of_tab_free (hit : string) : has_char tab (tid_of hit) = false.
Proof.
  rewrite tid_of_before_first. apply before_first_other_free.
  apply field_at_free.
Qed.

(** The fields of a row that starts with two tab-free cells. *)
Lemma awk_split_row (a b rest : string) :
  has_char tab a = false → has_char tab b = false →
  awk_split tab (tsv (a :: b :: rest :: []))
  = a :: b :: split_on tab rest.
Proof.
  intros Ha Hb. unfold awk_split, tsv.
  change (join_with tab [a; b; rest])
    with (a +:+ String tab (b +:+ String tab rest)).
  case_decide as E; [by apply app_sep_not_empty in E|].
  by rewrite !split_on_app_sep.
Qed.

Lemma row_taxon_id_row (a b rest : string) :
  has_char tab a = false → has_char tab b = false →
  row_taxon_id (tsv [a; b; rest]) = before_first tab rest.
Proof.
  intros Ha Hb. unfold row_taxon_id. rewrite awk_split_row by done.
  unfold field_at. simpl. rewrite <- split_on_hd.
  by destruct (split_on tab rest).
Qed.

Lemma main_rule_taxon_id (st : awk_state) (hit : string) :
  keyed_by_first_field (tax st) →
  row_taxon_id (main_rule st hit) = tid_of hit.
Proof.
  intros Hkeyed.
  destruct (tax st !! tid_of hit) as [lineage|] eqn:E.
  - rewrite (main_rule_known _ _ _ E).
    rewrite row_taxon_id_row by apply field_at_free.
    by apply Hkeyed.
  - rewrite (main_rule_unknown _ _ E).
    change (tsv [query_id hit; identity_of hit; tid_of hit; "UNKNOWN"])
      with (tsv [query_id hit; identity_of hit;
                 tid_of hit +:+ String tab "UNKNOWN"]).
    rewrite row_taxon_id_row by apply field_at_free.
    apply before_first_app, tid_of_tab_free.
Qed.

End awk_facts.

Section join_facts.
Import Text Awk Examples.

Lemma foldl_insert_keeps (lines : list string) (m : gmap string string)
    (k : string) :
  is_Some (m !! k) →
  is_Some (foldl (λ m l, <[before_first tab l := l]> m) m lines !! k).
Proof.
  revert m. induction lines as [|l ls IH]; intros m Hk; simpl; [done|].
  apply IH. rewrite lookup_insert. by case_decide.
Qed.

(** What [tax] holds after the BEGIN block: under every key, the last line
    of the file, the first line included, that starts with this key. *)
Lemma foldl_insert_lookup (lines : list string) (m : gmap string string)
    (k : string) :
  foldl (λ m l, <[before_first tab l := l]> m) m lines !! k
  = match last (filter (λ l, before_first tab l = k) lines) with
    | Some l => Some l
    | None => m !! k
    end.
Proof.
  revert m. induction lines as [|a lines IH]; intros m; [done|].
  simpl. rewrite IH, filter_cons.
  destruct (decide (before_first tab a = k)) as [<-|Hne].
  - rewrite last_cons, lookup_insert_eq.
    by destruct (last (filter _ lines)).
  - by rewrite lookup_insert_ne.
Qed.

Lemma tax_lookup (taxonomy : list string) (k : string) :
  tax (BEGIN taxonomy) !! k
  = last (filter (λ l, before_first tab l = k) taxonomy).
Proof.
  unfold BEGIN.
  destruct (foldl_BEGIN_body_stores taxonomy awk_init eq_refl) as [-> _].
  rewrite foldl_insert_lookup. simpl.
  by destruct (last (filter _ taxonomy)).
Qed.

(** C3, as the code has it: the loop that fills [tax] tests [NR==1] to set
    the header line aside, but [getline < file] never advances [NR], so the
    test is never true.  The lookup maps the first field of every line of
    the table, the header line included, to the last line that starts with
    it; for every taxonomy table the header line is therefore a lookup
    entry under its own first field, and [header] stays unset.  On
    [taxonomy_small] the lookup of "taxid" returns the header line, and a
    hit on that key is joined with it as if it were a taxon. *)
Theorem header_line_is_stored :
  (∀ taxonomy k,
     tax (BEGIN taxonomy) !! k
     = last (filter (λ l, before_first tab l = k) taxonomy))
  ∧ (∀ h rows,
       is_Some (tax (BEGIN (h :: rows)) !! before_first tab h)
       ∧ header (BEGIN (h :: rows)) = EmptyString)
  ∧ tax (BEGIN taxonomy_small) !! "taxid" = Some (tsv ["taxid"; "species"])
  ∧ classified_full_tmp taxonomy_small [hit_on_header]
    = [tsv ["read1"; "0.97"; "taxid"; "species"]].
Proof.
  split; [apply tax_lookup|]. split; [|split].
  - intros h rows. unfold BEGIN.
    destruct (foldl_BEGIN_body_stores (h :: rows) awk_init eq_refl)
      as [-> ->].
    split; [|done]. simpl. apply foldl_insert_keeps.
    rewrite lookup_insert_eq. eauto.
  - by vm_compute.
  - by vm_compute.
Qed.

(** C4: for every taxonomy table and every list of hits there is one
    emitted row per hit, and the taxon identifier the row carries (its third
    column) is the part of the hit's target_id in front of the first ':':
    it holds no ':', and the target_id is this identifier followed by
    nothing or by a ':' and the rest. *)
Theorem row_taxon_id_is_target_prefix (taxonomy hits : list string) :
  Forall2
    (λ hit row,
       row_taxon_id row = before_first colon (target_id hit)
       ∧ has_char colon (row_taxon_id row) = false
       ∧ ∃ rest, target_id hit = row_taxon_id row +:+ rest
                 ∧ (rest = EmptyString ∨ ∃ r, rest = String colon r))
    hits (classified_full_tmp taxonomy hits).
Proof.
  unfold classified_full_tmp. rewrite main_loop_map.
  apply Forall2_fmap_r, Forall_Forall2_diag, Forall_forall.
  intros hit _. unfold compose.
  rewrite main_rule_taxon_id by apply BEGIN_keyed.
  rewrite tid_of_before_first.
  split; [done|]. split; [apply before_first_free|].
  apply before_first_prefix.
Qed.

End join_facts.

(** ** Masks, duplicates and distinct values *)

Section dedup_facts.
Import Pandas Spec.
Context `{EqDecision K}.
Implicit Types (seen keys l : list K) (mask : list bool).

Lemma select_map {A B} (f : A → B) mask (l : list A) :
  select mask (map f l) = map f (select mask l).
Proof.
  revert l. induction mask as [|b m IH]; intros [|x l]; simpl; try done.
  destruct b; simpl; by rewrite IH.
Qed.

Lemma select_sublist {A} mask (l : list A) : select mask l `sublist_of` l.
Proof.
  revert l. induction mask as [|b m IH]; intros [|x l]; simpl;
    try apply sublist_nil_l.
  destruct b; [by apply sublist_skip | by apply sublist_cons].
Qed.

(** The mask in closed form: a position is flagged when its key occurs in
    [seen] or at an earlier position. *)
Lemma duplicated_from_lookup seen l i k :
  l !! i = Some k →
  duplicated_from seen l !! i
  = Some (bool_decide (k ∈ seen ∨ k ∈ take i l)).
Proof.
  revert seen i. induction l as [|a l IH]; intros seen [|i] Hk; try done.
  - simpl in *. injection Hk as ->. f_equal. apply bool_decide_ext.
    rewrite elem_of_nil. tauto.
  - simpl in *. rewrite (IH _ _ Hk). f_equal. apply bool_decide_ext.
    rewrite !elem_of_cons. tauto.
Qed.

Lemma uniques_from_cons seen a l :
  uniques_from seen (a :: l)
  = if bool_decide (a ∈ seen) then uniques_from (a :: seen) l
    else a :: uniques_from (a :: seen) l.
Proof. unfold uniques_from. simpl. by destruct (bool_decide (a ∈ seen)). Qed.

Lemma elem_of_uniques_from seen l x :
  x ∈ uniques_from seen l ↔ x ∈ l ∧ x ∉ seen.
Proof.
  revert seen. induction l as [|a l IH]; intros seen.
  - unfold uniques_from. simpl. rewrite elem_of_nil. tauto.
  - rewrite uniques_from_cons. case_bool_decide as Ha.
    + rewrite IH, !elem_of_cons. naive_solver.
    + rewrite !elem_of_cons, IH, !elem_of_cons.
      destruct (decide (x = a)); naive_solver.
Qed.

Lemma NoDup_uniques_from seen l : NoDup (uniques_from seen l).
Proof.
  revert seen. induction l as [|a l IH]; intros seen.
  - constructor.
  - rewrite uniques_from_cons. case_bool_decide; [done|].
    constructor; [|done]. rewrite elem_of_uniques_from, elem_of_cons.
    naive_solver.
Qed.

Lemma uniques_is_uniques_from l : uniques l = uniques_from [] l.
Proof. done. Qed.

Lemma elem_of_uniques l x : x ∈ uniques l ↔ x ∈ l.
Proof.
  rewrite uniques_is_uniques_from, elem_of_uniques_from, elem_of_nil. tauto.
Qed.

Lemma NoDup_uniques l : NoDup (uniques l).
Proof. apply NoDup_uniques_from. Qed.

(** Counting: the counts of the distinct values add up to the length. *)
Lemma count_of_cons k a l :
  count_of k (a :: l) = (if decide (a = k) then S (count_of k l) else count_of k l).
Proof. unfold count_of. rewrite filter_cons. by case_decide. Qed.

Lemma fresh_length_split seen a l :
  length (filter (λ x, x ∉ seen) l)
  = (count_of a (filter (λ x, x ∉ seen) l)
     + length (filter (λ x, x ∉ a :: seen) l))%nat.
Proof.
  induction l as [|b l IH]; [done|].
  rewrite !filter_cons. destruct (decide (b ∉ seen)) as [Hb|Hb].
  - rewrite count_of_cons. destruct (decide (b ∉ a :: seen)) as [Hb'|Hb'].
    + rewrite decide_False by (intros ->; apply Hb'; left).
      simpl. lia.
    + rewrite decide_True; [simpl; lia|].
      apply dec_stable. intros Hne. apply Hb'.
      rewrite elem_of_cons. naive_solver.
  - rewrite decide_False; [done|]. rewrite elem_of_cons. naive_solver.
Qed.

Lemma count_of_fresh seen a l :
  a ∉ seen → count_of a (filter (λ x, x ∉ seen) l) = count_of a l.
Proof.
  intros Ha. induction l as [|b l IH]; [done|].
  rewrite filter_cons, (count_of_cons a b l).
  destruct (decide (b ∉ seen)) as [Hb|Hb].
  - rewrite count_of_cons. by rewrite IH.
  - rewrite decide_False by (by intros ->). done.
Qed.

Lemma sum_counts_uniques_from seen l :
  sum_list (map (λ k, count_of k l) (uniques_from seen l))
  = length (filter (λ x, x ∉ seen) l).
Proof.
  revert seen. induction l as [|a l IH]; intros seen; [done|].
  assert (Hother : ∀ s', a ∈ s' →
    map (λ k, count_of k (a :: l)) (uniques_from s' l)
    = map (λ k, count_of k l) (uniques_from s' l)).
  { intros s' Hs'. apply map_ext_in. intros k Hk.
    apply list_elem_of_In, elem_of_uniques_from in Hk as [_ Hk].
    rewrite count_of_cons. rewrite decide_False; [done|]. by intros ->. }
  rewrite uniques_from_cons, filter_cons. case_bool_decide as Ha.
  - rewrite decide_False by tauto.
    rewrite Hother by left. rewrite IH.
    f_equal. apply list_filter_iff. intros x. rewrite elem_of_cons.
    naive_solver.
  - rewrite decide_True by done. simpl.
    rewrite Hother by left. rewrite IH.
    rewrite count_of_cons, decide_True by done.
    rewrite (fresh_length_split seen a l), count_of_fresh by done. lia.
Qed.

Lemma sum_counts_uniques l :
  sum_list (map (λ k, count_of k l) (uniques l)) = length l.
Proof.
  rewrite uniques_is_uniques_from, sum_counts_uniques_from.
  f_equal. induction l as [|a l IH]; [done|].
  rewrite filter_cons, decide_True by apply not_elem_of_nil. by f_equal.
Qed.

End dedup_facts.

(** ** Columns of a DataFrame *)

Section frame_facts.
Import Pandas.
Implicit Types (df : DataFrame) (name n : string) (c : column).

Lemma get_col_cons name n c df :
  get_col name ((n, c) :: df)
  = if decide (n = name) then Some c else get_col name df.
Proof. done. Qed.

Lemma get_col_set_col_eq name c df : get_col name (set_col name c df) = Some c.
Proof.
  induction df as [|[n c0] df IH]; simpl.
  - by rewrite decide_True.
  - case_decide; simpl; [by rewrite decide_True | by rewrite decide_False].
Qed.

Lemma get_col_set_col_ne name n c df :
  n ≠ name → get_col name (set_col n c df) = get_col name df.
Proof.
  intros Hne. induction df as [|[n0 c0] df IH]; simpl.
  - by rewrite decide_False.
  - destruct (decide (n0 = n)) as [->|]; simpl.
    + by rewrite !decide_False.
    + by rewrite IH.
Qed.

Lemma get_col_app name df1 df2 :
  get_col name (df1 ++ df2)
  = match get_col name df1 with
    | Some c => Some c
    | None => get_col name df2
    end.
Proof.
  induction df1 as [|[n c] df1 IH]; simpl; [done|]. by case_decide.
Qed.

Lemma get_col_drop_ne name n df :
  n ≠ name → get_col name (filter (λ nc, nc.1 ≠ n) df) = get_col name df.
Proof.
  intros Hne. induction df as [|[n0 c0] df IH]; [done|].
  rewrite filter_cons. simpl. destruct (decide (n0 ≠ n)) as [H|H].
  - simpl. by rewrite IH.
  - apply dec_stable in H as ->. by rewrite decide_False.
Qed.

Lemma get_col_drop_eq n df : get_col n (filter (λ nc, nc.1 ≠ n) df) = None.
Proof.
  induction df as [|[n0 c0] df IH]; [done|].
  rewrite filter_cons. simpl. destruct (decide (n0 ≠ n)) as [H|H]; [|done].
  simpl. by rewrite decide_False.
Qed.

Lemma get_col_map name (f : column → column) df :
  get_col name (map (λ nc, (nc.1, f nc.2)) df) = f <$> get_col name df.
Proof.
  induction df as [|[n c] df IH]; simpl; [done|]. by case_decide.
Qed.

Lemma drop_set_col n c df :
  filter (λ nc : string * column, nc.1 ≠ n) (set_col n c df)
  = filter (λ nc, nc.1 ≠ n) df.
Proof.
  induction df as [|[n0 c0] df IH]; simpl.
  - rewrite filter_cons. simpl. by rewrite decide_False by tauto.
  - destruct (decide (n0 = n)) as [->|Hne].
    + rewrite !filter_cons. simpl. by rewrite !decide_False by tauto.
    + rewrite !filter_cons. simpl. rewrite !decide_True by done.
      by rewrite IH.
Qed.

Lemma non_null_map_Some {A B} (f : A → B) (l : list A) :
  non_null (map (λ x, Some (f x)) l) = map f l.
Proof. unfold non_null. induction l; simpl; [done|]. by f_equal. Qed.

End frame_facts.

(** ** float64 rounding and numpy's sum *)

Section float_facts.
Import Float Spec.
Local Open Scope Q_scope.

Lemma pow2_pos (e : Z) : 0 < pow2 e.
Proof. by apply Qpower_0_lt. Qed.

Lemma pow2_plus (a b : Z) : pow2 (a + b) == pow2 a * pow2 b.
Proof. by apply Qpower_plus. Qed.

Lemma pow2_Z (e : Z) : (0 <= e)%Z → pow2 e == inject_Z (2 ^ e).
Proof. intros He. unfold pow2. by rewrite Zpower_Qpower. Qed.

Lemma pow2_le (a b : Z) : (a <= b)%Z → pow2 a <= pow2 b.
Proof. intros Hab. by apply Qpower_le_compat_l. Qed.

Lemma pow2_lt_inv (a b : Z) : pow2 a < pow2 b → (a < b)%Z.
Proof. intros Hab. by apply (Qpower_lt_compat_l_inv 2). Qed.

Lemma pow2_succ (e : Z) : pow2 (e + 1) == 2 * pow2 e.
Proof. rewrite pow2_plus. change (pow2 1) with 2. ring. Qed.

Lemma pow2_div (q : Q) (e : Z) : q / pow2 e == q * pow2 (- e).
Proof.
  unfold Qdiv, pow2. by rewrite Qpower_opp.
Qed.

Lemma pow2_cancel (e : Z) : pow2 (- e) * pow2 e == 1.
Proof. rewrite <- pow2_plus. by replace (- e + e)%Z with 0%Z by lia. Qed.

(** [exponent q] is the integer part of the binary logarithm of [q]. *)
Lemma exponent_spec (q : Q) :
  0 < q → pow2 (exponent q) <= q ∧ q < pow2 (exponent q + 1).
Proof.
  intros Hq. destruct q as [n d]. unfold exponent. simpl Qnum. simpl Qden.
  assert (Hn : (0 < n)%Z).
  { unfold Qlt in Hq. simpl in Hq. lia. }
  pose proof (Z.log2_spec n Hn) as [Hn1 Hn2].
  pose proof (Z.log2_spec (Z.pos d) (Pos2Z.is_pos d)) as [Hd1 Hd2].
  pose proof (Z.log2_nonneg n) as Hln.
  pose proof (Z.log2_nonneg (Z.pos d)) as Hld.
  set (ln := Z.log2 n) in *. set (ld := Z.log2 (Z.pos d)) in *.
  assert (Hq' : n # d == inject_Z n * / inject_Z (Z.pos d)).
  { by rewrite (Qmake_Qdiv n d). }
  assert (Hdpos : 0 < inject_Z (Z.pos d)).
  { unfold Qlt. simpl. lia. }
  assert (Hup : n # d < pow2 (ln - ld + 1)).
  { replace (ln - ld + 1)%Z with ((ln + 1) + - ld)%Z by lia.
    rewrite pow2_plus, <- pow2_div, Hq'.
    apply Qlt_le_trans with (inject_Z (2 ^ (ln + 1)) * / inject_Z (Z.pos d)).
    - apply Qmult_lt_compat_r; [by apply Qinv_lt_0_compat|].
      rewrite <- Zlt_Qlt. lia.
    - rewrite <- pow2_Z by lia. unfold Qdiv.
      apply Qmult_le_l; [apply pow2_pos|].
      apply Qle_shift_inv_l; [apply pow2_pos|].
      rewrite Qmult_comm. apply Qle_shift_div_r; [done|].
      rewrite Qmult_1_l, pow2_Z by lia. rewrite <- Zle_Qle. lia. }
  assert (Hlow : pow2 (ln - ld - 1) <= n # d).
  { replace (ln - ld - 1)%Z with (ln + - (ld + 1))%Z by lia.
    rewrite pow2_plus, <- pow2_div, Hq'.
    apply Qle_trans with (inject_Z (2 ^ ln) * / inject_Z (Z.pos d)).
    - rewrite <- pow2_Z by lia. unfold Qdiv.
      apply Qmult_le_l; [apply pow2_pos|].
      apply Qle_shift_inv_l; [done|].
      rewrite Qmult_comm. apply Qle_shift_div_r; [apply pow2_pos|].
      rewrite Qmult_1_l, pow2_Z by lia. rewrite <- Zle_Qle. lia.
    - apply Qmult_le_compat_r; [|by apply Qlt_le_weak, Qinv_lt_0_compat].
      rewrite <- Zle_Qle. lia. }
  destruct (Qle_bool (pow2 (ln - ld)) (n # d)) eqn:Hcmp.
  - apply Qle_bool_iff in Hcmp. by split.
  - split; [done|]. replace (ln - ld - 1 + 1)%Z with (ln - ld)%Z by lia.
    apply Qnot_le_lt. intros Hle. apply Qle_bool_iff in Hle. congruence.
Qed.


Lemma nearest_even_cases (x : Q) :
  nearest_even x = Qfloor x ∧ x - inject_Z (Qfloor x) <= 1 # 2
  ∨ nearest_even x = (Qfloor x + 1)%Z ∧ 1 # 2 <= x - inject_Z (Qfloor x).
Proof.
  unfold nearest_even.
  destruct (Qcompare_spec (x - inject_Z (Qfloor x)) (1 # 2)) as [E|L|G].
  - destruct (Z.even (Qfloor x)); [left|right]; rewrite E; by split.
  - left. split; [done|by apply Qlt_le_weak].
  - right. split; [done|by apply Qlt_le_weak].
Qed.

(** Rounding to an integer moves a number by at most one half. *)
Lemma nearest_even_err (x : Q) :
  Qabs (inject_Z (nearest_even x) - x) <= 1 # 2.
Proof.
  pose proof (Qfloor_le x) as Hlo. pose proof (Qlt_floor x) as Hhi.
  rewrite inject_Z_plus in Hhi. change (inject_Z 1) with 1 in Hhi.
  apply Qabs_Qle_condition.
  destruct (nearest_even_cases x) as [[-> H]|[-> H]];
    rewrite ?inject_Z_plus; change (inject_Z 1) with 1; split; lra.
Qed.

Lemma nearest_even_Z (z : Z) : nearest_even (inject_Z z) = z.
Proof.
  unfold nearest_even. rewrite Qfloor_Z.
  assert (inject_Z z - inject_Z z == 0) as E by ring.
  destruct (Qcompare_spec (inject_Z z - inject_Z z) (1 # 2)) as [H|H|H];
    rewrite E in H; [discriminate H|done|discriminate H].
Qed.

Lemma nearest_even_comp (x y : Q) : x == y → nearest_even x = nearest_even y.
Proof.
  intros E. unfold nearest_even. rewrite (Qfloor_comp _ _ E).
  assert (x - inject_Z (Qfloor y) == y - inject_Z (Qfloor y)) as ->
    by (by rewrite E).
  done.
Qed.

Lemma nearest_even_mono (x y : Q) :
  x <= y → (nearest_even x <= nearest_even y)%Z.
Proof.
  intros Hxy. destruct (Z.le_gt_cases (nearest_even x) (nearest_even y))
    as [|Hgt]; [done|exfalso].
  pose proof (nearest_even_err x) as Hx. pose proof (nearest_even_err y) as Hy.
  apply Qabs_Qle_condition in Hx, Hy.
  assert (H1 : inject_Z (nearest_even y) + 1 <= inject_Z (nearest_even x)).
  { change 1 with (inject_Z 1). rewrite <- inject_Z_plus, <- Zle_Qle. lia. }
  assert (E : x == y) by lra.
  rewrite (nearest_even_comp _ _ E) in Hgt. lia.
Qed.


Lemma round_pos_eq (q : Q) :
  round_pos q
  == inject_Z (nearest_even (q / pow2 (exponent q - 52)))
     * pow2 (exponent q - 52).
Proof. unfold round_pos. apply Qred_correct. Qed.

Lemma scaled_back (q : Q) (e : Z) : q / pow2 e * pow2 e == q.
Proof.
  unfold Qdiv. rewrite <- Qmult_assoc, (Qmult_comm (/ _)), Qmult_inv_r.
  - ring.
  - intros E. pose proof (pow2_pos e) as H. rewrite E in H. discriminate H.
Qed.

(** The relative error of rounding is at most 2^-53. *)
Lemma round_pos_err (q : Q) :
  0 < q → Qabs (round_pos q - q) <= q * ulp_half.
Proof.
  intros Hq. destruct (exponent_spec q Hq) as [HE _].
  set (E := exponent q) in *. rewrite round_pos_eq. fold E.
  set (P := pow2 (E - 52)). set (x := q / P).
  pose proof (nearest_even_err x) as Hm. apply Qabs_Qle_condition in Hm.
  pose proof (scaled_back q (E - 52)) as Hx. fold P in Hx. fold x in Hx.
  assert (HP : P == 2 * (pow2 E * ulp_half)).
  { unfold P, ulp_half. rewrite <- pow2_plus, <- pow2_succ.
    by replace (E + -53 + 1)%Z with (E - 52)%Z by lia. }
  pose proof (pow2_pos E) as HA. pose proof (pow2_pos (-53)) as Hu.
  fold ulp_half in Hu. set (A := pow2 E) in *. set (u := ulp_half) in *.
  set (m := inject_Z (nearest_even x)) in *.
  apply Qabs_Qle_condition.
  assert (Hdiff : m * P - q == (m - x) * P) by (rewrite <- Hx at 1; ring).
  rewrite Hdiff, HP.
  assert (Ht : 0 < A * u) by (by apply Qmult_lt_0_compat).
  assert (Htq : A * u <= q * u).
  { apply Qmult_le_compat_r; [done|by apply Qlt_le_weak]. }
  destruct Hm as [Hm1 Hm2]. set (d := m - x) in *. set (t := A * u) in *.
  assert (H1 : 0 <= (d + (1 # 2)) * t).
  { apply Qmult_le_0_compat; lra. }
  assert (H2 : 0 <= ((1 # 2) - d) * t).
  { apply Qmult_le_0_compat; lra. }
  split; lra.
Qed.


Lemma scaled_le (a b : Q) (e : Z) : a <= b → a / pow2 e <= b / pow2 e.
Proof.
  intros Hab. unfold Qdiv. apply Qmult_le_compat_r; [done|].
  apply Qlt_le_weak, Qinv_lt_0_compat, pow2_pos.
Qed.

Lemma pow2_scaled (k e : Z) : pow2 k / pow2 e == pow2 (k - e).
Proof. rewrite pow2_div, <- pow2_plus. by replace (k + - e)%Z with (k - e)%Z by lia. Qed.

Lemma pow2_le_inv (a b : Z) : pow2 a <= pow2 b → (a <= b)%Z.
Proof. intros Hab. by apply (Qpower_le_compat_l_inv 2). Qed.

(** Rounding never crosses a power of two. *)
Lemma round_pos_le_pow2 (q : Q) (k : Z) :
  0 < q → q <= pow2 k → round_pos q <= pow2 k.
Proof.
  intros Hq Hk. destruct (exponent_spec q Hq) as [HE _].
  set (E := exponent q) in *.
  assert (HEk : (E <= k)%Z) by (apply pow2_le_inv; lra).
  rewrite round_pos_eq. fold E. set (e := (E - 52)%Z).
  assert (Hx : q / pow2 e <= inject_Z (2 ^ (k - e))).
  { rewrite <- pow2_Z, <- pow2_scaled by lia. by apply scaled_le. }
  apply nearest_even_mono in Hx. rewrite nearest_even_Z in Hx.
  apply Qle_trans with (inject_Z (2 ^ (k - e)) * pow2 e).
  - apply Qmult_le_compat_r; [by rewrite <- Zle_Qle|].
    apply Qlt_le_weak, pow2_pos.
  - rewrite <- pow2_Z, <- pow2_plus by lia.
    replace (k - e + e)%Z with k by lia. apply Qle_refl.
Qed.

Lemma round_pos_ge_pow2 (q : Q) :
  0 < q → pow2 (exponent q) <= round_pos q.
Proof.
  intros Hq. destruct (exponent_spec q Hq) as [HE _].
  set (E := exponent q) in *. rewrite round_pos_eq. fold E.
  set (e := (E - 52)%Z).
  assert (Hx : inject_Z (2 ^ 52) <= q / pow2 e).
  { rewrite <- pow2_Z by lia. replace 52%Z with (E - e)%Z by lia.
    rewrite <- pow2_scaled. by apply scaled_le. }
  apply nearest_even_mono in Hx. rewrite nearest_even_Z in Hx.
  apply Qle_trans with (inject_Z (2 ^ 52) * pow2 e).
  - rewrite <- pow2_Z, <- pow2_plus by lia.
    replace (52 + e)%Z with E by lia. apply Qle_refl.
  - apply Qmult_le_compat_r; [by rewrite <- Zle_Qle|].
    apply Qlt_le_weak, pow2_pos.
Qed.

Lemma round_pos_pos (q : Q) : 0 < q → 0 < round_pos q.
Proof.
  intros Hq. eapply Qlt_le_trans; [apply (pow2_pos (exponent q))|].
  by apply round_pos_ge_pow2.
Qed.

Lemma exponent_mono (x y : Q) : 0 < x → x <= y → (exponent x <= exponent y)%Z.
Proof.
  intros Hx Hxy. destruct (exponent_spec x Hx) as [H1 _].
  destruct (exponent_spec y) as [_ H2]; [lra|].
  assert (pow2 (exponent x) < pow2 (exponent y + 1)) as H%pow2_lt_inv by lra.
  lia.
Qed.

(** Rounding is monotone. *)
Lemma round_pos_mono (x y : Q) :
  0 < x → x <= y → round_pos x <= round_pos y.
Proof.
  intros Hx Hxy. assert (Hy : 0 < y) by lra.
  pose proof (exponent_mono x y Hx Hxy) as HE.
  destruct (Z.eq_dec (exponent x) (exponent y)) as [E|NE].
  - rewrite !round_pos_eq, E.
    apply Qmult_le_compat_r; [|apply Qlt_le_weak, pow2_pos].
    rewrite <- Zle_Qle. by apply nearest_even_mono, scaled_le.
  - apply Qle_trans with (pow2 (exponent y)).
    + apply round_pos_le_pow2; [done|].
      destruct (exponent_spec x Hx) as [_ H].
      apply Qle_trans with (pow2 (exponent x + 1)); [lra|].
      apply pow2_le. lia.
    + by apply round_pos_ge_pow2.
Qed.

(** Integers below 2^53 are floats. *)
Lemma round_pos_Z (z : Z) :
  (0 < z < 2 ^ 53)%Z → round_pos (inject_Z z) == inject_Z z.
Proof.
  intros [Hz Hlt]. assert (Hq : 0 < inject_Z z) by (by rewrite <- (Zlt_Qlt 0%Z)).
  destruct (exponent_spec _ Hq) as [HE _]. set (E := exponent (inject_Z z)) in *.
  assert (HE52 : (E < 53)%Z).
  { apply pow2_lt_inv. eapply Qle_lt_trans; [exact HE|].
    rewrite pow2_Z by lia. by rewrite <- Zlt_Qlt. }
  rewrite round_pos_eq. fold E. set (e := (E - 52)%Z).
  assert (Hx : inject_Z z / pow2 e == inject_Z (z * 2 ^ (- e))).
  { rewrite pow2_div, pow2_Z, inject_Z_mult by lia. reflexivity. }
  rewrite (nearest_even_comp _ _ Hx), nearest_even_Z, inject_Z_mult.
  rewrite <- pow2_Z, <- Qmult_assoc, pow2_cancel by lia. ring.
Qed.


Lemma ulp_half_pos : 0 < ulp_half.
Proof. apply pow2_pos. Qed.

Lemma round_float_0 (q : Q) : q == 0 → round_float q = 0.
Proof. intros E. unfold round_float. by rewrite (proj1 (Qeq_alt q 0) E). Qed.

Lemma round_float_pos (q : Q) : 0 < q → round_float q = round_pos q.
Proof.
  intros Hq. unfold round_float. by rewrite (proj1 (Qgt_alt q 0) Hq).
Qed.

Lemma round_float_nonneg (q : Q) : 0 <= q → 0 <= round_float q.
Proof.
  intros Hq. destruct (Qlt_le_dec 0 q) as [Hpos|Hle].
  - rewrite round_float_pos by done. by apply Qlt_le_weak, round_pos_pos.
  - rewrite round_float_0; [apply Qle_refl|]. by apply Qle_antisym.
Qed.

Lemma round_float_bounds (q : Q) :
  0 <= q →
  q * (1 - ulp_half) <= round_float q ∧ round_float q <= q * (1 + ulp_half).
Proof.
  intros Hq. destruct (Qlt_le_dec 0 q) as [Hpos|Hle].
  - rewrite round_float_pos by done.
    pose proof (round_pos_err q Hpos) as H. apply Qabs_Qle_condition in H.
    split; lra.
  - assert (E : q == 0) by (by apply Qle_antisym).
    rewrite round_float_0 by done. rewrite E. split; lra.
Qed.

Lemma round_float_gt_0 (q : Q) : 0 < q → 0 < round_float q.
Proof. intros Hq. rewrite round_float_pos by done. by apply round_pos_pos. Qed.

Lemma round_float_le_1 (q : Q) : 0 <= q → q <= 1 → round_float q <= 1.
Proof.
  intros Hq H1. destruct (Qlt_le_dec 0 q) as [Hpos|Hle].
  - rewrite round_float_pos by done. by apply (round_pos_le_pow2 q 0).
  - rewrite round_float_0; [done|]. by apply Qle_antisym.
Qed.

Lemma round_float_mono (x y : Q) :
  0 <= x → x <= y → round_float x <= round_float y.
Proof.
  intros Hx Hxy. destruct (Qlt_le_dec 0 x) as [Hpos|Hle].
  - rewrite !round_float_pos by lra. by apply round_pos_mono.
  - rewrite (round_float_0 x) by (by apply Qle_antisym).
    apply round_float_nonneg. lra.
Qed.

Lemma of_int_exact (z : Z) : (0 <= z < 2 ^ 53)%Z → of_int z == inject_Z z.
Proof.
  intros [H0 H1]. unfold of_int. destruct (Z.eq_dec z 0%Z) as [->|Hz].
  - reflexivity.
  - rewrite round_float_pos by (rewrite <- (Zlt_Qlt 0%Z); lia).
    apply round_pos_Z. lia.
Qed.

Lemma of_int_nonneg (z : Z) : (0 <= z)%Z → 0 <= of_int z.
Proof. intros Hz. apply round_float_nonneg. by rewrite <- (Zle_Qle 0%Z). Qed.

Lemma of_int_pos (z : Z) : (0 < z)%Z → 0 < of_int z.
Proof. intros Hz. apply round_float_gt_0. by rewrite <- (Zlt_Qlt 0%Z). Qed.

Lemma of_int_mono (a b : Z) : (0 <= a <= b)%Z → of_int a <= of_int b.
Proof.
  intros [Ha Hab]. apply round_float_mono; by rewrite <- ?(Zle_Qle 0%Z), <- ?Zle_Qle.
Qed.

(** ** Error bounds for sums *)

Lemma near_comp (k : nat) (s s' a a' : Q) :
  s == s' → a == a' → near k s a → near k s' a'.
Proof. intros Es Ea (H1 & H2 & H3 & H4). unfold near. rewrite <- Es, <- Ea. done. Qed.

Lemma near_exact (k : nat) (x : Q) : 0 <= x → near k x x.
Proof.
  intros Hx. pose proof ulp_half_pos as Hu. unfold near.
  assert (Hk : 0 <= inject_Z (Z.of_nat k)) by (rewrite <- (Zle_Qle 0%Z); lia).
  set (n := inject_Z (Z.of_nat k)) in *. set (u := ulp_half) in *.
  assert (0 <= x * (n * u)).
  { apply Qmult_le_0_compat; [done|]. apply Qmult_le_0_compat; lra. }
  repeat split; lra.
Qed.

Lemma near_round (x : Q) : 0 <= x → near 1 x (round_float x).
Proof.
  intros Hx. pose proof ulp_half_pos as Hu.
  destruct (round_float_bounds x Hx) as [H1 H2].
  pose proof (round_float_nonneg x Hx) as H0.
  unfold near. change (inject_Z (Z.of_nat 1)) with 1.
  set (u := ulp_half) in *. set (r := round_float x) in *.
  assert (0 <= x * (u * u)).
  { apply Qmult_le_0_compat; [done|]. apply Qmult_le_0_compat; lra. }
  assert (0 <= (x * (1 + u) - r) * (1 - u)).
  { apply Qmult_le_0_compat; [lra|].
    assert (u <= 1); [|lra]. unfold u, ulp_half. by vm_compute. }
  repeat split; lra.
Qed.

Lemma near_mono (k k' : nat) (s a : Q) :
  (k ≤ k')%nat → near k s a → near k' s a.
Proof.
  intros Hk (H1 & H2 & H3 & H4). pose proof ulp_half_pos as Hu. unfold near.
  assert (Hn : inject_Z (Z.of_nat k) <= inject_Z (Z.of_nat k')).
  { rewrite <- Zle_Qle. lia. }
  set (n := inject_Z (Z.of_nat k)) in *.
  set (n' := inject_Z (Z.of_nat k')) in *. set (u := ulp_half) in *.
  assert (0 <= (n' - n) * u) by (apply Qmult_le_0_compat; lra).
  assert (0 <= s * ((n' - n) * u)) by (by apply Qmult_le_0_compat).
  assert (0 <= a * ((n' - n) * u)) by (by apply Qmult_le_0_compat).
  repeat split; lra.
Qed.

Lemma near_weaken (k k' : nat) (s s' a : Q) :
  near k s a → s == s' → (k ≤ k')%nat → near k' s' a.
Proof.
  intros H E Hk. eapply near_comp; [exact E|reflexivity|].
  by apply (near_mono k).
Qed.

(** One more addition costs one more rounding. *)
Lemma near_add (k1 k2 : nat) (s1 s2 a b : Q) :
  (1 ≤ k1)%nat → (1 ≤ k2)%nat →
  near k1 s1 a → near k2 s2 b → near (k1 + k2) (s1 + s2) (fadd a b).
Proof.
  intros Hk1 Hk2 (Hs1 & Ha & Hl1 & Hu1) (Hs2 & Hb & Hl2 & Hu2).
  pose proof ulp_half_pos as Hu.
  assert (Hule : ulp_half <= 1) by (by vm_compute).
  destruct (round_float_bounds (a + b)) as [Hf1 Hf2]; [lra|].
  pose proof (round_float_nonneg (a + b)) as Hf0.
  unfold near. fold (fadd a b) in *. set (f := fadd a b) in *.
  rewrite Nat2Z.inj_add, inject_Z_plus.
  assert (Hn1 : 1 <= inject_Z (Z.of_nat k1)).
  { change 1 with (inject_Z 1). rewrite <- Zle_Qle. lia. }
  assert (Hn2 : 1 <= inject_Z (Z.of_nat k2)).
  { change 1 with (inject_Z 1). rewrite <- Zle_Qle. lia. }
  set (n1 := inject_Z (Z.of_nat k1)) in *.
  set (n2 := inject_Z (Z.of_nat k2)) in *. set (u := ulp_half) in *.
  assert (Hp : u <= n1 * u).
  { rewrite <- (Qmult_1_l u) at 1. apply Qmult_le_compat_r; lra. }
  assert (Hr : u <= n2 * u).
  { rewrite <- (Qmult_1_l u) at 1. apply Qmult_le_compat_r; lra. }
  set (p := n1 * u) in *. set (r := n2 * u) in *.
  assert (Hsum : (n1 + n2) * u == p + r) by (unfold p, r; ring).
  rewrite Hsum.
  assert (Hpu : 0 <= p * u) by (apply Qmult_le_0_compat; lra).
  assert (Hru : 0 <= r * u) by (apply Qmult_le_0_compat; lra).
  split; [lra|]. split; [apply Hf0; lra|]. split.
  - assert (0 <= (a - s1 * (1 - p)) * (1 - u)).
    { apply Qmult_le_0_compat; lra. }
    assert (0 <= (b - s2 * (1 - r)) * (1 - u)).
    { apply Qmult_le_0_compat; lra. }
    assert (0 <= s1 * (r - u + p * u)).
    { apply Qmult_le_0_compat; lra. }
    assert (0 <= s2 * (p - u + r * u)).
    { apply Qmult_le_0_compat; lra. }
    lra.
  - destruct (Qlt_le_dec 0 (1 - (p + r))) as [Hpos|Hneg].
    + assert (0 <= ((a + b) * (1 + u) - f) * (1 - (p + r))).
      { apply Qmult_le_0_compat; lra. }
      assert (0 <= a * (r - u + u * (p + r))).
      { apply Qmult_le_0_compat; [done|].
        assert (0 <= u * (p + r)); [apply Qmult_le_0_compat; lra|lra]. }
      assert (0 <= b * (p - u + u * (p + r))).
      { apply Qmult_le_0_compat; [done|].
        assert (0 <= u * (p + r)); [apply Qmult_le_0_compat; lra|lra]. }
      lra.
    + assert (0 <= f * (p + r - 1)).
      { apply Qmult_le_0_compat; [apply Hf0|]; lra. }
      lra.
Qed.


(** ** numpy's sum *)

Lemma Qsum_app (l1 l2 : list Q) : Qsum (l1 ++ l2) == Qsum l1 + Qsum l2.
Proof.
  induction l1 as [|x l1 IH]; simpl; [ring|]. rewrite IH. ring.
Qed.

Lemma foldl_near (vs ss : list Q) (k : nat) (s r : Q) :
  (1 ≤ k)%nat → near k s r → Forall2 (near 1) ss vs →
  near (k + length vs) (s + Qsum ss) (foldl fadd r vs).
Proof.
  intros Hk Hr Hall. revert k s r Hk Hr.
  induction Hall as [|s0 v0 ss vs H0 _ IH]; intros k s r Hk Hr; simpl.
  - apply (near_weaken _ _ _ _ _ Hr); [ring|lia].
  - apply (near_weaken _ _ _ _ _
             (IH (k + 1)%nat _ _ ltac:(lia)
                 (near_add k 1 _ _ _ _ Hk (le_n 1) Hr H0))); [ring|lia].
Qed.

Lemma accumulate_near (vs ss : list Q) :
  vs ≠ [] → Forall2 (near 1) ss vs →
  near (length vs) (Qsum ss) (accumulate vs).
Proof.
  intros Hne Hall. destruct Hall as [|s0 v0 ss vs H0 Hall]; [done|]. simpl.
  by apply (foldl_near vs ss 1).
Qed.

Lemma strided_Forall2 (R : Q → Q → Prop) (ss vs : list Q) (j : nat) :
  Forall2 R ss vs → Forall2 R (strided j ss) (strided j vs).
Proof.
  intros Hall. revert j. induction Hall as [|s v ss vs H _ IH]; intros j.
  - constructor.
  - destruct j; simpl; [constructor; [done|apply IH]|apply IH].
Qed.

Lemma strided_drop (j : nat) (l : list Q) :
  strided j l
  = match drop j l with
    | [] => []
    | x :: rest => x :: strided 7 rest
    end.
Proof.
  revert l. induction j as [|j IH]; intros [|x l]; simpl; done.
Qed.

Lemma strided_not_nil (j : nat) (l : list Q) :
  (j < length l)%nat → strided j l ≠ [].
Proof.
  intros Hj. rewrite strided_drop.
  destruct (drop j l) eqn:E; [|done].
  apply (f_equal length) in E. rewrite length_drop in E. simpl in E. lia.
Qed.

(** The eight strides share out the list. *)
Lemma strided_parts (f : list Q → Q) (l : list Q) :
  f [] == 0 → (∀ x t, f (x :: t) == x + f t) →
  f (strided 0 l) + f (strided 1 l) + f (strided 2 l) + f (strided 3 l)
  + f (strided 4 l) + f (strided 5 l) + f (strided 6 l) + f (strided 7 l)
  == f l.
Proof.
  intros Hnil Hcons. induction l as [|x l IH].
  - simpl. rewrite Hnil. ring.
  - simpl. rewrite !Hcons, <- IH. ring.
Qed.

Lemma strided_lengths (l : list Q) :
  (length (strided 0 l) + length (strided 1 l) + length (strided 2 l)
   + length (strided 3 l) + length (strided 4 l) + length (strided 5 l)
   + length (strided 6 l) + length (strided 7 l))%nat
  = length l.
Proof.
  induction l as [|x l IH]; [done|]. simpl. lia.
Qed.

Lemma block_sum_near (vs ss : list Q) :
  (8 ≤ length vs)%nat → Forall2 (near 1) ss vs →
  near (length vs) (Qsum ss) (block_sum vs).
Proof.
  intros Hlen Hall. unfold block_sum.
  set (m := (length vs - length vs mod 8)%nat).
  assert (Hm : (8 ≤ m ≤ length vs)%nat).
  { pose proof (Nat.div_mod_eq (length vs) 8).
    pose proof (Nat.mod_upper_bound (length vs) 8). unfold m. lia. }
  pose proof (Forall2_take _ _ _ m Hall) as Hmain.
  pose proof (Forall2_drop _ _ _ m Hall) as Hrest.
  set (main := take m vs) in *. set (smain := take m ss) in *.
  assert (Hlmain : length main = m) by (unfold main; rewrite length_take; lia).
  assert (Hr : ∀ j, (j < 8)%nat →
            near (length (strided j main)) (Qsum (strided j smain))
                 (accumulate (strided j main))
            ∧ (1 ≤ length (strided j main))%nat).
  { intros j Hj. assert (Hne : strided j main ≠ []).
    { apply strided_not_nil. lia. }
    split; [by apply accumulate_near, strided_Forall2|].
    destruct (strided j main); [done|simpl; lia]. }
  destruct (Hr 0%nat) as [H0 L0]; [lia|]. destruct (Hr 1%nat) as [H1 L1]; [lia|].
  destruct (Hr 2%nat) as [H2 L2]; [lia|]. destruct (Hr 3%nat) as [H3 L3]; [lia|].
  destruct (Hr 4%nat) as [H4 L4]; [lia|]. destruct (Hr 5%nat) as [H5 L5]; [lia|].
  destruct (Hr 6%nat) as [H6 L6]; [lia|]. destruct (Hr 7%nat) as [H7 L7]; [lia|].
  pose proof (near_add _ _ _ _ _ _ L0 L1 H0 H1) as H01.
  pose proof (near_add _ _ _ _ _ _ L2 L3 H2 H3) as H23.
  pose proof (near_add _ _ _ _ _ _ L4 L5 H4 H5) as H45.
  pose proof (near_add _ _ _ _ _ _ L6 L7 H6 H7) as H67.
  pose proof (λ a b, near_add _ _ _ _ _ _ a b H01 H23) as H03.
  specialize (H03 ltac:(lia) ltac:(lia)).
  pose proof (λ a b, near_add _ _ _ _ _ _ a b H45 H67) as H47.
  specialize (H47 ltac:(lia) ltac:(lia)).
  pose proof (λ a b, near_add _ _ _ _ _ _ a b H03 H47) as Hres.
  specialize (Hres ltac:(lia) ltac:(lia)).
  pose proof (λ a, foldl_near _ _ _ _ _ a Hres Hrest) as Hfin.
  specialize (Hfin ltac:(lia)).
  pose proof (strided_lengths main) as Hlens.
  pose proof (strided_parts Qsum smain ltac:(reflexivity)
                ltac:(intros; reflexivity)) as Hparts.
  apply (near_weaken _ _ _ _ _ Hfin).
  - transitivity (Qsum (take m ss ++ drop m ss)); [|by rewrite take_drop].
    rewrite Qsum_app. fold smain. rewrite <- Hparts. ring.
  - rewrite length_drop. lia.
Qed.

Lemma split_point (n : nat) :
  (128 < n)%nat →
  (8 ≤ n / 2 - (n / 2) mod 8 ∧ n / 2 - (n / 2) mod 8 + 8 ≤ n)%nat.
Proof.
  intros Hn. pose proof (Nat.div_mod_eq n 2).
  pose proof (Nat.mod_upper_bound n 2).
  pose proof (Nat.mod_upper_bound (n / 2) 8). lia.
Qed.

Lemma pairwise_fuel_S (fuel : nat) (l : list Q) :
  pairwise_fuel (S fuel) l
  = if (length l <? 8)%nat then foldl fadd 0 l
    else if (length l <=? 128)%nat then block_sum l
    else fadd (pairwise_fuel fuel
                 (take (length l / 2 - (length l / 2) mod 8) l))
              (pairwise_fuel fuel
                 (drop (length l / 2 - (length l / 2) mod 8) l)).
Proof. reflexivity. Qed.

Lemma pairwise_fuel_near (fuel : nat) (vs ss : list Q) :
  (8 ≤ length vs)%nat → Forall2 (near 1) ss vs →
  near (length vs) (Qsum ss) (pairwise_fuel fuel vs).
Proof.
  revert vs ss. induction fuel as [|fuel IH]; intros vs ss Hlen Hall.
  - simpl. destruct (Nat.ltb_spec (length vs) 8); [lia|].
    destruct (length vs <=? 128)%nat; by apply block_sum_near.
  - rewrite pairwise_fuel_S.
    destruct (Nat.ltb_spec (length vs) 8); [lia|].
    destruct (Nat.leb_spec (length vs) 128); [by apply block_sum_near|].
    set (n2 := (length vs / 2 - (length vs / 2) mod 8)%nat).
    assert (Hn2 : (8 ≤ n2 ∧ n2 + 8 ≤ length vs)%nat) by (by apply split_point).
    pose proof (λ a, IH _ _ a (Forall2_take _ _ _ n2 Hall)) as H1.
    specialize (H1 ltac:(rewrite length_take; lia)).
    pose proof (λ a, IH _ _ a (Forall2_drop _ _ _ n2 Hall)) as H2.
    specialize (H2 ltac:(rewrite length_drop; lia)).
    rewrite length_take in H1. rewrite length_drop in H2.
    pose proof (λ a b, near_add _ _ _ _ _ _ a b H1 H2) as H12.
    specialize (H12 ltac:(lia) ltac:(lia)).
    apply (near_weaken _ _ _ _ _ H12).
    + rewrite <- Qsum_app. by rewrite take_drop.
    + lia.
Qed.

Lemma pairwise_fuel_short (fuel : nat) (l : list Q) :
  (length l < 8)%nat → pairwise_fuel fuel l = foldl fadd 0 l.
Proof.
  intros Hl. destruct fuel; simpl;
    destruct (Nat.ltb_spec (length l) 8); (done || lia).
Qed.

(** numpy's sum of [n] approximations carries at most [n + 1] roundings
    more. *)
Lemma pairwise_sum_near (vs ss : list Q) :
  Forall2 (near 1) ss vs →
  near (length vs + 1) (Qsum ss) (pairwise_sum vs).
Proof.
  intros Hall. unfold pairwise_sum.
  destruct (Nat.lt_ge_cases (length vs) 8) as [Hshort|Hlong].
  - rewrite pairwise_fuel_short by done.
    apply (near_weaken _ _ _ _ _
             (foldl_near vs ss 1 0 0 (le_n 1) (near_exact 1 0 (Qle_refl 0))
                Hall)); [ring|lia].
  - eapply near_mono; [|by apply pairwise_fuel_near]. lia.
Qed.

(** The fuel of [pairwise_sum] never runs out. *)
Lemma pairwise_fuel_enough (f1 f2 : nat) (l : list Q) :
  (length l ≤ f1)%nat → (length l ≤ f2)%nat →
  pairwise_fuel f1 l = pairwise_fuel f2 l.
Proof.
  revert f2 l. induction f1 as [|f1 IH]; intros f2 l H1 H2.
  - destruct l; [|simpl in H1; lia]. by destruct f2.
  - destruct f2 as [|f2].
    { destruct l; [done|simpl in H2; lia]. }
    rewrite !pairwise_fuel_S.
    destruct (Nat.ltb_spec (length l) 8); [done|].
    destruct (Nat.leb_spec (length l) 128); [done|].
    set (n2 := (length l / 2 - (length l / 2) mod 8)%nat).
    assert (Hn2 : (8 ≤ n2 ∧ n2 + 8 ≤ length l)%nat) by (by apply split_point).
    f_equal; apply IH; rewrite ?length_take, ?length_drop; lia.
Qed.

(** ** The depth of numpy's sum

    The roundings that reach one term of the sum are those on its path
    through the additions: at most 16 in an accumulator, 3 more when the
    eight accumulators are combined, 7 more for the leftover, and one for
    every halving of the array. *)

(** Adding two sums of the same depth costs one more rounding. *)
Lemma near_add_level (k : nat) (s1 s2 a b : Q) :
  near k s1 a → near k s2 b → near (k + 1) (s1 + s2) (fadd a b).
Proof.
  intros (Hs1 & Ha & Hl1 & Hu1) (Hs2 & Hb & Hl2 & Hu2).
  pose proof ulp_half_pos as Hu.
  assert (Hule : ulp_half <= 1) by (by vm_compute).
  destruct (round_float_bounds (a + b)) as [Hf1 Hf2]; [lra|].
  pose proof (round_float_nonneg (a + b)) as Hf0.
  unfold near. fold (fadd a b) in *. set (f := fadd a b) in *.
  rewrite Nat2Z.inj_add, inject_Z_plus.
  change (inject_Z (Z.of_nat 1)) with 1.
  assert (Hn : 0 <= inject_Z (Z.of_nat k)).
  { rewrite <- (Zle_Qle 0%Z). lia. }
  set (n := inject_Z (Z.of_nat k)) in *. set (u := ulp_half) in *.
  assert (Hp : 0 <= n * u) by (apply Qmult_le_0_compat; lra).
  set (p := n * u) in *.
  assert (Hsum : (n + 1) * u == p + u) by (unfold p; ring).
  rewrite Hsum.
  assert (Hpu : 0 <= p * u) by (apply Qmult_le_0_compat; lra).
  assert (Huu : 0 <= u * u) by (apply Qmult_le_0_compat; lra).
  split; [lra|]. split; [apply Hf0; lra|]. split.
  - assert (0 <= (a - s1 * (1 - p)) * (1 - u)).
    { apply Qmult_le_0_compat; lra. }
    assert (0 <= (b - s2 * (1 - p)) * (1 - u)).
    { apply Qmult_le_0_compat; lra. }
    assert (0 <= s1 * (p * u)) by (by apply Qmult_le_0_compat).
    assert (0 <= s2 * (p * u)) by (by apply Qmult_le_0_compat).
    lra.
  - destruct (Qlt_le_dec 0 (1 - (p + u))) as [Hpos|Hneg].
    + assert (0 <= ((a + b) * (1 + u) - f) * (1 - (p + u))).
      { apply Qmult_le_0_compat; lra. }
      assert (0 <= a * (p * u + u * u)).
      { apply Qmult_le_0_compat; [done|lra]. }
      assert (0 <= b * (p * u + u * u)).
      { apply Qmult_le_0_compat; [done|lra]. }
      lra.
    + assert (0 <= f * (p + u - 1)).
      { apply Qmult_le_0_compat; [apply Hf0|]; lra. }
      lra.
Qed.

Lemma strided_length (j : nat) (l : list Q) :
  (j ≤ 7)%nat → (8 * length (strided j l) + j ≤ length l + 7)%nat.
Proof.
  revert j. induction l as [|x l IH]; intros j Hj; [cbn [strided length]; lia|].
  destruct j as [|j]; cbn [strided length].
  - pose proof (IH 7%nat ltac:(lia)). lia.
  - pose proof (IH j ltac:(lia)). lia.
Qed.

(** A block of at most 128 terms: at most 26 roundings reach a term. *)
Lemma block_sum_close (vs ss : list Q) :
  (8 ≤ length vs ≤ 128)%nat → Forall2 (near 1) ss vs →
  near 26 (Qsum ss) (block_sum vs).
Proof.
  intros Hlen Hall. unfold block_sum.
  set (m := (length vs - length vs mod 8)%nat).
  pose proof (Nat.div_mod_eq (length vs) 8) as Hdiv.
  pose proof (Nat.mod_upper_bound (length vs) 8) as Hmod.
  assert (Hm : (8 ≤ m ≤ length vs)%nat) by (unfold m; lia).
  pose proof (Forall2_take _ _ _ m Hall) as Hmain.
  pose proof (Forall2_drop _ _ _ m Hall) as Hrest.
  set (main := take m vs) in *. set (smain := take m ss) in *.
  assert (Hlmain : length main = m) by (unfold main; rewrite length_take; lia).
  assert (Hr : ∀ j, (j < 8)%nat →
            near 16 (Qsum (strided j smain)) (accumulate (strided j main))).
  { intros j Hj. assert (Hne : strided j main ≠ []).
    { apply strided_not_nil. lia. }
    eapply near_mono; [|by apply accumulate_near, strided_Forall2].
    pose proof (strided_length j main ltac:(lia)). lia. }
  pose proof (near_add_level _ _ _ _ _ (Hr 0%nat ltac:(lia))
                (Hr 1%nat ltac:(lia))) as H01.
  pose proof (near_add_level _ _ _ _ _ (Hr 2%nat ltac:(lia))
                (Hr 3%nat ltac:(lia))) as H23.
  pose proof (near_add_level _ _ _ _ _ (Hr 4%nat ltac:(lia))
                (Hr 5%nat ltac:(lia))) as H45.
  pose proof (near_add_level _ _ _ _ _ (Hr 6%nat ltac:(lia))
                (Hr 7%nat ltac:(lia))) as H67.
  pose proof (near_add_level _ _ _ _ _ H01 H23) as H03.
  pose proof (near_add_level _ _ _ _ _ H45 H67) as H47.
  pose proof (near_add_level _ _ _ _ _ H03 H47) as Hres.
  pose proof (λ a, foldl_near _ _ _ _ _ a Hres Hrest) as Hfin.
  specialize (Hfin ltac:(lia)).
  pose proof (strided_parts Qsum smain ltac:(reflexivity)
                ltac:(intros; reflexivity)) as Hparts.
  apply (near_weaken _ _ _ _ _ Hfin).
  - transitivity (Qsum (take m ss ++ drop m ss)); [|by rewrite take_drop].
    rewrite Qsum_app. fold smain. rewrite <- Hparts. ring.
  - rewrite length_drop. unfold m. lia.
Qed.

(** An array that [d] halvings cut into blocks: [d] roundings more. *)
Lemma pairwise_fuel_close (d fuel : nat) (vs ss : list Q) :
  (d ≤ fuel)%nat → (8 ≤ length vs)%nat →
  (Z.of_nat (length vs) <= 14 + 114 * 2 ^ Z.of_nat d)%Z →
  Forall2 (near 1) ss vs →
  near (26 + d) (Qsum ss) (pairwise_fuel fuel vs).
Proof.
  revert fuel vs ss.
  induction d as [|d IH]; intros fuel vs ss Hd Hlen Hup Hall.
  - change (2 ^ Z.of_nat 0)%Z with 1%Z in Hup.
    assert (pairwise_fuel fuel vs = block_sum vs) as ->.
    { destruct fuel; [simpl|rewrite pairwise_fuel_S];
        destruct (Nat.ltb_spec (length vs) 8); try lia;
        destruct (Nat.leb_spec (length vs) 128); (done || lia). }
    apply block_sum_close; [lia|done].
  - destruct fuel as [|fuel]; [lia|]. rewrite pairwise_fuel_S.
    destruct (Nat.ltb_spec (length vs) 8); [lia|].
    destruct (Nat.leb_spec (length vs) 128).
    { eapply near_mono; [|apply block_sum_close; [lia|done]]. lia. }
    rewrite Nat2Z.inj_succ, Z.pow_succ_r in Hup by lia.
    set (P := (2 ^ Z.of_nat d)%Z) in *.
    set (n2 := (length vs / 2 - (length vs / 2) mod 8)%nat).
    assert (Hn2 : (8 ≤ n2 ∧ n2 + 8 ≤ length vs)%nat) by (by apply split_point).
    pose proof (Nat.div_mod_eq (length vs) 2) as Hdiv.
    pose proof (Nat.mod_upper_bound (length vs) 2) as Hmod.
    pose proof (Nat.mod_upper_bound (length vs / 2) 8) as Hmod8.
    pose proof (λ a b, IH fuel _ _ ltac:(lia) a b
                         (Forall2_take _ _ _ n2 Hall)) as H1.
    specialize (H1 ltac:(rewrite length_take; lia)
                   ltac:(rewrite length_take; unfold n2; lia)).
    pose proof (λ a b, IH fuel _ _ ltac:(lia) a b
                         (Forall2_drop _ _ _ n2 Hall)) as H2.
    specialize (H2 ltac:(rewrite length_drop; lia)
                   ltac:(rewrite length_drop; unfold n2; lia)).
    apply (near_weaken _ _ _ _ _ (near_add_level _ _ _ _ _ H1 H2)).
    + rewrite <- Qsum_app. by rewrite take_drop.
    + lia.
Qed.

(** numpy's sum of fewer than 2^53 approximations: at most 73 roundings
    reach a term, however long the array. *)
Lemma pairwise_sum_close (vs ss : list Q) :
  Forall2 (near 1) ss vs → (Z.of_nat (length vs) < 2 ^ 53)%Z →
  near 73 (Qsum ss) (pairwise_sum vs).
Proof.
  intros Hall Hlen. unfold pairwise_sum.
  destruct (Nat.lt_ge_cases (length vs) 8) as [Hshort|Hlong].
  - rewrite pairwise_fuel_short by done.
    apply (near_weaken _ _ _ _ _
             (foldl_near vs ss 1 0 0 (le_n 1) (near_exact 1 0 (Qle_refl 0))
                Hall)); [ring|lia].
  - destruct (Nat.le_gt_cases (length vs) 128) as [Hsmall|Hbig].
    + eapply near_mono; [|apply (pairwise_fuel_close 0); [lia|done| |done]].
      * lia.
      * change (2 ^ Z.of_nat 0)%Z with 1%Z. lia.
    + apply (pairwise_fuel_close 47); [lia|done| |done].
      change (Z.of_nat 47) with 47%Z. lia.
Qed.

(** A sum that stands for 1 with at most 2^23 roundings is within the
    tolerance. *)
Lemma near_one_within (k : nat) (q : Q) :
  near k 1 q → (Z.of_nat k <= 2 ^ 23)%Z → within_tolerance q.
Proof.
  intros (_ & Hq & Hlo & Hhi) Hk. unfold within_tolerance.
  change (Qabs 1) with 1. apply Qabs_Qle_condition.
  assert (Hw : inject_Z (Z.of_nat k) * ulp_half <= 1 # 1073741824).
  { apply Qle_trans with (inject_Z (2 ^ 23) * ulp_half).
    - apply Qmult_le_compat_r; [by rewrite <- Zle_Qle|].
      apply Qlt_le_weak, ulp_half_pos.
    - by vm_compute. }
  assert (Hw0 : 0 <= inject_Z (Z.of_nat k) * ulp_half).
  { apply Qmult_le_0_compat; [rewrite <- (Zle_Qle 0%Z); lia|].
    apply Qlt_le_weak, ulp_half_pos. }
  set (w := inject_Z (Z.of_nat k) * ulp_half) in *.
  assert (0 <= q * ((1 # 1073741824) - w)) by (apply Qmult_le_0_compat; lra).
  split; [lra|].
  destruct (Qlt_le_dec (1 + (1 # 1000000000)) q) as [Hbig|]; [|lra].
  assert (0 <= (q - (1 + (1 # 1000000000))) * (1 - (1 # 1073741824))).
  { apply Qmult_le_0_compat; [lra|]. by vm_compute. }
  lra.
Qed.

Lemma roundings_small (k : nat) :
  (Z.of_nat k <= 2 ^ 23)%Z →
  0 <= inject_Z (Z.of_nat k) * ulp_half
  ∧ inject_Z (Z.of_nat k) * ulp_half <= 1 # 1073741824.
Proof.
  intros Hk. split.
  - apply Qmult_le_0_compat; [rewrite <- (Zle_Qle 0%Z); lia|].
    apply Qlt_le_weak, ulp_half_pos.
  - apply Qle_trans with (inject_Z (2 ^ 23) * ulp_half).
    + apply Qmult_le_compat_r; [by rewrite <- Zle_Qle|].
      apply Qlt_le_weak, ulp_half_pos.
    + by vm_compute.
Qed.

(** A sum that stands for at least 1 is not below the tolerance. *)
Lemma near_ge_one (k : nat) (s q : Q) :
  near k s q → (Z.of_nat k <= 2 ^ 23)%Z → 1 <= s →
  1 - (1 # 1000000000) <= q.
Proof.
  intros (Hs & Hq & Hlo & Hhi) Hk H1.
  destruct (roundings_small k Hk) as [Hw0 Hw].
  set (w := inject_Z (Z.of_nat k) * ulp_half) in *.
  assert (0 <= (s - 1) * (1 - w)) by (apply Qmult_le_0_compat; lra).
  lra.
Qed.

(** A sum that stands for 1 + 2^-23 or more is outside the tolerance. *)
Lemma near_above_one (k : nat) (s q : Q) :
  near k s q → (Z.of_nat k <= 2 ^ 23)%Z → 1 + (1 # 8388608) <= s →
  ¬ within_tolerance q.
Proof.
  intros (Hs & Hq & Hlo & Hhi) Hk H1 Htol.
  destruct (roundings_small k Hk) as [Hw0 Hw].
  set (w := inject_Z (Z.of_nat k) * ulp_half) in *.
  unfold within_tolerance in Htol. change (Qabs 1) with 1 in Htol.
  apply Qabs_Qle_condition in Htol as [_ Htol].
  assert (0 <= (s - (1 + (1 # 8388608))) * (1 - w)).
  { apply Qmult_le_0_compat; lra. }
  assert (0 <= (1 + (1 # 8388608)) * ((1 # 1073741824) - w)).
  { apply Qmult_le_0_compat; lra. }
  lra.
Qed.

End float_facts.

(** ** Fractions *)

Section fraction_facts.
Import Pandas Pipeline Spec.
Local Open Scope Q_scope.

Lemma share_add (a b total : nat) :
  share (a + b) total == share a total + share b total.
Proof.
  unfold share. rewrite Nat2Z.inj_add, inject_Z_plus.
  unfold Qdiv. ring.
Qed.

Lemma Qsum_share (counts : list nat) (total : nat) :
  Qsum (map (λ c, share c total) counts) == share (sum_list counts) total.
Proof.
  induction counts as [|c cs IH]; simpl.
  - unfold share, Qdiv. simpl. ring.
  - rewrite IH. symmetry. apply share_add.
Qed.

Lemma share_self (n : nat) : n ≠ 0%nat → share n n == 1.
Proof.
  intros Hn. unfold share. apply Qmult_inv_r.
  change 0 with (inject_Z 0). rewrite inject_Z_injective. lia.
Qed.

Lemma share_nonneg (c n : nat) : 0 <= share c n.
Proof.
  unfold share. destruct n as [|n].
  - unfold Qdiv. simpl. rewrite Qmult_0_r. apply Qle_refl.
  - apply Qle_shift_div_l.
    + change 0 with (inject_Z 0). rewrite <- Zlt_Qlt. lia.
    + rewrite Qmult_0_l. change 0 with (inject_Z 0). rewrite <- Zle_Qle. lia.
Qed.

(** The float quotient of two counts below 2^53 is the exact quotient,
    rounded once. *)
Lemma ratio_near_share (c n : nat) :
  (Z.of_nat c < 2 ^ 53)%Z → (Z.of_nat n < 2 ^ 53)%Z →
  Float.near 1 (share c n) (ratio c n).
Proof.
  intros Hc Hn. unfold ratio, Float.fdiv.
  assert (E : Float.of_int (Z.of_nat c) / Float.of_int (Z.of_nat n)
              == share c n).
  { unfold share. rewrite !of_int_exact by lia. reflexivity. }
  pose proof (share_nonneg c n) as H0. rewrite <- E in H0.
  eapply near_comp; [exact E|reflexivity|by apply near_round].
Qed.

(** Sorting permutes. *)
Lemma insert_by_count_perm (e : string * nat) (l : list (string * nat)) :
  insert_by_count e l ≡ₚ e :: l.
Proof.
  induction l as [|e' l IH]; [done|]. simpl.
  destruct (e'.2 <=? e.2)%nat; [done|]. rewrite IH. apply Permutation_swap.
Qed.

Lemma sort_by_count_perm (l : list (string * nat)) : sort_by_count l ≡ₚ l.
Proof.
  induction l as [|e l IH]; [done|]. simpl.
  by rewrite insert_by_count_perm, IH.
Qed.

Lemma table_keys_perm (values : list string) :
  table_keys values ≡ₚ uniques values.
Proof.
  unfold table_keys. rewrite sort_by_count_perm, map_map.
  simpl. by rewrite map_id.
Qed.

Lemma elem_of_table_keys (values : list string) (k : string) :
  k ∈ table_keys values ↔ k ∈ values.
Proof. by rewrite table_keys_perm, elem_of_uniques. Qed.

Lemma NoDup_table_keys (values : list string) : NoDup (table_keys values).
Proof. rewrite table_keys_perm. apply NoDup_uniques. Qed.

Lemma sum_counts_table_keys (values : list string) :
  sum_list (map (λ k, count_of k values) (table_keys values)) = length values.
Proof.
  rewrite <- (sum_counts_uniques values).
  change (map ?f ?l) with (f <$> l).
  by rewrite (table_keys_perm values).
Qed.

Lemma value_counts_entries (cells : list (option string)) :
  let values := non_null cells in
  value_counts cells
  = map (λ k, (k, count_of k values)) (table_keys values).
Proof.
  intros values. unfold value_counts, table_keys. fold values.
  assert (Hall : Forall (λ e, e.2 = count_of e.1 values)
            (sort_by_count
               (map (λ k, (k, count_of k values)) (uniques values)))).
  { rewrite sort_by_count_perm. apply Forall_forall.
    intros e He. change (map ?f ?l) with (f <$> l) in He.
    by apply list_elem_of_fmap in He as (k & -> & _). }
  induction Hall as [|[k c] l Hk _ IH]; [done|].
  simpl in *. by rewrite <- Hk, <- IH.
Qed.

(** [value_counts(normalize=True)] in closed form. *)
Lemma value_counts_normalize_spec (cells : list (option string)) :
  let values := non_null cells in
  value_counts_normalize cells
  = map (λ k, (k, ratio (count_of k values) (length values)))
        (table_keys values).
Proof.
  intros values. unfold value_counts_normalize.
  rewrite value_counts_entries. fold values.
  rewrite !map_map. cbn [fst snd].
  by rewrite sum_counts_table_keys.
Qed.

(** Looking a key up in the abundance table. *)
Lemma table_lookup (h : string → Q) (keys : list string) (s : string) :
  match find_key (Some s) (map Some keys) with
  | Some n =>
      match map (λ k, Some (h k)) keys !! n with
      | Some v => v
      | None => None
      end
  | None => None
  end
  = if bool_decide (s ∈ keys) then Some (h s) else None.
Proof.
  induction keys as [|a keys IH]; [done|].
  cbn [map find_key].
  destruct (decide (Some a = Some s)) as [[= ->]|Hne].
  - cbn. by rewrite bool_decide_eq_true_2 by left.
  - assert (bool_decide (s ∈ a :: keys) = bool_decide (s ∈ keys)) as ->.
    { apply bool_decide_ext. rewrite elem_of_cons.
      split; [|by right]. by intros [->|]. }
    rewrite <- IH. by destruct (find_key (Some s) (map Some keys)).
Qed.

Lemma table_lookup_nan (keys : list string) :
  find_key None (map Some keys) = None.
Proof.
  induction keys as [|a keys IH]; simpl; [done|]. by rewrite IH.
Qed.

End fraction_facts.

(** ** The abundance column *)

Section abundance_facts.
Import Text Pandas Pipeline Spec.

Lemma species_norm_inv (df : DataFrame) (norm : list (option string)) :
  species_norm df = Some norm →
  ∃ sp, get_col "species" df = Some (TextCol sp)
        ∧ norm = map (option_map normalise) sp.
Proof.
  unfold species_norm. destruct (get_col "species" df) as [[sp|?|?]|]; [|done..].
  simpl. intros [= <-]. by exists sp.
Qed.

Lemma merge_abundance_table (left : DataFrame) (norm : list (option string))
    (vc : list (string * Q)) :
  get_col "species_norm" left = Some (TextCol norm) →
  merge_left left (reset_index "species_norm" "abundance" vc) "species_norm"
  = if bool_decide (get_col "abundance" left = None) then
      Some (left ++
            [("abundance",
              NumCol (take_cells
                        (map (λ k, find_key k (map (λ e, Some e.1) vc)) norm)
                        (map (λ e, Some e.2) vc)))])
    else None.
Proof.
  intros Hleft. unfold merge_left, reset_index. rewrite Hleft.
  rewrite get_col_cons, decide_True by done.
  rewrite filter_cons, decide_False by (simpl; tauto).
  rewrite filter_cons, decide_True by done.
  rewrite filter_nil. cbn [forallb fst snd map take_rows].
  by destruct (bool_decide (get_col "abundance" left = None)).
Qed.

Lemma merged_cells (norm : list (option string)) (ks : list (option string)) :
  let vc := value_counts_normalize norm in
  take_cells (map (λ k, find_key k (map (λ e, Some e.1) vc)) ks)
             (map (λ e, Some e.2) vc)
  = map (fraction_of (non_null norm)) ks.
Proof.
  intros vc. unfold vc. rewrite value_counts_normalize_spec.
  set (values := non_null norm).
  set (h := λ k, ratio (count_of k values) (length values)).
  rewrite !map_map. cbn [fst snd].
  change (map (λ x, Some x) (table_keys values))
    with (map Some (table_keys values)).
  unfold take_cells. rewrite map_map. apply map_ext. intros [s|].
  - rewrite (table_lookup h). unfold fraction_of, fraction_by.
    by rewrite (bool_decide_ext _ _ (elem_of_table_keys values s)).
  - by rewrite table_lookup_nan.
Qed.

(** What lines 89-102 make of a table whose species column is text. *)
Lemma add_abundance_eq (df : DataFrame) (sp : list (option string)) :
  get_col "species" df = Some (TextCol sp) →
  let norm := map (option_map normalise) sp in
  add_abundance df
  = if bool_decide (get_col "abundance" df = None) then
      Some (filter (λ nc, nc.1 ≠ "species_norm") df
            ++ [("abundance",
                 NumCol (map (fraction_of (non_null norm)) norm))])
    else None.
Proof.
  intros Hsp norm. unfold add_abundance, species_norm. rewrite Hsp.
  cbn [str_replace]. fold normalise. fold norm.
  unfold abundance_table.
  rewrite (merge_abundance_table _ norm) by apply get_col_set_col_eq.
  rewrite get_col_set_col_ne by done.
  case_bool_decide as Hab; [|done].
  unfold drop_col. rewrite get_col_app, get_col_set_col_eq.
  rewrite filter_app, drop_set_col, merged_cells.
  by rewrite filter_cons, decide_True by done.
Qed.

(** It needs a text column "species" and no column "abundance" yet, and
    then it succeeds. *)
Lemma add_abundance_inv (df out : DataFrame) :
  add_abundance df = Some out →
  ∃ sp, get_col "species" df = Some (TextCol sp)
        ∧ get_col "abundance" df = None.
Proof.
  intros Hadd.
  destruct (species_norm df) as [norm|] eqn:Hn;
    [|unfold add_abundance in Hadd; by rewrite Hn in Hadd].
  apply species_norm_inv in Hn as (sp & Hsp & _). exists sp. split; [done|].
  rewrite (add_abundance_eq _ _ Hsp) in Hadd.
  by case_bool_decide.
Qed.

Lemma add_abundance_columns (df : DataFrame) (sp : list (option string)) :
  get_col "species" df = Some (TextCol sp) →
  get_col "abundance" df = None →
  let norm := map (option_map normalise) sp in
  ∃ out,
    add_abundance df = Some out
    ∧ get_col "abundance" out
      = Some (NumCol (map (fraction_of (non_null norm)) norm))
    ∧ get_col "species_norm" out = None
    ∧ ∀ name, name ≠ "species_norm" → name ≠ "abundance" →
              get_col name out = get_col name df.
Proof.
  intros Hsp Hab norm. eexists.
  split; [rewrite (add_abundance_eq _ _ Hsp); by rewrite bool_decide_eq_true_2|].
  split; [|split].
  - rewrite get_col_app, get_col_drop_ne, Hab by done.
    by rewrite get_col_cons, decide_True.
  - rewrite get_col_app, get_col_drop_eq.
    by rewrite get_col_cons, decide_False.
  - intros name H1 H2. rewrite get_col_app, get_col_drop_ne by done.
    destruct (get_col name df); [done|].
    by rewrite get_col_cons, decide_False.
Qed.

Lemma count_of_normalised (k : string) (sp : list (option string)) :
  count_of k (non_null (map (option_map normalise) sp)) = rows_with k sp.
Proof.
  induction sp as [|[s|] sp IH]; [done| |].
  - change (count_of k (normalise s :: non_null (map (option_map normalise) sp))
            = rows_with k (Some s :: sp)).
    rewrite count_of_cons. unfold rows_with in *. rewrite filter_cons.
    destruct (decide (normalise s = k)) as [E|E].
    + rewrite decide_True by (simpl; by rewrite E). simpl. by rewrite IH.
    + rewrite decide_False by (simpl; by intros [= ?]). done.
  - change (count_of k (non_null (map (option_map normalise) sp))
            = rows_with k (None :: sp)).
    unfold rows_with in *. rewrite filter_cons.
    by rewrite decide_False.
Qed.

Lemma length_non_null_map {A B} (f : A → B) (l : list (option A)) :
  length (non_null (map (option_map f) l)) = length (non_null l).
Proof.
  unfold non_null. induction l as [|[x|] l IH]; simpl; [done|by f_equal|done].
Qed.

Lemma length_non_null {A} (l : list (option A)) :
  (length (non_null l) ≤ length l)%nat.
Proof.
  unfold non_null. induction l as [|[x|] l IH]; csimpl; lia.
Qed.

Lemma elem_of_non_null {A} (x : A) (l : list (option A)) :
  x ∈ non_null l ↔ Some x ∈ l.
Proof.
  unfold non_null. rewrite list_elem_of_omap. split.
  - by intros ([y|] & Hy & [= ->]).
  - intros H. by exists (Some x).
Qed.

End abundance_facts.

(** ** Abundance: what each row receives *)

Section abundance_column.
Import Text Awk Pandas Pipeline Spec Examples.
Local Open Scope Q_scope.

Lemma fraction_of_normalised (sp : list (option string)) (s : string) :
  Some s ∈ sp →
  fraction_of (non_null (map (option_map normalise) sp)) (Some (normalise s))
  = Some (ratio (rows_with (normalise s) sp) (rows_with_species sp)).
Proof.
  intros Hs. unfold fraction_of, fraction_by. rewrite bool_decide_eq_true_2.
  - by rewrite count_of_normalised, length_non_null_map.
  - apply elem_of_non_null.
    change (Some (normalise s)) with (option_map normalise (Some s)).
    by apply list_elem_of_fmap_2.
Qed.

Lemma abundance_lookup (sp : list (option string)) (i : nat) :
  map (fraction_of (non_null (map (option_map normalise) sp)))
      (map (option_map normalise) sp) !! i
  = (λ c, fraction_of (non_null (map (option_map normalise) sp))
            (option_map normalise c)) <$> sp !! i.
Proof.
  rewrite map_map.
  change (map ?f sp) with (f <$> sp). by rewrite list_lookup_fmap.
Qed.

(** C2 (amended): on every table with a text column "species" (and no
    column "abundance" yet) the abundance step succeeds, and the abundance
    attached to a row is the number of rows whose species has the same
    normalised name, divided by the number of rows that have a species at
    all; a row without species is in neither count and receives no
    abundance. *)
Theorem abundance_is_share_of_rows_with_species
    (df : DataFrame) (sp : list (option string)) :
  get_col "species" df = Some (TextCol sp) →
  get_col "abundance" df = None →
  ∃ out ab,
    add_abundance df = Some out
    ∧ get_col "abundance" out = Some (NumCol ab)
    ∧ length ab = length sp
    ∧ ∀ i,
        (∀ s, sp !! i = Some (Some s) →
              ab !! i = Some (Some (ratio (rows_with (normalise s) sp)
                                          (rows_with_species sp))))
        ∧ (sp !! i = Some None → ab !! i = Some None).
Proof.
  intros Hsp Hnew.
  destruct (add_abundance_columns _ _ Hsp Hnew) as (out & Hadd & Hab & _).
  exists out. eexists. split; [done|]. split; [exact Hab|].
  split; [by rewrite !length_map|].
  intros i. rewrite abundance_lookup. split.
  - intros s Hi. rewrite Hi. simpl. f_equal.
    apply fraction_of_normalised. by eapply list_elem_of_lookup_2.
  - by intros ->.
Qed.

Lemma abundance_is_share_witness :
  ∃ out ab,
    add_abundance table_mixed = Some out
    ∧ get_col "abundance" out = Some (NumCol ab)
    ∧ length ab = length species_mixed
    ∧ ∀ i,
        (∀ s, species_mixed !! i = Some (Some s) →
              ab !! i
              = Some (Some (ratio (rows_with (normalise s) species_mixed)
                                  (rows_with_species species_mixed))))
        ∧ (species_mixed !! i = Some None → ab !! i = Some None).
Proof.
  apply (abundance_is_share_of_rows_with_species table_mixed species_mixed);
    reflexivity.
Defined.

(** C2, as stated, fails on [taxonomy_wide] with [hits_one_unknown]: the
    second row has no species, the first row receives 1/1 and not 1/2. *)
Lemma null_rows_are_not_in_the_denominator :
  ∃ res, process_sample taxonomy_wide hits_one_unknown = Some res
         ∧ get_col "species" (annotated res)
           = Some (TextCol [Some "Homo sapiens"; None])
         ∧ get_col "abundance" (annotated res)
           = Some (NumCol [Some (ratio 1 1); None])
         ∧ rows_with "Homo_sapiens" [Some "Homo sapiens"; None] = 1%nat
         ∧ length [Some "Homo sapiens"; @None string] = 2%nat
         ∧ ¬ ratio 1 1 == ratio 1 2.
Proof.
  eexists. split; [by vm_compute|]. by vm_compute.
Qed.

(** C9: within one sample the abundance of a row is a function of its
    normalised species name alone: two rows whose species normalise to the
    same name receive the same abundance, whatever their exact spelling. *)
Theorem abundance_depends_on_normalised_name_only
    (df : DataFrame) (sp : list (option string)) :
  get_col "species" df = Some (TextCol sp) →
  get_col "abundance" df = None →
  ∃ out ab,
    add_abundance df = Some out
    ∧ get_col "abundance" out = Some (NumCol ab)
    ∧ (∃ f : option string → option Q,
         ∀ i c, sp !! i = Some c → ab !! i = Some (f (option_map normalise c)))
    ∧ ∀ i j ci cj,
        sp !! i = Some ci → sp !! j = Some cj →
        option_map normalise ci = option_map normalise cj →
        ab !! i = ab !! j.
Proof.
  intros Hsp Hnew.
  destruct (add_abundance_columns _ _ Hsp Hnew) as (out & Hadd & Hab & _).
  exists out. eexists. split; [done|]. split; [exact Hab|]. split.
  - eexists. intros i c Hi. rewrite abundance_lookup, Hi. done.
  - intros i j ci cj Hi Hj E. rewrite !abundance_lookup, Hi, Hj. simpl.
    by rewrite E.
Qed.

Lemma abundance_depends_on_normalised_name_witness :
  ∃ out ab,
    add_abundance table_mixed = Some out
    ∧ get_col "abundance" out = Some (NumCol ab)
    ∧ ab !! 0%nat = ab !! 2%nat.
Proof.
  destruct (abundance_depends_on_normalised_name_only
              table_mixed species_mixed eq_refl eq_refl)
    as (out & ab & Hadd & Hab & _ & Hsame).
  exists out, ab. split; [exact Hadd|]. split; [exact Hab|].
  exact (Hsame 0%nat 2%nat (Some "Homo sapiens") (Some "Homo_sapiens")
               eq_refl eq_refl eq_refl).
Defined.

End abundance_column.

(** ** Abundance: the fractions of a sample *)

Section abundance_fractions.
Import Text Awk Pandas Pipeline Spec Examples.
Local Open Scope Q_scope.

Lemma fractions_sum_spec (norm : list (option string)) :
  let values := non_null norm in
  fractions_sum norm
  = Some (Float.pairwise_sum
            (map (λ k, ratio (count_of k values) (length values))
                 (table_keys values))).
Proof.
  intros values. unfold fractions_sum, abundance_sum, abundance_table.
  unfold reset_index.
  rewrite get_col_cons, decide_False by done.
  rewrite get_col_cons, decide_True by done.
  unfold col_sum. f_equal. f_equal.
  rewrite value_counts_normalize_spec. fold values.
  by rewrite !map_map.
Qed.

Lemma table_keys_length (values : list string) :
  (length (table_keys values) ≤ length values)%nat.
Proof.
  rewrite (Permutation_length (table_keys_perm values)).
  apply sublist_length, select_sublist.
Qed.

(** The floats of a list of counts stand for the exact shares. *)
Lemma ratios_near_shares (counts : list nat) (n : nat) :
  (Z.of_nat n < 2 ^ 53)%Z →
  Forall (λ c, (c ≤ n)%nat) counts →
  Forall2 (Float.near 1) (map (λ c, share c n) counts)
                         (map (λ c, ratio c n) counts).
Proof.
  intros Hn Hall. induction Hall as [|c cs Hc _ IH]; simpl; constructor.
  - apply ratio_near_share; lia.
  - exact IH.
Qed.

(** As soon as one row has a species, the fractions stand for shares that
    add up to one, and their float sum is 1 up to one rounding per entry
    and one more. *)
Lemma fractions_sum_near (norm : list (option string)) :
  let values := non_null norm in
  values ≠ [] →
  (Z.of_nat (length values) < 2 ^ 53)%Z →
  ∃ q, fractions_sum norm = Some q
       ∧ Float.near (length (table_keys values) + 1) 1 q
       ∧ Float.near 73 1 q.
Proof.
  intros values Hne Hlen. eexists. split; [apply fractions_sum_spec|].
  fold values.
  rewrite <- (map_map (λ k, count_of k values)
                      (λ c, ratio c (length values))).
  assert (Hall : Forall (λ c, (c ≤ length values)%nat)
                        (map (λ k, count_of k values) (table_keys values))).
  { apply Forall_forall. intros c Hc.
    change (map ?f ?l) with (f <$> l) in Hc.
    apply list_elem_of_fmap in Hc as (k & -> & _). apply length_filter. }
  assert (Hone : Qsum (map (λ c, share c (length values))
                           (map (λ k, count_of k values) (table_keys values)))
                 == 1).
  { rewrite Qsum_share, sum_counts_table_keys. apply share_self.
    by destruct values. }
  pose proof (table_keys_length values) as Hkeys.
  split.
  - apply (near_weaken _ _ _ _ _
             (pairwise_sum_near _ _ (ratios_near_shares _ _ Hlen Hall)));
      [done|by rewrite !length_map].
  - apply (near_weaken _ _ _ _ _
             (pairwise_sum_close _ _ (ratios_near_shares _ _ Hlen Hall)
                ltac:(rewrite !length_map; lia))); [done|lia].
Qed.

Lemma abundance_table_keys (norm : list (option string)) :
  get_col "species_norm" (abundance_table norm)
  = Some (TextCol (map Some (table_keys (non_null norm)))).
Proof.
  unfold abundance_table, reset_index.
  rewrite get_col_cons, decide_True by done.
  rewrite value_counts_normalize_spec. by rewrite map_map.
Qed.

Lemma non_null_all_Some {A} (l : list (option A)) :
  Forall is_Some l → l ≠ [] → non_null l ≠ [].
Proof.
  intros Hall Hne. destruct l as [|[x|] l]; [done|done|].
  inversion Hall as [|? ? [y Hy] _]. discriminate.
Qed.

(** C1 (amended): for every sample with at least one classified row (and
    fewer than 2^53 of them, so that every count is a float64), all of
    whose rows carry a species, the abundance table has one entry per
    distinct normalised species name, and the float64 sum of its fractions
    is 1.0 within a relative error of 1e-9: it differs from 1 by the error
    of at most one rounding per entry and one more, and of at most 73
    roundings however many entries there are. *)
Theorem fractions_sum_to_one (df : DataFrame) (sp : list (option string)) :
  get_col "species" df = Some (TextCol sp) →
  Forall is_Some sp →
  sp ≠ [] →
  (Z.of_nat (length sp) < 2 ^ 53)%Z →
  ∃ norm keys q,
    species_norm df = Some norm
    ∧ get_col "species_norm" (abundance_table norm)
      = Some (TextCol (map Some keys))
    ∧ NoDup keys
    ∧ (∀ k, k ∈ keys ↔ ∃ s, Some s ∈ sp ∧ normalise s = k)
    ∧ fractions_sum norm = Some q
    ∧ Float.near (length keys + 1) 1 q
    ∧ within_tolerance q.
Proof.
  intros Hsp Hall Hne Hrows.
  set (norm := map (option_map normalise) sp).
  assert (Hnn : non_null norm ≠ []).
  { apply non_null_all_Some.
    - unfold norm. change (map ?f sp) with (f <$> sp).
      apply Forall_fmap. eapply Forall_impl; [exact Hall|].
      intros ? [s ->]. by eexists.
    - by destruct sp. }
  assert (Hlen : (length (non_null norm) ≤ length sp)%nat).
  { unfold norm. rewrite length_non_null_map. apply length_non_null. }
  destruct (fractions_sum_near norm Hnn) as (q & Hq & Hnear & Hclose); [lia|].
  exists norm, (table_keys (non_null norm)), q.
  split; [unfold species_norm; by rewrite Hsp|].
  split; [apply abundance_table_keys|].
  split; [apply NoDup_table_keys|].
  split; [|split; [done|split; [done|]]].
  2: { apply (near_one_within _ _ Hclose). lia. }
  intros k. rewrite elem_of_table_keys, elem_of_non_null. unfold norm.
  change (map ?f sp) with (f <$> sp). rewrite list_elem_of_fmap. split.
  - intros ([s|] & Hk & Hin); [|done]. injection Hk as ->. by exists s.
  - intros (s & Hin & <-). by exists (Some s).
Qed.

Lemma fractions_sum_to_one_witness :
  ∃ norm keys q,
    species_norm table_plain = Some norm
    ∧ get_col "species_norm" (abundance_table norm)
      = Some (TextCol (map Some keys))
    ∧ NoDup keys
    ∧ (∀ k, k ∈ keys ↔
            ∃ s, Some s ∈ [Some "Homo sapiens"; Some "Mus musculus";
                           Some "Homo sapiens"; Some "Homo sapiens"]
                 ∧ normalise s = k)
    ∧ fractions_sum norm = Some q
    ∧ Float.near (length keys + 1) 1 q
    ∧ within_tolerance q.
Proof.
  apply (fractions_sum_to_one table_plain);
    [reflexivity | repeat constructor; eexists; reflexivity | discriminate
    | reflexivity].
Defined.

(** The sum printed on line 109 is taken over the rows of the annotated
    table, not over the entries of the abundance table: on [table_plain],
    three rows of one species and one of another, it is 3 * 3/4 + 1/4. *)
Lemma printed_sum_counts_rows :
  ∃ out q, add_abundance table_plain = Some out
           ∧ abundance_sum out = Some q
           ∧ q == 5 # 2.
Proof. do 2 eexists. split; [by vm_compute|]. by vm_compute. Qed.

(** The sum is within the tolerance without being 1: the fractions of
    six species of one row each add up to 1 - 2^-53, the float64 just
    below 1.0, which Python prints as 0.9999999999999999. *)
Lemma six_sixths_sum_below_one :
  fractions_sum [Some "a"; Some "b"; Some "c"; Some "d"; Some "e"; Some "f"]
  = Some (9007199254740991 # 9007199254740992)
  ∧ within_tolerance (9007199254740991 # 9007199254740992)
  ∧ ¬ (9007199254740991 # 9007199254740992) == 1.
Proof.
  split; [by vm_compute|]. split; [|by vm_compute].
  unfold within_tolerance. by vm_compute.
Qed.

(** C1, as stated, fails on a sample without hits: every row (there is
    none) carries a species, the abundance table is empty and its
    fractions add up to 0. *)
Lemma empty_sample_fractions_sum_to_zero :
  read_csv (classified_full taxonomy_small []) = Some table_empty
  ∧ get_col "species" table_empty = Some (TextCol [])
  ∧ Forall is_Some (@nil (option string))
  ∧ species_norm table_empty = Some []
  ∧ fractions_sum [] = Some 0
  ∧ ¬ within_tolerance 0.
Proof.
  split; [by vm_compute|]. split; [done|]. split; [constructor|].
  split; [done|]. split; [by vm_compute|].
  unfold within_tolerance. by vm_compute.
Qed.

End abundance_fractions.

(** ** Deduplication *)

Section deduplication.
Import Text Awk Pandas Pipeline Spec Examples.
Local Open Scope Q_scope.

Lemma df_clean_spec (df : DataFrame) (sp : list (option string)) :
  get_col "species" df = Some (TextCol sp) →
  df_clean df
  = Some (map (λ nc, (nc.1, col_select (map negb (duplicated sp)) nc.2)) df).
Proof. unfold df_clean, reload, drop_duplicates. by intros ->. Qed.

(** A row is kept exactly when no earlier row has its key. *)
Lemma keep_lookup `{EqDecision K} (keys : list K) (i : nat) (k : K) :
  keys !! i = Some k →
  ∃ b, map negb (duplicated keys) !! i = Some b
       ∧ (b = true ↔ ∀ j, (j < i)%nat → keys !! j ≠ Some k).
Proof.
  intros Hk. exists (negb (bool_decide (k ∈ take i keys))). split.
  - change (map negb ?l) with (negb <$> l). rewrite list_lookup_fmap.
    unfold duplicated. rewrite (duplicated_from_lookup _ _ _ _ Hk). simpl.
    do 2 f_equal. apply bool_decide_ext. rewrite elem_of_nil. tauto.
  - rewrite negb_true_iff, bool_decide_eq_false, elem_of_take. split.
    + intros Hno j Hj Hkj. apply Hno. eauto.
    + intros Hno (j & Hkj & Hj). by apply (Hno j).
Qed.

(** C5: [drop_duplicates] on the species column keeps row [i] exactly when
    no earlier row has the same exact species string (two missing species
    count as the same); every column is cut by the same mask, so rows stay
    whole and in their original order; the species that remain are those of
    the input, each exactly once. *)
Theorem drop_duplicates_keeps_first_row_per_species
    (df : DataFrame) (sp : list (option string)) :
  get_col "species" df = Some (TextCol sp) →
  let keep := map negb (duplicated sp) in
  ∃ cl, df_clean df = Some cl
        ∧ (∀ name c, get_col name df = Some c →
                     get_col name cl = Some (col_select keep c))
        ∧ (∀ i c, sp !! i = Some c →
             ∃ b, keep !! i = Some b
                  ∧ (b = true ↔ ∀ j, (j < i)%nat → sp !! j ≠ Some c))
        ∧ get_col "species" cl = Some (TextCol (select keep sp))
        ∧ select keep sp `sublist_of` sp
        ∧ NoDup (select keep sp)
        ∧ ∀ c, c ∈ select keep sp ↔ c ∈ sp.
Proof.
  intros Hsp keep. eexists. split; [by apply df_clean_spec|].
  split; [|split; [|split; [|split; [|split]]]].
  - intros name c Hc. by rewrite get_col_map, Hc.
  - intros i c Hi. by apply keep_lookup.
  - by rewrite get_col_map, Hsp.
  - apply select_sublist.
  - apply (NoDup_uniques sp).
  - apply (elem_of_uniques sp).
Qed.

Lemma drop_duplicates_keeps_first_row_witness :
  ∃ cl, df_clean table_plain = Some cl
        ∧ get_col "species" cl
          = Some (TextCol [Some "Homo sapiens"; Some "Mus musculus"])
        ∧ get_col "centroid" cl = Some (TextCol [Some "r1"; Some "r2"]).
Proof.
  destruct (drop_duplicates_keeps_first_row_per_species table_plain
              [Some "Homo sapiens"; Some "Mus musculus"; Some "Homo sapiens";
               Some "Homo sapiens"] eq_refl)
    as (cl & Hcl & Hcols & _ & Hsp & _).
  exists cl. split; [exact Hcl|]. split; [exact Hsp|].
  exact (Hcols "centroid" _ eq_refl).
Defined.

(** C8: adding the abundance leaves the species column, and every other
    column of the input, as it was; the normalised names exist only as the
    keys of the abundance table (the helper column is dropped again), so
    "Homo sapiens" is grouped under "Homo_sapiens" and still stored as
    "Homo sapiens"; and every species of the cleaned table is a species
    string of the input, in the input's order. *)
Theorem species_is_stored_verbatim
    (df : DataFrame) (sp : list (option string)) :
  get_col "species" df = Some (TextCol sp) →
  get_col "abundance" df = None →
  ∃ out cl sp',
    add_abundance df = Some out
    ∧ get_col "species" out = Some (TextCol sp)
    ∧ get_col "species_norm" out = None
    ∧ (∀ name, name ≠ "species_norm" → name ≠ "abundance" →
               get_col name out = get_col name df)
    ∧ (∃ norm, species_norm df = Some norm
               ∧ norm = map (option_map normalise) sp
               ∧ get_col "species_norm" (abundance_table norm)
                 = Some (TextCol (map Some (table_keys (non_null norm)))))
    ∧ normalise "Homo sapiens" = "Homo_sapiens"
    ∧ df_clean out = Some cl
    ∧ get_col "species" cl = Some (TextCol sp')
    ∧ sp' `sublist_of` sp.
Proof.
  intros Hsp Hnew.
  destruct (add_abundance_columns _ _ Hsp Hnew)
    as (out & Hadd & _ & Hnorm & Hother).
  assert (Hsp' : get_col "species" out = Some (TextCol sp)).
  { by rewrite Hother. }
  exists out. eexists. exists (select (map negb (duplicated sp)) sp).
  split; [done|]. split; [done|]. split; [done|]. split; [done|].
  split; [|split; [done|split; [by apply df_clean_spec|split]]].
  - eexists. split; [unfold species_norm; by rewrite Hsp|].
    split; [done|]. apply abundance_table_keys.
  - by rewrite get_col_map, Hsp'.
  - apply select_sublist.
Qed.

Lemma species_is_stored_verbatim_witness :
  ∃ out, add_abundance table_mixed = Some out
         ∧ get_col "species" out = Some (TextCol species_mixed).
Proof.
  destruct (species_is_stored_verbatim table_mixed species_mixed
              eq_refl eq_refl)
    as (out & cl & sp' & Hadd & Hsp & _).
  exists out. split; [exact Hadd|exact Hsp].
Defined.

End deduplication.

(** ** Distinct values under missing cells and under renaming *)

Section uniques_transport.
Import Pandas Spec.

Lemma non_null_uniques_from {A} `{EqDecision A} (seen l : list (option A)) :
  non_null (uniques_from seen l)
  = uniques_from (non_null seen) (non_null l).
Proof.
  revert seen. induction l as [|[x|] l IH]; intros seen; [done|..].
  - rewrite uniques_from_cons.
    change (non_null (Some x :: l)) with (x :: non_null l).
    rewrite uniques_from_cons.
    rewrite (bool_decide_ext _ _ (elem_of_non_null x seen)).
    change (x :: non_null seen) with (non_null (Some x :: seen)).
    rewrite <- IH. by destruct (bool_decide (Some x ∈ seen)).
  - rewrite uniques_from_cons.
    change (non_null (None :: l)) with (non_null l).
    change (non_null seen) with (non_null (None :: seen)).
    rewrite <- IH. by destruct (bool_decide (None ∈ seen)).
Qed.

Lemma non_null_uniques {A} `{EqDecision A} (l : list (option A)) :
  non_null (uniques l) = uniques (non_null l).
Proof. apply (non_null_uniques_from []). Qed.

Lemma uniques_from_map_inj {A B} `{EqDecision A} `{EqDecision B}
    (f : A → B) (seen l : list A) :
  (∀ x y, x ∈ seen ++ l → y ∈ seen ++ l → f x = f y → x = y) →
  uniques_from (map f seen) (map f l) = map f (uniques_from seen l).
Proof.
  revert seen. induction l as [|a l IH]; intros seen Hinj; [done|].
  cbn [map]. rewrite !uniques_from_cons.
  assert (bool_decide (f a ∈ map f seen) = bool_decide (a ∈ seen)) as ->.
  { apply bool_decide_ext. change (map f seen) with (f <$> seen).
    rewrite list_elem_of_fmap. split.
    - intros (y & Hfy & Hy).
      rewrite (Hinj a y); [done| |by apply elem_of_app; left|done].
      apply elem_of_app. right. left.
    - intros Ha. by exists a. }
  change (f a :: map f seen) with (map f (a :: seen)).
  rewrite IH.
  - by destruct (bool_decide (a ∈ seen)).
  - intros x y Hx Hy. apply Hinj.
    + revert Hx. rewrite !elem_of_app, !elem_of_cons. tauto.
    + revert Hy. rewrite !elem_of_app, !elem_of_cons. tauto.
Qed.

Lemma uniques_map_inj {A B} `{EqDecision A} `{EqDecision B}
    (f : A → B) (l : list A) :
  (∀ x y, x ∈ l → y ∈ l → f x = f y → x = y) →
  uniques (map f l) = map f (uniques l).
Proof. intros Hinj. by apply (uniques_from_map_inj f [] l). Qed.

Lemma non_null_map {A B} (f : A → B) (l : list (option A)) :
  non_null (map (option_map f) l) = map f (non_null l).
Proof.
  unfold non_null. induction l as [|[x|] l IH]; simpl; [done|by f_equal|done].
Qed.

Lemma non_null_map_known {A B} (g : option A → option B) (h : A → B)
    (l : list (option A)) :
  g None = None →
  (∀ x, Some x ∈ l → g (Some x) = Some (h x)) →
  non_null (map g l) = map h (non_null l).
Proof.
  intros Hnone Hsome. unfold non_null.
  induction l as [|[x|] l IH]; [done|..].
  - cbn [map]. change (omap id (g (Some x) :: map g l))
      with (match id (g (Some x)) with
            | Some y => y :: omap id (map g l)
            | None => omap id (map g l)
            end).
    rewrite Hsome by left. simpl. f_equal. apply IH.
    intros y Hy. apply Hsome. by right.
  - cbn [map]. change (omap id (g None :: map g l))
      with (match id (g None) with
            | Some y => y :: omap id (map g l)
            | None => omap id (map g l)
            end).
    rewrite Hnone. simpl. apply IH.
    intros y Hy. apply Hsome. by right.
Qed.

Lemma NoDup_count_le_1 {A} (x : A) `{!∀ y, Decision (y = x)} (l : list A) :
  NoDup l → (length (filter (λ y, y = x) l) ≤ 1)%nat.
Proof.
  induction 1 as [|y l Hy Hnd IH]; [simpl; lia|].
  rewrite filter_cons. destruct (decide (y = x)) as [->|]; [|done].
  simpl. assert (filter (λ y, y = x) l = []) as ->; [|simpl; lia].
  destruct (filter (λ y, y = x) l) as [|z zs] eqn:E; [done|].
  assert (Hz : z ∈ filter (λ y, y = x) l) by (rewrite E; left).
  apply list_elem_of_filter in Hz as [-> Hz]. done.
Qed.

End uniques_transport.

(** ** The sum printed for the cleaned table *)

Section cleaned_sum.
Import Text Awk Pandas Pipeline Spec Examples.
Local Open Scope Q_scope.

Lemma cleaned_cells_by (h : nat → nat → Q) (sp : list (option string)) :
  let norm := map (option_map normalise) sp in
  let values := non_null norm in
  non_null (select (map negb (duplicated sp))
                   (map (fraction_by h values) norm))
  = map (λ k, h (count_of k values) (length values))
        (map normalise (uniques (non_null sp))).
Proof.
  intros norm values. unfold norm at 1. rewrite map_map, select_map.
  fold (uniques sp). rewrite map_map.
  rewrite <- non_null_uniques.
  apply (non_null_map_known
           (λ c, fraction_by h values (option_map normalise c))
           (λ s, h (count_of (normalise s) values) (length values))).
  - done.
  - intros s Hs. apply (proj1 (elem_of_uniques _ _)) in Hs. simpl.
    case_bool_decide as Hin; [done|]. exfalso. apply Hin.
    apply elem_of_non_null.
    change (Some (normalise s)) with (option_map normalise (Some s)).
    by apply list_elem_of_fmap_2.
Qed.

Lemma select_length {A} (mask : list bool) (l : list A) :
  (length (select mask l) ≤ length l)%nat.
Proof. apply sublist_length, select_sublist. Qed.

Lemma Qsum_default (cells : list (option Q)) :
  Qsum (map (default 0) cells) == Qsum (non_null cells).
Proof.
  unfold non_null. induction cells as [|[x|] cells IH]; csimpl.
  - reflexivity.
  - by rewrite IH.
  - rewrite IH. ring.
Qed.

(** Cell by cell, the abundance column stands for the exact shares. *)
Lemma fractions_near_shares (values : list string)
    (keys : list (option string)) :
  (Z.of_nat (length values) < 2 ^ 53)%Z →
  Forall2 (Float.near 1)
          (map (default 0) (map (share_of values) keys))
          (map (default 0) (map (fraction_of values) keys)).
Proof.
  intros Hlen. induction keys as [|k keys IH]; simpl; constructor; [|done].
  unfold share_of, fraction_of, fraction_by.
  destruct k as [s|]; [|by apply near_exact].
  case_bool_decide; [|by apply near_exact]. simpl.
  pose proof (length_filter (λ x, x = s) values) as Hc.
  apply ratio_near_share; [|done]. unfold count_of. lia.
Qed.

(** The sum of a column of abundances, against the exact shares. *)
Lemma cells_sum_near (values : list string) (keys : list (option string)) :
  (Z.of_nat (length values) < 2 ^ 53)%Z →
  Float.near (length keys + 1)
    (Qsum (non_null (map (share_of values) keys)))
    (Float.pairwise_sum (map (default 0) (map (fraction_of values) keys))).
Proof.
  intros Hlen.
  apply (near_weaken _ _ _ _ _
           (pairwise_sum_near _ _ (fractions_near_shares _ keys Hlen))).
  - apply Qsum_default.
  - by rewrite !length_map.
Qed.

Lemma col_sum_near (mask : list bool) (values : list string)
    (keys : list (option string)) :
  (Z.of_nat (length values) < 2 ^ 53)%Z →
  let cells := select mask (map (fraction_of values) keys) in
  Float.near (length cells + 1)
    (Qsum (non_null (select mask (map (share_of values) keys))))
    (Float.pairwise_sum (map (default 0) cells)).
Proof.
  intros Hlen cells. unfold cells. rewrite !select_map, length_map.
  by apply cells_sum_near.
Qed.

Lemma col_sum_close (mask : list bool) (values : list string)
    (keys : list (option string)) :
  (Z.of_nat (length values) < 2 ^ 53)%Z →
  (Z.of_nat (length keys) < 2 ^ 53)%Z →
  Float.near 73
    (Qsum (non_null (select mask (map (share_of values) keys))))
    (Float.pairwise_sum
       (map (default 0) (select mask (map (fraction_of values) keys)))).
Proof.
  intros Hlen Hkeys. rewrite !select_map.
  pose proof (select_length mask keys) as Hsel.
  apply (near_weaken _ _ _ _ _
           (pairwise_sum_close _ _
              (fractions_near_shares _ (select mask keys) Hlen)
              ltac:(rewrite !length_map; lia))); [|done].
  apply Qsum_default.
Qed.

(** The shares of the rows that survive deduplication add up to one when
    no two species strings share a normalised name. *)
Lemma cleaned_shares_sum (sp : list (option string)) :
  let norm := map (option_map normalise) sp in
  let values := non_null norm in
  (∃ s, Some s ∈ sp) →
  (∀ s1 s2, Some s1 ∈ sp → Some s2 ∈ sp →
            normalise s1 = normalise s2 → s1 = s2) →
  Qsum (non_null (select (map negb (duplicated sp))
                         (map (share_of values) norm))) == 1.
Proof.
  intros norm values [s0 Hs0] Hinj. unfold share_of.
  rewrite cleaned_cells_by. fold norm. fold values.
  rewrite <- uniques_map_inj.
  - rewrite <- non_null_map. fold norm. fold values.
    rewrite <- (map_map (λ k, count_of k values)
                        (λ c, share c (length values))).
    rewrite Qsum_share, sum_counts_uniques. apply share_self.
    assert (normalise s0 ∈ values) as Hin.
    { apply elem_of_non_null.
      change (Some (normalise s0)) with (option_map normalise (Some s0)).
      by apply list_elem_of_fmap_2. }
    destruct values; [by apply elem_of_nil in Hin|done].
  - intros x y Hx Hy. apply Hinj; by apply elem_of_non_null.
Qed.

(** C6 (amended): when at least one row has a species, no two different
    species strings of the sample share a normalised name, and the sample
    has fewer than 2^53 rows (so that every count is a float64), the
    abundance and the deduplication step succeed, and the float64 sum of
    the abundances of the rows that survive deduplication is 1.0 within
    tolerance: every surviving row carries the rounded share of its
    species, the shares add up to one, and at most 73 roundings reach any
    term of the sum. *)
Theorem cleaned_abundance_sums_to_one
    (df : DataFrame) (sp : list (option string)) :
  get_col "species" df = Some (TextCol sp) →
  get_col "abundance" df = None →
  (∃ s, Some s ∈ sp) →
  (∀ s1 s2, Some s1 ∈ sp → Some s2 ∈ sp →
            normalise s1 = normalise s2 → s1 = s2) →
  (Z.of_nat (length sp) < 2 ^ 53)%Z →
  ∃ out cl q,
    add_abundance df = Some out
    ∧ df_clean out = Some cl
    ∧ abundance_sum cl = Some q
    ∧ within_tolerance q.
Proof.
  intros Hsp Hnew Hex Hinj Hrows.
  destruct (add_abundance_columns _ _ Hsp Hnew)
    as (out & Hadd & Hab & _ & Hother).
  assert (Hsp' : get_col "species" out = Some (TextCol sp)).
  { by rewrite Hother. }
  set (norm := map (option_map normalise) sp) in *.
  set (values := non_null norm) in *.
  assert (Hvalues : (length values ≤ length sp)%nat).
  { unfold values, norm. rewrite length_non_null_map. apply length_non_null. }
  assert (Hnorm : length norm = length sp).
  { unfold norm. by rewrite length_map. }
  exists out. eexists. eexists.
  split; [done|]. split; [by apply df_clean_spec|].
  split; [unfold abundance_sum; by rewrite get_col_map, Hab|].
  assert (Hone : Float.near 73 1
            (Float.pairwise_sum
               (map (default 0)
                    (select (map negb (duplicated sp))
                            (map (fraction_of values) norm))))).
  { apply (near_weaken _ _ _ _ _
             (col_sum_close (map negb (duplicated sp)) values norm
                ltac:(lia) ltac:(lia))); [|done].
    by apply cleaned_shares_sum. }
  apply (near_one_within _ _ Hone). lia.
Qed.

Lemma cleaned_abundance_sums_to_one_witness :
  ∃ out cl q,
    add_abundance table_plain = Some out
    ∧ df_clean out = Some cl
    ∧ abundance_sum cl = Some q
    ∧ within_tolerance q.
Proof.
  destruct (cleaned_abundance_sums_to_one table_plain
              [Some "Homo sapiens"; Some "Mus musculus"; Some "Homo sapiens";
               Some "Homo sapiens"])
    as (out & cl & q & Hadd & Hcl & Hq & Htol);
    [reflexivity | reflexivity | | | reflexivity |].
  - exists "Homo sapiens". left.
  - intros s1 s2 H1 H2.
    repeat (apply elem_of_cons in H1 as [[= ->]|H1]);
      try (by apply elem_of_nil in H1);
      repeat (apply elem_of_cons in H2 as [[= ->]|H2]);
      try (by apply elem_of_nil in H2);
      by vm_compute.
  - by exists out, cl, q.
Defined.

(** C6, as stated, fails when one species comes in two spellings: both
    rows survive deduplication, which compares the exact strings, and each
    carries the whole fraction of the shared normalised name; the sum
    printed for the cleaned table is 2.  It also fails on a sample without
    hits, where that sum is 0. *)
Lemma cleaned_sum_is_not_always_one :
  (∃ res, process_sample taxonomy_two_spellings hits_two_spellings = Some res
          ∧ get_col "species" (cleaned res)
            = Some (TextCol [Some "Homo sapiens"; Some "Homo_sapiens"])
          ∧ get_col "abundance" (cleaned res)
            = Some (NumCol [Some (ratio 2 2); Some (ratio 2 2)])
          ∧ total_abundance res == 2
          ∧ ¬ within_tolerance (total_abundance res))
  ∧ (∃ res, process_sample taxonomy_small [] = Some res
            ∧ total_abundance res == 0
            ∧ ¬ within_tolerance (total_abundance res)).
Proof.
  split.
  - eexists. split; [by vm_compute|].
    split; [by vm_compute|]. split; [by vm_compute|].
    split; [by vm_compute|]. unfold within_tolerance. by vm_compute.
  - eexists. split; [by vm_compute|].
    split; [by vm_compute|]. unfold within_tolerance. by vm_compute.
Qed.

End cleaned_sum.

(** ** Reading the joined table *)

Section joined_table_facts.
Import Text Awk Pandas Pipeline Spec Examples.

Lemma get_col_imap (g : nat → column) (names : list string) (name : string)
    (c : column) :
  get_col name (imap (λ j n, (n, g j)) names) = Some c →
  ∃ j, names !! j = Some name
       ∧ (∀ j', (j' < j)%nat → names !! j' ≠ Some name)
       ∧ c = g j.
Proof.
  revert g. induction names as [|n names IH]; intros g; [done|].
  rewrite imap_cons, get_col_cons. case_decide as E.
  - intros [= <-]. exists 0%nat. subst. split; [done|]. split; [lia|done].
  - intros Hc. apply (IH (g ∘ S)) in Hc as (j & Hj & Hfirst & ->).
    exists (S j). split; [done|]. split; [|done].
    intros [|j'] Hlt; simpl; [by intros [= ?]|]. apply Hfirst. lia.
Qed.

Lemma only_spaces_with_tab (a b : string) :
  only_spaces (a +:+ String tab b) = false.
Proof.
  induction a as [|c a IH]; [done|].
  change (Ascii.eqb c " "%char && only_spaces (a +:+ String tab b) = false).
  rewrite IH. apply andb_false_r.
Qed.

Lemma main_rule_not_blank (st : awk_state) (hit : string) :
  only_spaces (main_rule st hit) = false.
Proof.
  unfold main_rule. destruct (tax st !! _); apply only_spaces_with_tab.
Qed.

Lemma rows_not_blank (st : awk_state) (hits : list string) :
  filter (λ l, only_spaces l = false) (map (main_rule st) hits)
  = map (main_rule st) hits.
Proof.
  induction hits as [|h hs IH]; [done|]. cbn [map].
  rewrite filter_cons, decide_True by apply main_rule_not_blank.
  by rewrite IH.
Qed.

Lemma joined_header (taxonomy : list string) :
  split_on tab
    ("centroid" +:+ String tab ("identity" +:+ String tab (head_n1 taxonomy)))
  = joined_names taxonomy.
Proof. by rewrite !split_on_app_sep by reflexivity. Qed.

Lemma infer_column_text (cells sp : list (option string)) :
  infer_column cells = TextCol sp → sp = cells.
Proof.
  unfold infer_column. destruct cells as [|c cells]; [by intros [= <-]|].
  destruct (forallb _ _); [done|].
  destruct (forallb _ _); [|done]. by intros [= <-].
Qed.

Lemma forallb_map_compose {A B} (f : B → bool) (g : A → B) (l : list A) :
  forallb f (map g l) = forallb (λ x, f (g x)) l.
Proof. induction l as [|x l IH]; simpl; [done|]. by rewrite IH. Qed.

(** The joined table in closed form: one column per name of the header,
    the cells of column [j] being the fields [j] of the rows. *)
Lemma read_csv_classified_eq (taxonomy hits : list string) :
  read_csv (classified_full taxonomy hits)
  = if Shape.readable taxonomy hits
    then Some (imap (λ j name,
                  (name, infer_column (map (joined_cell taxonomy j) hits)))
                (joined_names taxonomy))
    else None.
Proof.
  unfold read_csv, Shape.readable.
  destruct (forallb plain_line (classified_full taxonomy hits)); [|done].
  unfold classified_full, classified_full_tmp.
  rewrite filter_cons, decide_True by apply only_spaces_with_tab.
  rewrite joined_header, main_loop_map, rows_not_blank, map_map.
  rewrite forallb_map_compose. fold (Shape.row_width taxonomy).
  destruct (bool_decide _); [|done]. cbn [andb].
  destruct (forallb _ hits); [|done]. f_equal.
  apply imap_ext. intros j name _. by rewrite map_map.
Qed.

(** Every column of the joined table, cell by cell. *)
Lemma read_csv_classified (taxonomy hits : list string) (df : DataFrame)
    (name : string) (c : column) :
  read_csv (classified_full taxonomy hits) = Some df →
  get_col name df = Some c →
  ∃ j, joined_names taxonomy !! j = Some name
       ∧ (∀ j', (j' < j)%nat → joined_names taxonomy !! j' ≠ Some name)
       ∧ c = infer_column (map (joined_cell taxonomy j) hits).
Proof.
  rewrite read_csv_classified_eq.
  destruct (Shape.readable taxonomy hits); [|done]. intros Hdf Hc.
  apply (inj Some) in Hdf. rewrite <- Hdf in Hc. clear Hdf.
  by apply (get_col_imap
              (λ j, infer_column (map (joined_cell taxonomy j) hits))) in Hc.
Qed.

Lemma read_csv_classified_text (taxonomy hits : list string) (df : DataFrame)
    (name : string) (sp : list (option string)) :
  read_csv (classified_full taxonomy hits) = Some df →
  get_col name df = Some (TextCol sp) →
  ∃ j, joined_names taxonomy !! j = Some name
       ∧ sp = map (joined_cell taxonomy j) hits.
Proof.
  intros Hdf Hc.
  destruct (read_csv_classified _ _ _ _ _ Hdf Hc) as (j & Hj & _ & Hsp).
  exists j. split; [done|]. symmetry in Hsp. by apply infer_column_text.
Qed.

Lemma unknown_row_fields (taxonomy : list string) (hit : string) :
  unknown_taxon taxonomy hit →
  split_on tab (main_rule (BEGIN taxonomy) hit)
  = [query_id hit; identity_of hit; tid_of hit; "UNKNOWN"].
Proof.
  intros Hu. rewrite (main_rule_unknown _ _ Hu). apply split_on_join; [done|].
  repeat constructor; try apply field_at_free. apply tid_of_tab_free.
Qed.

Lemma known_row_fields (taxonomy : list string) (hit lineage : string) :
  tax (BEGIN taxonomy) !! tid_of hit = Some lineage →
  split_on tab (main_rule (BEGIN taxonomy) hit)
  = query_id hit :: identity_of hit :: split_on tab lineage.
Proof.
  intros Hk. rewrite (main_rule_known _ _ _ Hk). unfold tsv.
  change (join_with tab [query_id hit; identity_of hit; lineage])
    with (query_id hit +:+ String tab (identity_of hit +:+ String tab lineage)).
  by rewrite !split_on_app_sep by apply field_at_free.
Qed.

(** The cell of an unknown-branch row: "UNKNOWN" in the fourth column, NaN
    in every later one. *)
Lemma unknown_cell_fourth (taxonomy : list string) (hit : string) :
  unknown_taxon taxonomy hit →
  joined_cell taxonomy 3 hit = Some "UNKNOWN".
Proof.
  intros Hu. unfold joined_cell. by rewrite (unknown_row_fields _ _ Hu).
Qed.

Lemma unknown_cell_beyond (taxonomy : list string) (hit : string) (j : nat) :
  unknown_taxon taxonomy hit → (4 ≤ j)%nat →
  joined_cell taxonomy j hit = None.
Proof.
  intros Hu Hj. unfold joined_cell. rewrite (unknown_row_fields _ _ Hu).
  do 4 (destruct j as [|j]; [lia|]). done.
Qed.

Lemma non_null_delete_None {A} (l : list (option A)) (i : nat) :
  l !! i = Some None → non_null (delete i l) = non_null l.
Proof.
  revert i. induction l as [|[x|] l IH]; intros [|i] Hi; try done.
  - change (x :: non_null (delete i l) = x :: non_null l). f_equal.
    by apply IH.
  - change (non_null (delete i l) = non_null l). by apply IH.
Qed.

Lemma value_counts_normalize_non_null (cells cells' : list (option string)) :
  non_null cells = non_null cells' →
  value_counts_normalize cells = value_counts_normalize cells'.
Proof. unfold value_counts_normalize, value_counts. by intros ->. Qed.

Lemma later_duplicate `{EqDecision K} (keys : list K) (i j : nat) (k : K) :
  (i < j)%nat → keys !! i = Some k → keys !! j = Some k →
  map negb (duplicated keys) !! j = Some false.
Proof.
  intros Hlt Hi Hj. destruct (keep_lookup keys j k Hj) as ([|] & Hb & Hiff).
  - exfalso. by apply (proj1 Hiff eq_refl i Hlt).
  - done.
Qed.

End joined_table_facts.

(** ** Hits on a taxon the table does not have *)

Section unknown_taxa.
Import Text Awk Pandas Pipeline Spec Examples.
Local Open Scope Q_scope.

Lemma species_column_position (taxonomy : list string) (j : nat) :
  joined_names taxonomy !! j = Some "species" →
  "species" ∉ take 4 (joined_names taxonomy) →
  (4 ≤ j)%nat.
Proof.
  intros Hj Hnot. destruct (decide (j < 4)%nat) as [Hlt|]; [|lia].
  exfalso. apply Hnot, elem_of_take. eauto.
Qed.

(** C7 (amended): a hit whose taxon identifier is not in the taxonomy index
    yields a row of exactly four columns: query_id, identity, the raw taxon
    identifier and the marker "UNKNOWN".  That is fewer columns than a
    known-branch row has whenever the taxonomy line of that row has at least
    three fields.  When "species" is not among the first four column names
    of the joined table, the row has no species, and the abundance table is
    the one the sample would have without the row. *)
Theorem unknown_taxon_row
    (taxonomy hits : list string) (i : nat) (hit : string) :
  hits !! i = Some hit →
  unknown_taxon taxonomy hit →
  ∃ row,
    classified_full_tmp taxonomy hits !! i = Some row
    ∧ row = tsv [query_id hit; identity_of hit; tid_of hit; "UNKNOWN"]
    ∧ split_on tab row
      = [query_id hit; identity_of hit; tid_of hit; "UNKNOWN"]
    ∧ (∀ hit' lineage,
         tax (BEGIN taxonomy) !! tid_of hit' = Some lineage →
         (3 ≤ length (split_on tab lineage))%nat →
         (length (split_on tab row)
          < length (split_on tab (main_rule (BEGIN taxonomy) hit')))%nat)
    ∧ (∀ df sp,
         read_csv (classified_full taxonomy hits) = Some df →
         get_col "species" df = Some (TextCol sp) →
         "species" ∉ take 4 (joined_names taxonomy) →
         sp !! i = Some None
         ∧ abundance_table (map (option_map normalise) sp)
           = abundance_table (map (option_map normalise) (delete i sp))).
Proof.
  intros Hi Hu. exists (main_rule (BEGIN taxonomy) hit).
  split; [|split; [|split; [|split]]].
  - unfold classified_full_tmp. rewrite main_loop_map.
    change (map ?f hits) with (f <$> hits).
    by rewrite list_lookup_fmap, Hi.
  - by apply main_rule_unknown.
  - by apply unknown_row_fields.
  - intros hit' lineage Hk Hlen.
    rewrite (unknown_row_fields _ _ Hu), (known_row_fields _ _ _ Hk).
    simpl. lia.
  - intros df sp Hdf Hsp Hpos.
    destruct (read_csv_classified_text _ _ _ _ _ Hdf Hsp) as (j & Hj & ->).
    pose proof (species_column_position _ _ Hj Hpos) as Hj4.
    assert (Hnull : map (joined_cell taxonomy j) hits !! i = Some None).
    { change (map ?f hits) with (f <$> hits).
      rewrite list_lookup_fmap, Hi. simpl. f_equal.
      by apply unknown_cell_beyond. }
    split; [done|].
    unfold abundance_table. f_equal.
    apply value_counts_normalize_non_null.
    by rewrite !non_null_map, (non_null_delete_None _ _ Hnull).
Qed.

Lemma unknown_taxon_row_witness :
  ∃ row,
    classified_full_tmp taxonomy_wide hits_one_unknown !! 1%nat = Some row
    ∧ row = tsv ["r2"; "0.95"; "42"; "UNKNOWN"].
Proof.
  destruct (unknown_taxon_row taxonomy_wide hits_one_unknown 1
              (tsv ["r2"; "42:z"; "0.95"]) eq_refl eq_refl)
    as (row & Hrow & Heq & _).
  exists row. split; [exact Hrow|exact Heq].
Defined.

(** C7, as stated, fails on a taxonomy of two columns (taxon, species): the
    unknown-branch row has as many columns as a known-branch row, its marker
    lands in the species column, and the row is counted as a species of its
    own, which halves the fraction of the species that was found. *)
Lemma unknown_row_counts_as_a_species :
  unknown_taxon taxonomy_small (tsv ["r2"; "42:z"; "0.95"])
  ∧ classified_full_tmp taxonomy_small hits_one_unknown
    = [tsv ["r1"; "0.99"; "9606"; "Homo sapiens"];
       tsv ["r2"; "0.95"; "42"; "UNKNOWN"]]
  ∧ ¬ (length (split_on tab (tsv ["r2"; "0.95"; "42"; "UNKNOWN"]))
       < length (split_on tab (tsv ["r1"; "0.99"; "9606"; "Homo sapiens"])))%nat
  ∧ (∃ res, process_sample taxonomy_small hits_one_unknown = Some res
            ∧ get_col "species" (annotated res)
              = Some (TextCol [Some "Homo sapiens"; Some "UNKNOWN"])
            ∧ get_col "abundance" (annotated res)
              = Some (NumCol [Some (ratio 1 2); Some (ratio 1 2)]))
  ∧ (∃ res, process_sample taxonomy_small [tsv ["r1"; "9606:a"; "0.99"]]
            = Some res
            ∧ get_col "abundance" (annotated res)
              = Some (NumCol [Some (ratio 1 1)]))
  ∧ ¬ ratio 1 2 == ratio 1 1.
Proof.
  split; [by vm_compute|]. split; [by vm_compute|].
  split; [vm_compute; lia|].
  split; [eexists; split; [by vm_compute|by vm_compute]|].
  split; [eexists; split; [by vm_compute|by vm_compute]|].
  by vm_compute.
Qed.

(** C10 (amended): after deduplication at most one row without species
    remains, since all rows without species are duplicates of each other:
    every such row after the first is dropped.  And whenever the species
    column is not the column of the taxon identifier (the third column of
    the joined table), every unknown-branch row after the first is dropped,
    however many different taxon identifiers these rows carry. *)
Theorem unknown_rows_collapse :
  (∀ sp : list (option string),
     let keep := map negb (duplicated sp) in
     (length (filter (λ c, c = None) (select keep sp)) ≤ 1)%nat
     ∧ ∀ i j, (i < j)%nat → sp !! i = Some None → sp !! j = Some None →
              keep !! j = Some false)
  ∧ ∀ taxonomy hits df sp,
      read_csv (classified_full taxonomy hits) = Some df →
      get_col "species" df = Some (TextCol sp) →
      get_col "abundance" df = None →
      joined_names taxonomy !! 2%nat ≠ Some "species" →
      let keep := map negb (duplicated sp) in
      ∃ out cl,
        add_abundance df = Some out
        ∧ df_clean out = Some cl
        ∧ (∀ name c, get_col name out = Some c →
                     get_col name cl = Some (col_select keep c))
        ∧ ∀ i j hi hj,
            (i < j)%nat → hits !! i = Some hi → hits !! j = Some hj →
            unknown_taxon taxonomy hi → unknown_taxon taxonomy hj →
            keep !! j = Some false.
Proof.
  split.
  - intros sp keep. split.
    + apply NoDup_count_le_1, (NoDup_uniques sp).
    + intros i j Hlt Hi Hj. by apply (later_duplicate sp i j None).
  - intros taxonomy hits df sp Hdf Hsp Hnew Hpos keep.
    destruct (add_abundance_columns _ _ Hsp Hnew)
      as (out & Hadd & _ & _ & Hother).
    assert (Hsp' : get_col "species" out = Some (TextCol sp)).
    { by rewrite Hother. }
    exists out. eexists. split; [done|].
    split; [by apply df_clean_spec|]. split.
    { intros name c Hc. by rewrite get_col_map, Hc. }
    intros i j hi hj Hlt Hi Hj Hui Huj.
    destruct (read_csv_classified_text _ _ _ _ _ Hdf Hsp) as (p & Hp & ->).
    assert (Hsame : joined_cell taxonomy p hi = joined_cell taxonomy p hj).
    { destruct p as [|[|[|[|p]]]]; [done|done|done|..].
      - by rewrite !unknown_cell_fourth.
      - by rewrite !unknown_cell_beyond by (done || lia). }
    apply (later_duplicate _ i j (joined_cell taxonomy p hi) Hlt).
    + change (map ?f hits) with (f <$> hits).
      by rewrite list_lookup_fmap, Hi.
    + change (map ?f hits) with (f <$> hits).
      by rewrite list_lookup_fmap, Hj, Hsame.
Qed.

Lemma unknown_rows_collapse_witness :
  map negb (duplicated [Some "Homo sapiens"; None; None]) !! 2%nat
  = Some false.
Proof.
  destruct (proj2 unknown_rows_collapse
              taxonomy_wide hits_three joined_three
              [Some "Homo sapiens"; None; None]
              ltac:(vm_compute; reflexivity) ltac:(vm_compute; reflexivity)
              ltac:(vm_compute; reflexivity) ltac:(discriminate))
    as (out & cl & _ & _ & _ & Hdrop).
  exact (Hdrop 1%nat 2%nat (tsv ["r2"; "42:z"; "0.95"])
               (tsv ["r3"; "77:y"; "0.93"])
               ltac:(lia) eq_refl eq_refl
               ltac:(vm_compute; reflexivity) ltac:(vm_compute; reflexivity)).
Defined.

(** C10, as stated, fails on a taxonomy keyed by species name, whose first
    column is called "species": the unknown-branch rows then carry their
    taxon identifier as species, and two such rows with different
    identifiers both survive deduplication. *)
Lemma unknown_rows_with_distinct_ids_survive :
  Forall (unknown_taxon taxonomy_keyed_by_species) hits_two_unknown
  ∧ classified_full_tmp taxonomy_keyed_by_species hits_two_unknown
    = [tsv ["r1"; "0.97"; "Mus_musculus"; "UNKNOWN"];
       tsv ["r2"; "0.96"; "Rattus_rattus"; "UNKNOWN"]]
  ∧ ∃ res,
      process_sample taxonomy_keyed_by_species hits_two_unknown = Some res
      ∧ get_col "centroid" (cleaned res)
        = Some (TextCol [Some "r1"; Some "r2"])
      ∧ get_col "species" (cleaned res)
        = Some (TextCol [Some "Mus_musculus"; Some "Rattus_rattus"])
      ∧ get_col "genus" (cleaned res)
        = Some (TextCol [Some "UNKNOWN"; Some "UNKNOWN"]).
Proof.
  split; [repeat constructor; by vm_compute|]. split; [by vm_compute|].
  eexists. split; [by vm_compute|]. by vm_compute.
Qed.

End unknown_taxa.

(** * Further properties of the join *)

Section join_rows.
Import Text Awk Pandas Pipeline Spec Shape MoreExamples.

Lemma lines_keyed_before_first (key : string) (taxonomy : list string) :
  lines_keyed key taxonomy
  = filter (λ l, before_first tab l = key) taxonomy.
Proof.
  unfold lines_keyed. apply list_filter_iff. intros l.
  by rewrite field1_before_first.
Qed.

Lemma split_on_not_nil (sep : ascii) (s : string) : split_on sep s ≠ [].
Proof.
  destruct s as [|a s]; simpl; [done|].
  destruct (Ascii.eqb a sep); [done|]. by destruct (split_on sep s).
Qed.

Lemma list_lookup_map {A B} (f : A → B) (l : list A) (i : nat) :
  map f l !! i = f <$> l !! i.
Proof. apply (list_lookup_fmap f). Qed.

(** X1: a hit whose taxon identifier is the first field of some line of
    the taxonomy file is joined with the last such line: its row is the
    query_id, the identity and then the fields of that line, in the line's
    own order.  Earlier lines with the same identifier are ignored. *)
Theorem known_taxon_row
    (taxonomy hits : list string) (i : nat) (hit lineage : string) :
  hits !! i = Some hit →
  last (lines_keyed (tid_of hit) taxonomy) = Some lineage →
  classified_full_tmp taxonomy hits !! i
  = Some (tsv [query_id hit; identity_of hit; lineage])
  ∧ split_on tab (tsv [query_id hit; identity_of hit; lineage])
    = query_id hit :: identity_of hit :: split_on tab lineage
  ∧ field_at 1 (awk_split tab lineage) = tid_of hit.
Proof.
  intros Hi Hlast.
  assert (Hk : tax (BEGIN taxonomy) !! tid_of hit = Some lineage).
  { by rewrite tax_lookup, <- lines_keyed_before_first. }
  split; [|split].
  - unfold classified_full_tmp.
    rewrite main_loop_map, list_lookup_map, Hi. simpl.
    by rewrite (main_rule_known _ _ _ Hk).
  - rewrite <- (main_rule_known _ _ _ Hk). by apply known_row_fields.
  - rewrite field1_before_first. by apply (BEGIN_keyed taxonomy).
Qed.

Lemma known_taxon_row_witness :
  classified_full_tmp taxonomy_twice hits_human !! 0%nat
  = Some (tsv ["r1"; "0.99"; tsv ["9606"; "Homo"; "Homo sapiens"]]).
Proof.
  exact (proj1 (known_taxon_row taxonomy_twice hits_human 0
                  (tsv ["r1"; "9606:ref7"; "0.99"])
                  (tsv ["9606"; "Homo"; "Homo sapiens"])
                  eq_refl ltac:(vm_compute; reflexivity))).
Defined.

(** X2: whatever the taxonomy, the join emits one row per hit, in the
    order of the hits, and every row starts with the hit's first field
    (query_id) and third field (identity), followed by at least one more
    column. *)
Theorem rows_carry_query_and_identity (taxonomy hits : list string) :
  Forall2
    (λ hit row,
       ∃ rest, split_on tab row = query_id hit :: identity_of hit :: rest
               ∧ rest ≠ [])
    hits (classified_full_tmp taxonomy hits).
Proof.
  unfold classified_full_tmp. rewrite main_loop_map.
  apply Forall2_fmap_r, Forall_Forall2_diag, Forall_forall.
  intros hit _. unfold compose.
  destruct (tax (BEGIN taxonomy) !! tid_of hit) as [lineage|] eqn:E.
  - rewrite (known_row_fields _ _ _ E). eexists. split; [done|].
    apply split_on_not_nil.
  - rewrite (unknown_row_fields _ _ E). by eexists.
Qed.

End join_rows.

(** * The joined table and the run of one sample *)

Section sample_run.
Import Text Awk Pandas Pipeline Spec Shape MoreExamples.

Lemma get_col_imap_first (g : nat → column) (names : list string)
    (name : string) (j : nat) :
  names !! j = Some name →
  (∀ j', (j' < j)%nat → names !! j' ≠ Some name) →
  get_col name (imap (λ j n, (n, g j)) names) = Some (g j).
Proof.
  revert g j. induction names as [|n names IH]; intros g j Hj Hfirst; [done|].
  rewrite imap_cons, get_col_cons. destruct j as [|j].
  - injection Hj as ->. by rewrite decide_True.
  - rewrite decide_False.
    + apply (IH (g ∘ S) j Hj). intros j' Hlt. apply (Hfirst (S j')). lia.
    + intros ->. by apply (Hfirst 0%nat); [lia|].
Qed.

Lemma get_col_imap_none (g : nat → column) (names : list string)
    (name : string) :
  name ∉ names → get_col name (imap (λ j n, (n, g j)) names) = None.
Proof.
  revert g. induction names as [|n names IH]; intros g Hnot; [done|].
  rewrite imap_cons, get_col_cons, decide_False.
  - apply (IH (g ∘ S)). intros Hin. apply Hnot. by right.
  - intros ->. apply Hnot. left.
Qed.

Lemma get_col_imap_some (g : nat → column) (names : list string)
    (name : string) :
  name ∈ names → is_Some (get_col name (imap (λ j n, (n, g j)) names)).
Proof.
  revert g. induction names as [|n names IH]; intros g Hin.
  - by apply elem_of_nil in Hin.
  - rewrite imap_cons, get_col_cons. case_decide; [done|].
    apply (IH (g ∘ S)). by apply elem_of_cons in Hin as [->|].
Qed.

Lemma names_of_imap (g : nat → column) (names : list string) :
  map fst (imap (λ j n, (n, g j)) names) = names.
Proof.
  revert g. induction names as [|n names IH]; intros g; [done|].
  rewrite imap_cons. simpl. f_equal. apply (IH (g ∘ S)).
Qed.

Lemma col_length_infer (cells : list (option string)) :
  col_length (infer_column cells) = length cells.
Proof.
  unfold infer_column. destruct cells as [|c cells]; [done|].
  destruct (forallb _ _); [cbn [col_length]; by rewrite length_map|].
  by destruct (forallb _ _).
Qed.

(** A column is a column of strings when it has no rows, or when it has a
    value and all its values can only be strings. *)
Lemma infer_column_all_text (cells : list (option string)) :
  (cells = [] ∨ ∃ c, c ∈ cells ∧ c ≠ None) →
  Forall (λ c, ∀ s, c = Some s → surely_text s = true) cells →
  infer_column cells = TextCol cells.
Proof.
  intros H Hall. unfold infer_column. destruct cells as [|c cells]; [done|].
  destruct H as [|(x & Hx & Hsome)]; [done|].
  destruct (forallb _ _) eqn:E.
  { exfalso. apply Hsome. rewrite forallb_forall in E.
    by apply (bool_decide_eq_true_1 _), E, list_elem_of_In. }
  assert (forallb (λ c, match c with
                        | Some s => surely_text s
                        | None => true
                        end) (c :: cells) = true) as ->; [|done].
  apply forallb_forall. intros [s|] Hin; [|done].
  rewrite Forall_forall in Hall.
  apply (Hall (Some s)); [by apply list_elem_of_In|done].
Qed.

Lemma forallb_false_elem {A} (f : A → bool) (l : list A) :
  forallb f l = false → ∃ x, x ∈ l ∧ f x = false.
Proof.
  induction l as [|x l IH]; [done|]. simpl.
  destruct (f x) eqn:E; simpl.
  - intros (y & Hy & Hf)%IH. exists y. split; [by right|done].
  - intros _. exists x. split; [left|done].
Qed.

(** The converse: a column of strings with rows has a value, and all its
    values can only be strings. *)
Lemma infer_column_text_inv (cells sp : list (option string)) :
  infer_column cells = TextCol sp →
  cells ≠ [] →
  (∃ s, Some s ∈ cells)
  ∧ Forall (λ c, ∀ s, c = Some s → surely_text s = true) cells.
Proof.
  unfold infer_column. destruct cells as [|c cells]; [done|].
  destruct (forallb (λ c, bool_decide (c = None)) _) eqn:E; [done|].
  destruct (forallb (λ c, match c with Some s => _ | None => _ end) _)
    eqn:E'; [|done].
  intros _ _. split.
  - apply forallb_false_elem in E as ([s|] & Hin & Hf); [by exists s|].
    by rewrite bool_decide_eq_true_2 in Hf.
  - rewrite forallb_forall in E'. apply Forall_forall.
    intros x Hx s ->. by apply (E' (Some s)), list_elem_of_In.
Qed.

Lemma readable_inv (taxonomy hits : list string) :
  readable taxonomy hits = true →
  NoDup (joined_names taxonomy) ∧ EmptyString ∉ joined_names taxonomy.
Proof.
  unfold readable. intros H. apply andb_prop in H as [H _].
  apply andb_prop in H as [_ H]. by apply bool_decide_eq_true in H.
Qed.

Lemma NoDup_lookup_first {A} (l : list A) (j : nat) (x : A) :
  NoDup l → l !! j = Some x → ∀ j', (j' < j)%nat → l !! j' ≠ Some x.
Proof.
  intros Hnd Hj j' Hlt Hj'.
  pose proof (NoDup_lookup _ _ _ _ Hnd Hj Hj'). lia.
Qed.

(** In a table read from the joined file, the column of the name at
    position [j] of a header without repeated names. *)
Lemma joined_column (taxonomy hits : list string) (df : DataFrame)
    (j : nat) (name : string) :
  Some df
  = Some (imap (λ j name,
                  (name, infer_column (map (joined_cell taxonomy j) hits)))
            (joined_names taxonomy)) →
  NoDup (joined_names taxonomy) →
  joined_names taxonomy !! j = Some name →
  get_col name df = Some (infer_column (map (joined_cell taxonomy j) hits)).
Proof.
  intros Hdf Hnd Hj. apply (inj Some) in Hdf. rewrite Hdf.
  apply (get_col_imap_first
           (λ j, infer_column (map (joined_cell taxonomy j) hits)) _ _ j Hj).
  by apply NoDup_lookup_first.
Qed.

(** X3: when the joined file is readable, it is read the way its header
    says: the columns are named centroid, identity and then the fields of
    the taxonomy's first line, in this order; every column has one cell per
    hit; and the cells of the column with the name at position [j] are the
    fields [j] of the rows, typed as a whole. *)
Theorem joined_table_shape (taxonomy hits : list string) :
  readable taxonomy hits = true →
  ∃ df, read_csv (classified_full taxonomy hits) = Some df
        ∧ map fst df
          = "centroid" :: "identity" :: split_on tab (head_n1 taxonomy)
        ∧ Forall (λ nc, col_length nc.2 = length hits) df
        ∧ ∀ j name,
            joined_names taxonomy !! j = Some name →
            get_col name df
            = Some (infer_column (map (joined_cell taxonomy j) hits)).
Proof.
  intros Hread. destruct (readable_inv _ _ Hread) as [Hnd _].
  rewrite read_csv_classified_eq, Hread.
  eexists. split; [done|]. split; [apply names_of_imap|]. split.
  - apply Forall_forall. intros [n c] Hin.
    apply list_elem_of_lookup in Hin as [j Hj].
    rewrite list_lookup_imap in Hj.
    destruct (joined_names taxonomy !! j); [|done].
    injection Hj as <- <-. simpl. by rewrite col_length_infer, length_map.
  - intros j name Hj.
    apply (get_col_imap_first
             (λ j, infer_column (map (joined_cell taxonomy j) hits))
             _ _ j Hj).
    by apply NoDup_lookup_first.
Qed.

Lemma joined_table_shape_witness :
  ∃ df, read_csv (classified_full taxonomy_twice hits_human) = Some df
        ∧ map fst df
          = "centroid" :: "identity" :: split_on tab (head_n1 taxonomy_twice)
        ∧ get_col "species" df = Some (TextCol [Some "Homo sapiens"]).
Proof.
  destruct (joined_table_shape taxonomy_twice hits_human)
    as (df & Hdf & Hnames & _ & Hcols); [reflexivity|].
  exists df. split; [exact Hdf|]. split; [exact Hnames|].
  exact (Hcols 4%nat "species" eq_refl).
Defined.

(** What [process_sample] needs in order to yield a result. *)
Lemma process_sample_inv (taxonomy hits : list string) (res : sample_result) :
  process_sample taxonomy hits = Some res →
  ∃ df sp,
    read_csv (classified_full taxonomy hits) = Some df
    ∧ readable taxonomy hits = true
    ∧ get_col "species" df = Some (TextCol sp)
    ∧ get_col "abundance" df = None
    ∧ add_abundance df = Some (annotated res).
Proof.
  unfold process_sample. intros Hres.
  destruct (read_csv (classified_full taxonomy hits)) as [df|] eqn:Hdf;
    [|done].
  destruct (add_abundance df) as [out|] eqn:Hadd; [|done].
  destruct (add_abundance_inv _ _ Hadd) as (sp & Hsp & Hab).
  exists df, sp. split; [done|]. split.
  { rewrite read_csv_classified_eq in Hdf.
    by destruct (readable taxonomy hits). }
  split; [done|]. split; [done|].
  destruct (abundance_sum out); [|done].
  destruct (df_clean out); [|done].
  destruct (abundance_sum _); [|done]. by injection Hres as <-.
Qed.

(** X4: on a joined file that [read_csv] covers, a sample yields its
    tables only if the first line of the taxonomy has a field called
    "species" and none called "abundance": line 89 reads the column
    "species", and a column "abundance" that is there before the merge is
    renamed by it, so that line 108 finds none. *)
Theorem table_needs_species_column
    (taxonomy hits : list string) (res : sample_result) :
  process_sample taxonomy hits = Some res →
  "species" ∈ split_on tab (head_n1 taxonomy)
  ∧ "abundance" ∉ split_on tab (head_n1 taxonomy).
Proof.
  intros Hres.
  destruct (process_sample_inv _ _ _ Hres)
    as (df & sp & Hdf & _ & Hsp & Hab & _).
  destruct (read_csv_classified _ _ _ _ _ Hdf Hsp) as (j & Hj & _).
  split.
  - apply list_elem_of_lookup_2 in Hj. unfold joined_names in Hj.
    rewrite !elem_of_cons in Hj. by destruct Hj as [|[|]].
  - intros Hin. rewrite read_csv_classified_eq in Hdf.
    destruct (readable taxonomy hits); [|done].
    apply (inj Some) in Hdf. rewrite <- Hdf in Hab.
    destruct (get_col_imap_some
                (λ j, infer_column (map (joined_cell taxonomy j) hits))
                (joined_names taxonomy) "abundance") as [c Hc].
    { unfold joined_names. by do 2 right. }
    by rewrite Hc in Hab.
Qed.

Lemma table_needs_species_column_witness :
  ∃ res, process_sample taxonomy_twice hits_human = Some res
         ∧ "species" ∈ split_on tab (head_n1 taxonomy_twice)
         ∧ "abundance" ∉ split_on tab (head_n1 taxonomy_twice).
Proof.
  destruct (process_sample taxonomy_twice hits_human) as [res|] eqn:Hres.
  - exists res. split; [reflexivity|].
    exact (table_needs_species_column taxonomy_twice hits_human res Hres).
  - vm_compute in Hres. discriminate Hres.
Defined.

(** X5: on a joined file that [read_csv] covers, a sample with at least
    one hit yields its tables only if some hit has a species: a species
    column without a single value is read as float64, and line 89 asks for
    its [.str].  In particular, when
    "species" is not among the first four column names, some hit is on a
    taxon that the taxonomy has: the rows of the other hits end after
    their fourth field. *)
Theorem table_needs_a_species
    (taxonomy hits : list string) (res : sample_result) :
  process_sample taxonomy hits = Some res →
  hits ≠ [] →
  ∃ j, joined_names taxonomy !! j = Some "species"
       ∧ (∃ hit s, hit ∈ hits ∧ joined_cell taxonomy j hit = Some s)
       ∧ ("species" ∉ take 4 (joined_names taxonomy) →
          ∃ hit, hit ∈ hits ∧ ¬ unknown_taxon taxonomy hit).
Proof.
  intros Hres Hne.
  destruct (process_sample_inv _ _ _ Hres)
    as (df & sp & Hdf & _ & Hsp & _ & _).
  destruct (read_csv_classified _ _ _ _ _ Hdf Hsp) as (j & Hj & _ & Hcol).
  symmetry in Hcol.
  destruct (infer_column_text_inv _ _ Hcol) as [[s Hs] _].
  { by destruct hits. }
  change (map ?f hits) with (f <$> hits) in Hs.
  apply list_elem_of_fmap in Hs as (hit & Hcell & Hin).
  exists j. split; [done|]. split; [by exists hit, s|].
  intros Hpos. exists hit. split; [done|]. intros Hu.
  pose proof (species_column_position _ _ Hj Hpos) as Hj4.
  by rewrite (unknown_cell_beyond _ _ _ Hu Hj4) in Hcell.
Qed.

Lemma table_needs_a_species_witness :
  ∃ res, process_sample taxonomy_twice hits_human = Some res
         ∧ hits_human ≠ []
         ∧ ∃ j, joined_names taxonomy_twice !! j = Some "species"
                ∧ ∃ hit s, hit ∈ hits_human
                           ∧ joined_cell taxonomy_twice j hit = Some s.
Proof.
  destruct (process_sample taxonomy_twice hits_human) as [res|] eqn:Hres.
  - exists res. split; [reflexivity|]. split; [discriminate|].
    destruct (table_needs_a_species taxonomy_twice hits_human res Hres)
      as (j & Hj & Hhit & _); [discriminate|].
    exists j. split; [exact Hj|exact Hhit].
  - vm_compute in Hres. discriminate Hres.
Defined.

(** X6: the run of a sample yields its two tables whenever the joined file
    is readable, its header names a column "species" and none called
    "abundance", every species is a string that cannot be read as a number
    or a truth value, and either there is no hit or some hit has a
    species.  The annotated table then has one abundance cell per hit,
    next to the species cells of the joined table, and the cleaned table
    keeps the distinct species cells in order of first appearance. *)
Theorem sample_run_succeeds (taxonomy hits : list string) (j : nat) :
  readable taxonomy hits = true →
  joined_names taxonomy !! j = Some "species" →
  "abundance" ∉ joined_names taxonomy →
  (∀ hit s, hit ∈ hits → joined_cell taxonomy j hit = Some s →
            surely_text s = true) →
  (hits = [] ∨ ∃ hit, hit ∈ hits ∧ joined_cell taxonomy j hit ≠ None) →
  let sp := map (joined_cell taxonomy j) hits in
  ∃ res,
    process_sample taxonomy hits = Some res
    ∧ get_col "species" (annotated res) = Some (TextCol sp)
    ∧ (∃ ab, get_col "abundance" (annotated res) = Some (NumCol ab)
             ∧ length ab = length hits)
    ∧ get_col "species" (cleaned res) = Some (TextCol (uniques sp))
    ∧ (length (uniques sp) ≤ length hits)%nat.
Proof.
  intros Hread Hj Hnew Hall Htext sp.
  destruct (readable_inv _ _ Hread) as [Hnd _].
  pose proof (read_csv_classified_eq taxonomy hits) as Hdf.
  rewrite Hread in Hdf.
  destruct (read_csv (classified_full taxonomy hits)) as [df|] eqn:Hrd;
    [|done].
  assert (Hsp : get_col "species" df = Some (TextCol sp)).
  { rewrite (joined_column _ _ _ _ _ Hdf Hnd Hj). f_equal.
    apply infer_column_all_text.
    - destruct Htext as [->|(hit & Hin & Hc)]; [by left|].
      right. exists (joined_cell taxonomy j hit). split; [|done].
      unfold sp. change (map ?f hits) with (f <$> hits).
      by apply list_elem_of_fmap_2.
    - change (map ?f hits) with (f <$> hits). apply Forall_fmap.
      apply Forall_forall. intros hit Hin s Hs. by apply (Hall hit). }
  assert (Hab : get_col "abundance" df = None).
  { apply (inj Some) in Hdf. rewrite Hdf. by apply get_col_imap_none. }
  destruct (add_abundance_columns _ _ Hsp Hab)
    as (out & Hadd & Hout & _ & Hother).
  assert (Hsp' : get_col "species" out = Some (TextCol sp)).
  { by rewrite Hother. }
  unfold process_sample. rewrite Hrd, Hadd.
  unfold abundance_sum at 1. rewrite Hout. cbn [col_sum].
  rewrite (df_clean_spec _ _ Hsp').
  unfold abundance_sum. rewrite get_col_map, Hout.
  cbn [fmap option_fmap option_map col_select col_sum].
  eexists. split; [reflexivity|]. cbn [annotated cleaned].
  split; [done|]. split.
  { eexists. split; [exact Hout|]. unfold sp. by rewrite !length_map. }
  split; [by rewrite get_col_map, Hsp'|].
  etransitivity; [apply sublist_length, select_sublist|].
  unfold sp. by rewrite length_map.
Qed.

Lemma sample_run_succeeds_witness :
  ∃ res,
    process_sample taxonomy_twice hits_human = Some res
    ∧ get_col "species" (annotated res)
      = Some (TextCol (map (joined_cell taxonomy_twice 4) hits_human))
    ∧ (∃ ab, get_col "abundance" (annotated res) = Some (NumCol ab)
             ∧ length ab = length hits_human)
    ∧ get_col "species" (cleaned res)
      = Some (TextCol (uniques (map (joined_cell taxonomy_twice 4) hits_human)))
    ∧ (length (uniques (map (joined_cell taxonomy_twice 4) hits_human))
       ≤ length hits_human)%nat.
Proof.
  apply (sample_run_succeeds taxonomy_twice hits_human 4).
  - reflexivity.
  - reflexivity.
  - assert (joined_names taxonomy_twice
            = ["centroid"; "identity"; "taxid"; "genus"; "species"])
      as -> by (by vm_compute).
    rewrite !elem_of_cons, elem_of_nil. by intros [|[|[|[|[|]]]]].
  - intros hit s Hin Hs. apply list_elem_of_singleton in Hin as ->.
    vm_compute in Hs. injection Hs as <-. reflexivity.
  - right. exists (tsv ["r1"; "9606:ref7"; "0.99"]). split; [left|].
    by vm_compute.
Defined.

End sample_run.

(** * Further properties of the table steps *)

Section dedup_twice.
Import Text Pandas Pipeline Spec Shape Examples.

Lemma duplicated_from_fresh `{EqDecision K} (seen l : list K) :
  NoDup l → (∀ x, x ∈ l → x ∉ seen) →
  duplicated_from seen l = map (λ _, false) l.
Proof.
  intros Hnd. revert seen. induction Hnd as [|a l Ha Hnd IH]; intros seen Hs;
    [done|].
  simpl. rewrite bool_decide_eq_false_2 by (apply Hs; left). f_equal.
  apply IH. intros x Hx. rewrite elem_of_cons. intros [->|Hin]; [done|].
  by apply (Hs x); [right|].
Qed.

Lemma keep_of_uniques `{EqDecision K} (keys : list K) :
  map negb (duplicated (select (map negb (duplicated keys)) keys))
  = map (λ _, true) (select (map negb (duplicated keys)) keys).
Proof.
  unfold duplicated at 1.
  rewrite duplicated_from_fresh.
  - by rewrite map_map.
  - apply (NoDup_uniques keys).
  - intros x _. apply not_elem_of_nil.
Qed.

Lemma select_all {A B} (marks : list B) (l : list A) :
  (length l ≤ length marks)%nat → select (map (λ _, true) marks) l = l.
Proof.
  revert l. induction marks as [|m marks IH]; intros [|x l] Hlen; simpl in *;
    try done; [lia|].
  f_equal. apply IH. lia.
Qed.

Lemma select_length_le {A B} (mask : list bool) (l : list A) (l' : list B) :
  (length mask ≤ length l')%nat →
  (length (select mask l) ≤ length (select mask l'))%nat.
Proof.
  revert l l'. induction mask as [|b mask IH]; intros l l' Hlen.
  - by destruct l.
  - destruct l' as [|y l']; [simpl in Hlen; lia|].
    destruct l as [|x l]; [simpl; lia|].
    simpl in *. specialize (IH l l' ltac:(lia)). destruct b; simpl; lia.
Qed.

Lemma duplicated_length `{EqDecision K} (keys : list K) :
  length (duplicated keys) = length keys.
Proof.
  unfold duplicated. generalize (@nil K).
  induction keys as [|k keys IH]; intros seen; simpl; [done|]. by rewrite IH.
Qed.

Lemma select_keep_twice `{EqDecision K} {A} (keys : list K) (l : list A) :
  let keep := map negb (duplicated keys) in
  select (map negb (duplicated (select keep keys))) (select keep l)
  = select keep l.
Proof.
  intros keep. unfold keep. rewrite keep_of_uniques. apply select_all.
  apply select_length_le. by rewrite length_map, duplicated_length.
Qed.

Lemma col_select_keep_twice (c c' : column) :
  let keep := map negb (col_duplicated c) in
  col_select (map negb (col_duplicated (col_select keep c)))
             (col_select keep c')
  = col_select keep c'.
Proof.
  intros keep. unfold keep.
  destruct c as [keys|keys|keys]; destruct c' as [l|l|l]; simpl; f_equal;
    rewrite <- ?select_map; apply select_keep_twice.
Qed.

(** X7: deduplication is idempotent: cleaning an already cleaned table
    gives the same table back, column for column. *)
Theorem df_clean_idempotent (df cl : DataFrame) :
  df_clean df = Some cl → df_clean cl = Some cl.
Proof.
  unfold df_clean, reload, drop_duplicates.
  destruct (get_col "species" df) as [[k|k|k]|] eqn:Hc; [| |done|done].
  - intros [= <-]. rewrite get_col_map, Hc.
    cbn [fmap option_fmap option_map col_select]. f_equal.
    rewrite map_map. apply map_ext. intros [n c']. cbn [fst snd]. f_equal.
    apply (col_select_keep_twice (TextCol k) c').
  - intros [= <-]. rewrite get_col_map, Hc.
    cbn [fmap option_fmap option_map col_select]. f_equal.
    rewrite map_map. apply map_ext. intros [n c']. cbn [fst snd]. f_equal.
    apply (col_select_keep_twice (NumCol k) c').
Qed.

Lemma df_clean_idempotent_witness :
  ∃ cl, df_clean table_plain = Some cl
        ∧ get_col "species" cl
          = Some (TextCol [Some "Homo sapiens"; Some "Mus musculus"])
        ∧ df_clean cl = Some cl.
Proof.
  eexists. split; [reflexivity|]. split; [reflexivity|].
  apply (df_clean_idempotent table_plain). reflexivity.
Defined.

End dedup_twice.

Section sums_and_ranges.
Import Text Pandas Pipeline Spec Shape Examples.
Local Open Scope Q_scope.

(** Comparing an exact share with 0 and 1. *)
Lemma share_repr (m n : nat) :
  share m (S n) == (Z.of_nat m # Pos.of_succ_nat n).
Proof.
  unfold share, Qdiv, Qmult, Qinv, Qeq, inject_Z. simpl.
  assert (Z.pos (Pos.of_succ_nat n) = Z.of_nat (S n)) as -> by lia. lia.
Qed.

Lemma one_le_share_iff (m n : nat) :
  (0 < n)%nat → 1 <= share m n ↔ (n ≤ m)%nat.
Proof.
  intros Hn. destruct n as [|n]; [lia|]. rewrite share_repr.
  unfold Qle. simpl. lia.
Qed.

(** One row more than the total is a share of 1 + 2^-23 or more, when
    there are fewer than 2^23 rows. *)
Lemma share_above_one (m n : nat) :
  (0 < n)%nat → (n < m)%nat → (Z.of_nat n < 2 ^ 23)%Z →
  1 + (1 # 8388608) <= share m n.
Proof.
  intros Hn Hm Hsmall. destruct n as [|n]; [lia|]. rewrite share_repr.
  unfold Qle, Qplus. simpl. lia.
Qed.

(** The float quotient of two counts lies between 0 and 1 like the exact
    one. *)
Lemma ratio_pos (m n : nat) :
  (0 < m)%nat → (0 < n)%nat → 0 < ratio m n.
Proof.
  intros Hm Hn. unfold ratio, Float.fdiv. apply round_float_gt_0.
  apply Qlt_shift_div_l; [apply of_int_pos; lia|].
  rewrite Qmult_0_l. apply of_int_pos. lia.
Qed.

Lemma ratio_le_1 (m n : nat) :
  (0 < n)%nat → (m ≤ n)%nat → ratio m n <= 1.
Proof.
  intros Hn Hm. unfold ratio, Float.fdiv.
  assert (Hpos : 0 < Float.of_int (Z.of_nat n)) by (apply of_int_pos; lia).
  apply round_float_le_1.
  - apply Qle_shift_div_l; [done|]. rewrite Qmult_0_l.
    apply of_int_nonneg. lia.
  - apply Qle_shift_div_r; [done|]. rewrite Qmult_1_l.
    apply of_int_mono. lia.
Qed.

(** Counting occurrences. *)
Lemma count_of_pos `{EqDecision K} (x : K) (l : list K) :
  x ∈ l → (1 ≤ count_of x l)%nat.
Proof.
  intros Hin. unfold count_of.
  destruct (filter (λ y, y = x) l) as [|y ys] eqn:E; [|simpl; lia].
  exfalso. by apply (filter_nil_not_elem_of _ _ x E).
Qed.

Lemma count_of_le_length `{EqDecision K} (x : K) (l : list K) :
  (count_of x l ≤ length l)%nat.
Proof. apply length_filter. Qed.

Lemma count_of_zero `{EqDecision K} (x : K) (l : list K) :
  count_of x l = 0%nat → x ∉ l.
Proof. intros H0 Hin. apply count_of_pos in Hin. lia. Qed.

Lemma NoDup_counts `{EqDecision K} (l : list K) :
  NoDup l ↔ ∀ x, x ∈ l → count_of x l = 1%nat.
Proof.
  split.
  - intros Hnd x Hin. pose proof (NoDup_count_le_1 x l Hnd) as Hle.
    pose proof (count_of_pos x l Hin). unfold count_of in *. lia.
  - induction l as [|a l IH]; intros Hone; [constructor|].
    constructor.
    + apply count_of_zero. specialize (Hone a ltac:(left)).
      rewrite count_of_cons, decide_True in Hone by done. lia.
    + apply IH. intros x Hin. specialize (Hone x ltac:(by right)).
      rewrite count_of_cons in Hone. pose proof (count_of_pos x l Hin).
      case_decide; lia.
Qed.

Lemma sum_of_positive {A} (f : A → nat) (l : list A) :
  Forall (λ x, (1 ≤ f x)%nat) l →
  (length l ≤ sum_list (map f l))%nat
  ∧ (sum_list (map f l) = length l ↔ Forall (λ x, f x = 1%nat) l).
Proof.
  induction 1 as [|x l Hx Hl [IHle IHeq]]; simpl.
  - split; [lia|]. split; [constructor|done].
  - split; [lia|]. split.
    + intros Hsum. constructor; [lia|]. apply IHeq. lia.
    + intros Hall. inversion Hall as [|? ? H1 Hrest]; subst.
      apply IHeq in Hrest. lia.
Qed.

Lemma sum_of_counts `{EqDecision K} (l : list K) :
  (length l ≤ sum_list (map (λ k, count_of k l) l))%nat
  ∧ (sum_list (map (λ k, count_of k l) l) = length l ↔ NoDup l).
Proof.
  assert (Hpos : Forall (λ x, (1 ≤ count_of x l)%nat) l).
  { apply Forall_forall. intros x Hx. by apply count_of_pos. }
  destruct (sum_of_positive _ _ Hpos) as [Hle Heq]. split; [done|].
  rewrite Heq, NoDup_counts, Forall_forall. done.
Qed.

(** The abundance column and its non-null part, for a text species
    column. *)
Lemma values_by (h : nat → nat → Q) (sp : list (option string)) :
  let norm := map (option_map normalise) sp in
  let values := non_null norm in
  non_null (map (fraction_by h values) norm)
  = map (λ k, h (count_of k values) (length values)) values.
Proof.
  intros norm values.
  apply (non_null_map_known (fraction_by h values)
           (λ k, h (count_of k values) (length values)) norm); [done|].
  intros k Hk. simpl. apply elem_of_non_null in Hk. fold values in Hk.
  case_bool_decide; done.
Qed.

Lemma values_not_nil (sp : list (option string)) :
  (∃ s, Some s ∈ sp) →
  (0 < length (non_null (map (option_map normalise) sp)))%nat.
Proof.
  intros [s Hs]. rewrite length_non_null_map.
  apply elem_of_non_null in Hs. destruct (non_null sp); [|simpl; lia].
  by apply elem_of_nil in Hs.
Qed.

(** X8: every abundance the table step attaches is a proper share: greater
    than 0 and at most 1. *)
Theorem abundance_is_a_share (df : DataFrame) (sp : list (option string)) :
  get_col "species" df = Some (TextCol sp) →
  get_col "abundance" df = None →
  ∃ out ab,
    add_abundance df = Some out
    ∧ get_col "abundance" out = Some (NumCol ab)
    ∧ ∀ i q, ab !! i = Some (Some q) → 0 < q ∧ q <= 1.
Proof.
  intros Hsp Hnew.
  destruct (add_abundance_columns _ _ Hsp Hnew) as (out & Hadd & Hab & _).
  exists out. eexists. split; [done|]. split; [exact Hab|].
  intros i q. rewrite abundance_lookup.
  destruct (sp !! i) as [[s|]|]; simpl; [|done..].
  case_bool_decide as Hin; [|done]. intros [= <-].
  pose proof (count_of_pos _ _ Hin) as Hpos.
  pose proof (count_of_le_length (normalise s)
                (non_null (map (option_map normalise) sp))) as Hle.
  split.
  - apply ratio_pos; lia.
  - apply ratio_le_1; lia.
Qed.

Lemma abundance_is_a_share_witness :
  ∃ out ab,
    add_abundance table_mixed = Some out
    ∧ get_col "abundance" out = Some (NumCol ab)
    ∧ ∀ i q, ab !! i = Some (Some q) → 0 < q ∧ q <= 1.
Proof.
  apply (abundance_is_a_share table_mixed species_mixed); reflexivity.
Defined.

(** X9: the sum printed on line 109 adds the abundance once per row, not
    once per species.  For a sample of fewer than 2^23 (8388608) rows, and
    with [values] the normalised names of the rows that have a species,
    the float64 sum stands for the sum over these rows of the number of
    rows with the same name, divided by the number of such rows, up to one
    rounding per row and one more.  It is never below 1 by more than the
    tolerance, and it is 1.0 within the tolerance exactly when no two rows
    share a normalised name.  The bound on the rows keeps the share of one
    row, at least 2^-23, apart from the tolerance and from the roundings. *)
Theorem annotated_sum_counts_every_row
    (df : DataFrame) (sp : list (option string)) :
  get_col "species" df = Some (TextCol sp) →
  get_col "abundance" df = None →
  (∃ s, Some s ∈ sp) →
  (Z.of_nat (length sp) < 2 ^ 23)%Z →
  let values := non_null (map (option_map normalise) sp) in
  ∃ out q,
    add_abundance df = Some out
    ∧ abundance_sum out = Some q
    ∧ Float.near (length sp + 1)
        (share (sum_list (map (λ k, count_of k values) values))
               (length values)) q
    ∧ 1 - (1 # 1000000000) <= q
    ∧ (within_tolerance q ↔ NoDup values).
Proof.
  intros Hsp Hnew Hex Hrows values.
  destruct (add_abundance_columns _ _ Hsp Hnew) as (out & Hadd & Hab & _).
  pose proof (values_not_nil sp Hex) as Hn. fold values in Hn.
  assert (Hvalues : (length values ≤ length sp)%nat).
  { unfold values. rewrite length_non_null_map. apply length_non_null. }
  destruct (sum_of_counts values) as [Hle Heq].
  set (total := sum_list (map (λ k, count_of k values) values)) in *.
  pose proof (cells_sum_near values (map (option_map normalise) sp)
                ltac:(lia)) as Hnear.
  unfold share_of, values in Hnear. rewrite values_by in Hnear.
  fold values in Hnear. rewrite length_map in Hnear.
  assert (Hq : Float.near (length sp + 1) (share total (length values))
                 (Float.pairwise_sum
                    (map (default 0)
                         (map (fraction_of values)
                              (map (option_map normalise) sp))))).
  { apply (near_weaken _ _ _ _ _ Hnear); [|done].
    rewrite <- (map_map (λ k, count_of k values)
                        (λ c, share c (length values))).
    apply Qsum_share. }
  exists out. eexists. split; [done|].
  split; [unfold abundance_sum; by rewrite Hab|].
  split; [exact Hq|]. split.
  - apply (near_ge_one _ _ _ Hq); [lia|]. by apply one_le_share_iff.
  - split.
    + intros Htol. apply Heq.
      destruct (decide (total = length values)) as [|Hne]; [done|].
      exfalso. revert Htol. apply (near_above_one _ _ _ Hq); [lia|].
      apply share_above_one; lia.
    + intros Hnd. apply Heq in Hnd.
      apply (near_one_within (length sp + 1)); [|lia].
      apply (near_weaken _ _ _ _ _ Hq); [|done].
      rewrite Hnd. apply share_self. lia.
Qed.

Lemma annotated_sum_counts_every_row_witness :
  ∃ out q,
    add_abundance table_plain = Some out
    ∧ abundance_sum out = Some q
    ∧ ¬ within_tolerance q.
Proof.
  destruct (annotated_sum_counts_every_row table_plain
              [Some "Homo sapiens"; Some "Mus musculus"; Some "Homo sapiens";
               Some "Homo sapiens"] eq_refl eq_refl)
    as (out & q & Hadd & Hq & _ & _ & Hiff).
  - exists "Homo sapiens". left.
  - reflexivity.
  - exists out, q. split; [exact Hadd|]. split; [exact Hq|].
    intros Htol. apply Hiff in Htol. vm_compute in Htol.
    apply NoDup_cons in Htol as [Hnot _]. apply Hnot. do 2 right. left.
Defined.

End sums_and_ranges.

Section cleaned_sum_bounds.
Import Text Pandas Pipeline Spec Shape Examples.
Local Open Scope Q_scope.

Lemma Qsum_perm (l1 l2 : list Q) : l1 ≡ₚ l2 → Qsum l1 == Qsum l2.
Proof.
  induction 1 as [|x l1 l2 _ IH|x y l|l1 l2 l3 _ IH1 _ IH2]; simpl.
  - reflexivity.
  - by rewrite IH.
  - ring.
  - by rewrite IH1.
Qed.

Lemma Qsum_nonneg (l : list Q) : Forall (λ q, 0 <= q) l → 0 <= Qsum l.
Proof.
  induction 1 as [|x l Hx _ IH]; simpl; [apply Qle_refl|].
  rewrite <- (Qplus_0_r 0). by apply Qplus_le_compat.
Qed.

Lemma Qsum_shares_nonneg (values keys : list string) :
  0 <= Qsum (map (λ k, share (count_of k values) (length values)) keys).
Proof.
  apply Qsum_nonneg, Forall_forall. intros q Hq.
  change (map ?f keys) with (f <$> keys) in Hq.
  apply list_elem_of_fmap in Hq as (k & -> & _). apply share_nonneg.
Qed.

(** The shares of the distinct keys add up to one. *)
Lemma Qsum_shares_of_keys (values : list string) :
  (0 < length values)%nat →
  Qsum (map (λ k, share (count_of k values) (length values)) (uniques values))
  == 1.
Proof.
  intros Hn.
  rewrite <- (map_map (λ k, count_of k values)
                      (λ c, share c (length values))).
  rewrite Qsum_share, sum_counts_uniques. apply share_self. lia.
Qed.

(** A list that mentions every key holds the distinct keys and a rest. *)
Lemma keys_within (values keys : list string) :
  (∀ k, k ∈ values → k ∈ keys) →
  ∃ rest, keys ≡ₚ uniques values ++ rest.
Proof.
  intros Hcover. apply submseteq_Permutation, NoDup_submseteq.
  - apply NoDup_uniques.
  - intros k Hk. apply Hcover. by apply elem_of_uniques.
Qed.

Lemma Qsum_shares_covering (values keys : list string) :
  (0 < length values)%nat →
  (∀ k, k ∈ values → k ∈ keys) →
  1 <= Qsum (map (λ k, share (count_of k values) (length values)) keys).
Proof.
  intros Hn Hcover. destruct (keys_within _ _ Hcover) as [rest Hperm].
  change (map ?f keys) with (f <$> keys).
  rewrite (Qsum_perm _ _ (fmap_Permutation _ _ _ Hperm)).
  rewrite fmap_app, Qsum_app. change (?f <$> ?l) with (map f l).
  rewrite (Qsum_shares_of_keys _ Hn), <- (Qplus_0_r 1) at 1.
  apply Qplus_le_compat; [apply Qle_refl|apply Qsum_shares_nonneg].
Qed.

(** The sum printed for the cleaned table stands for the sum of the shares
    of the names of the distinct species strings. *)
Lemma cleaned_sum_near (df : DataFrame) (sp : list (option string)) :
  get_col "species" df = Some (TextCol sp) →
  get_col "abundance" df = None →
  (Z.of_nat (length sp) < 2 ^ 23)%Z →
  let values := map normalise (non_null sp) in
  ∃ out cl q,
    add_abundance df = Some out
    ∧ df_clean out = Some cl
    ∧ abundance_sum cl = Some q
    ∧ ∃ k, (Z.of_nat k <= 2 ^ 23)%Z
           ∧ Float.near k
               (Qsum (map (λ k, share (count_of k values) (length values))
                          (map normalise (uniques (non_null sp))))) q.
Proof.
  intros Hsp Hnew Hrows values.
  destruct (add_abundance_columns _ _ Hsp Hnew)
    as (out & Hadd & Hab & _ & Hother).
  assert (Hsp' : get_col "species" out = Some (TextCol sp)).
  { by rewrite Hother. }
  assert (Hvalues : (length values ≤ length sp)%nat).
  { unfold values. rewrite length_map. apply length_non_null. }
  pose proof (col_sum_near (map negb (duplicated sp))
                (non_null (map (option_map normalise) sp))
                (map (option_map normalise) sp)) as Hnear.
  rewrite non_null_map in Hnear. fold values in Hnear.
  specialize (Hnear ltac:(lia)). simpl in Hnear.
  unfold share_of in Hnear.
  pose proof (cleaned_cells_by share sp) as Hcells. simpl in Hcells.
  rewrite non_null_map in Hcells. fold values in Hcells.
  rewrite Hcells in Hnear.
  exists out. eexists. eexists. split; [done|].
  split; [by apply df_clean_spec|].
  split.
  { unfold abundance_sum. rewrite get_col_map, Hab. simpl.
    rewrite non_null_map. fold values. reflexivity. }
  eexists. split; [|exact Hnear].
  pose proof (select_length (map negb (duplicated sp))
                (map (fraction_of values) (map (option_map normalise) sp)))
    as Hsel.
  rewrite !length_map in Hsel. lia.
Qed.

(** X10: for a sample of fewer than 2^23 (8388608) rows in which some row
    has a species, the sum printed for the cleaned table is never below 1
    by more than the tolerance, and it is 1.0 within the tolerance exactly
    when no two different species strings of the sample share a normalised
    name: every extra spelling of a species adds that species' whole share
    once more, which is at least the share of one row, 2^-23. *)
Theorem cleaned_sum_is_one_iff_spellings_agree
    (df : DataFrame) (sp : list (option string)) :
  get_col "species" df = Some (TextCol sp) →
  get_col "abundance" df = None →
  (∃ s, Some s ∈ sp) →
  (Z.of_nat (length sp) < 2 ^ 23)%Z →
  ∃ out cl q,
    add_abundance df = Some out
    ∧ df_clean out = Some cl
    ∧ abundance_sum cl = Some q
    ∧ 1 - (1 # 1000000000) <= q
    ∧ (within_tolerance q ↔
       ∀ s1 s2, Some s1 ∈ sp → Some s2 ∈ sp →
                normalise s1 = normalise s2 → s1 = s2).
Proof.
  intros Hsp Hnew Hex Hrows.
  destruct (cleaned_sum_near _ _ Hsp Hnew Hrows)
    as (out & cl & q & Hadd & Hcl & Hq & K & HK & Hnear).
  pose proof (values_not_nil sp Hex) as Hn. rewrite non_null_map in Hn.
  set (values := map normalise (non_null sp)) in *.
  set (U := uniques (non_null sp)) in *.
  set (h := λ k, share (count_of k values) (length values)) in *.
  assert (Hvalues : (length values ≤ length sp)%nat).
  { unfold values. rewrite length_map. apply length_non_null. }
  assert (Hcover : ∀ rest, (∀ s, s ∈ U → s ∈ rest ∨ ∃ s', s' ∈ rest
                              ∧ normalise s' = normalise s) →
                   ∀ k, k ∈ values → k ∈ map normalise rest).
  { intros rest Hrest k Hk. unfold values in Hk.
    change (map ?f ?l) with (f <$> l) in *.
    apply list_elem_of_fmap in Hk as (s & -> & Hs).
    apply (elem_of_uniques (non_null sp)) in Hs.
    destruct (Hrest s Hs) as [Hin|(s' & Hin & <-)];
      by apply list_elem_of_fmap_2. }
  assert (Hge : 1 <= Qsum (map h (map normalise U))).
  { apply Qsum_shares_covering; [done|]. apply Hcover. auto. }
  exists out, cl, q. split; [done|]. split; [done|]. split; [done|].
  split; [by apply (near_ge_one _ _ _ Hnear)|]. split.
  - intros Htol s1 s2 H1 H2 Hsame.
    destruct (decide (s1 = s2)) as [|Hne]; [done|]. exfalso.
    revert Htol. apply (near_above_one _ _ _ Hnear HK).
    apply elem_of_non_null, (elem_of_uniques (non_null sp)) in H1, H2.
    fold U in H1, H2.
    destruct (proj1 (elem_of_Permutation _ _) H2) as [U2 HU].
    assert (Hnd : NoDup (s2 :: U2)).
    { rewrite <- HU. apply NoDup_uniques. }
    assert (H1' : s1 ∈ U2).
    { rewrite HU in H1. apply elem_of_cons in H1 as [|]; done. }
    assert (Hrest : 1 <= Qsum (map h (map normalise U2))).
    { apply Qsum_shares_covering; [done|]. apply Hcover. intros s Hs.
      rewrite HU in Hs. apply elem_of_cons in Hs as [->|Hs]; [|by left].
      right. by exists s1. }
    assert (Hextra : 1 # 8388608 <= h (normalise s2)).
    { assert (Hin : normalise s2 ∈ values).
      { unfold values. change (map ?f ?l) with (f <$> l).
        apply list_elem_of_fmap_2. apply (elem_of_uniques (non_null sp)).
        fold U. rewrite HU. left. }
      pose proof (count_of_pos _ _ Hin) as Hc. unfold h.
      destruct (length values) as [|n] eqn:E; [lia|].
      rewrite share_repr. unfold Qle. simpl. lia. }
    assert (Hsum : Qsum (map h (map normalise U))
                   == h (normalise s2) + Qsum (map h (map normalise U2))).
    { change (map h (map normalise U)) with (h <$> (normalise <$> U)).
      rewrite (Qsum_perm _ _
                 (fmap_Permutation _ _ _ (fmap_Permutation _ _ _ HU))).
      reflexivity. }
    rewrite Hsum. lra.
  - intros Hinj. apply (near_one_within K); [|done].
    apply (near_weaken _ _ _ _ _ Hnear); [|done].
    unfold U. rewrite <- uniques_map_inj.
    + by apply Qsum_shares_of_keys.
    + intros x y Hx Hy. apply Hinj; by apply elem_of_non_null.
Qed.

Lemma cleaned_sum_is_one_iff_spellings_agree_witness :
  ∃ out cl q,
    add_abundance table_mixed = Some out
    ∧ df_clean out = Some cl
    ∧ abundance_sum cl = Some q
    ∧ ¬ within_tolerance q.
Proof.
  destruct (cleaned_sum_is_one_iff_spellings_agree table_mixed species_mixed
              eq_refl eq_refl)
    as (out & cl & q & Hadd & Hcl & Hq & _ & Hiff).
  - exists "Homo sapiens". left.
  - reflexivity.
  - exists out, cl, q. split; [exact Hadd|]. split; [exact Hcl|].
    split; [exact Hq|]. intros Htol.
    assert (Hsame : "Homo sapiens" = "Homo_sapiens"); [|discriminate Hsame].
    apply (proj1 Hiff Htol); [left| do 2 right; left |reflexivity].
Defined.

End cleaned_sum_bounds.

(** * Where the tables go *)

Section path_facts.
Import Text Paths.

Lemma string_app_cons (x : ascii) (a b : string) :
  String x a +:+ b = String x (a +:+ b).
Proof. reflexivity. Qed.

Lemma string_app_nil_r (a : string) : a +:+ EmptyString = a.
Proof.
  induction a as [|x a IH]; [done|]. by rewrite string_app_cons, IH.
Qed.

Lemma string_length_app (a b : string) :
  String.length (a +:+ b) = (String.length a + String.length b)%nat.
Proof. induction a as [|c a IH]; simpl; [done|]. by rewrite IH. Qed.

Lemma string_app_assoc (a b c : string) : (a +:+ b) +:+ c = a +:+ (b +:+ c).
Proof.
  induction a as [|x a IH]; [done|]. by rewrite !string_app_cons, IH.
Qed.

Lemma string_app_inv_tail (a b t : string) : a +:+ t = b +:+ t → a = b.
Proof.
  revert b. induction a as [|c a IH]; intros [|d b] H.
  - done.
  - apply (f_equal String.length) in H.
    rewrite !string_length_app in H. simpl in H. lia.
  - apply (f_equal String.length) in H.
    rewrite !string_length_app in H. simpl in H. lia.
  - rewrite !string_app_cons in H. injection H as -> H. f_equal. by apply IH.
Qed.

Lemma has_char_app (c : ascii) (a b : string) :
  has_char c (a +:+ b) = has_char c a || has_char c b.
Proof.
  induction a as [|x a IH]; simpl; [done|]. by destruct (Ascii.eqb x c).
Qed.

Lemma last_char_app (a b : string) :
  b ≠ EmptyString → last_char (a +:+ b) = last_char b.
Proof.
  intros Hb. induction a as [|x a IH]; simpl; [done|].
  rewrite IH. destruct (a +:+ b) eqn:Hab; [|done].
  destruct a; [by destruct b|done].
Qed.

Lemma last_char_none (p : string) : last_char p = None → p = EmptyString.
Proof.
  induction p as [|x p IH]; [done|]. simpl. destruct p; [done|].
  intros H. by apply IH in H.
Qed.

Lemma last_char_has (c : ascii) (p : string) :
  last_char p = Some c → has_char c p = true.
Proof.
  induction p as [|x p IH]; simpl; [done|]. destruct p as [|y p].
  - intros [= ->]. by rewrite Ascii.eqb_refl.
  - intros H. rewrite (IH H). by destruct (Ascii.eqb x c).
Qed.

Lemma plain_is_relative (f : string) :
  has_char slash f = false → starts_with_slash f = false.
Proof.
  destruct f as [|c f]; simpl; [done|]. by destruct (Ascii.eqb c slash).
Qed.

Lemma joint_cases (a : string) :
  joint a = EmptyString ∨ joint a = String slash EmptyString.
Proof.
  unfold joint. destruct (last_char a) as [c|]; [|by left].
  destruct (Ascii.eqb c slash); auto.
Qed.

(** Whatever [os.path.join] puts in front of a relative path is empty or
    ends in a slash. *)
Lemma joint_ends (a : string) :
  a +:+ joint a = EmptyString ∨ last_char (a +:+ joint a) = Some slash.
Proof.
  unfold joint. destruct (last_char a) as [c|] eqn:Hlast.
  - right. destruct (Ascii.eqb c slash) eqn:Hc.
    + apply Ascii.eqb_eq in Hc as ->.
      by rewrite string_app_nil_r.
    + by rewrite last_char_app.
  - left. by rewrite (last_char_none _ Hlast).
Qed.

Lemma path_join_relative (a b : string) :
  starts_with_slash b = false → path_join a b = (a +:+ joint a) +:+ b.
Proof. intros Hb. unfold path_join. by rewrite Hb, string_app_assoc. Qed.

Lemma basename_plain (f : string) : has_char slash f = false → basename f = f.
Proof.
  destruct f as [|c f]; simpl; [done|].
  destruct (Ascii.eqb c slash); [done|]. by intros ->.
Qed.

Lemma basename_app_plain (pre f : string) :
  has_char slash f = false →
  pre = EmptyString ∨ last_char pre = Some slash →
  basename (pre +:+ f) = f.
Proof.
  intros Hf. induction pre as [|c pre IH]; intros Hpre.
  - by apply basename_plain.
  - destruct Hpre as [|Hlast]; [done|]. simpl.
    rewrite has_char_app, Hf, orb_false_r. destruct pre as [|d pre].
    + simpl in *. injection Hlast as ->. by rewrite Ascii.eqb_refl.
    + change (last_char (String d pre) = Some slash) in Hlast.
      rewrite (last_char_has _ _ Hlast). apply IH. by right.
Qed.

(** [basename] undoes [join] on a name without a slash. *)
Lemma basename_join (a f : string) :
  has_char slash f = false → basename (path_join a f) = f.
Proof.
  intros Hf. rewrite path_join_relative by by apply plain_is_relative.
  apply basename_app_plain; [done|apply joint_ends].
Qed.

(** A folder name never holds a slash. *)
Lemma basename_free (p : string) : has_char slash (basename p) = false.
Proof.
  induction p as [|c p IH]; simpl; [done|].
  destruct (has_char slash p) eqn:Hp; [done|].
  destruct (Ascii.eqb c slash) eqn:Hc; [done|]. simpl. by rewrite Hc.
Qed.

Lemma take_chars_all (n : nat) (s : string) :
  (String.length s ≤ n)%nat → take_chars n s = s.
Proof.
  revert s. induction n as [|n IH]; intros [|x s]; simpl; try done; [lia|].
  intros Hn. rewrite IH; [done|lia].
Qed.

Lemma output_filename_free (name : string) :
  has_char slash name = false → has_char slash (output_filename name) = false.
Proof.
  intros Hn. unfold output_filename. by rewrite has_char_app, Hn.
Qed.

Lemma target_path_basename (root_dir name : string) :
  has_char slash name = false →
  basename (target_path root_dir name) = output_filename name.
Proof.
  intros Hn. unfold target_path. by apply basename_join, output_filename_free.
Qed.

Lemma target_path_inj (root_dir n1 n2 : string) :
  has_char slash n1 = false → has_char slash n2 = false →
  target_path root_dir n1 = target_path root_dir n2 → n1 = n2.
Proof.
  intros H1 H2 Heq. apply (f_equal basename) in Heq.
  rewrite !target_path_basename in Heq by done.
  by apply string_app_inv_tail in Heq.
Qed.

(** X11: two sample folders get the same target path exactly when their
    folder names are the same, wherever in the tree they are. *)
Theorem target_paths_meet_iff_names_agree (root_dir dir1 dir2 : string) :
  target_path root_dir (folder_name dir1)
  = target_path root_dir (folder_name dir2)
  ↔ folder_name dir1 = folder_name dir2.
Proof.
  split; [|by intros ->].
  apply target_path_inj; apply basename_free.
Qed.

(** X12: a sample folder that lies directly in the root folder and whose
    name has at most three characters is its own group folder: the cleaned
    table is copied into the sample folder itself. *)
Theorem short_name_is_its_own_group (root_dir name : string) :
  has_char slash name = false →
  (String.length name ≤ 3)%nat →
  let dir := path_join root_dir name in
  folder_name dir = name
  ∧ group_folder root_dir (folder_name dir) = dir
  ∧ target_path root_dir (folder_name dir)
    = path_join dir (output_filename name).
Proof.
  intros Hn Hlen dir.
  assert (Hname : folder_name dir = name) by by apply basename_join.
  assert (Hgroup : group_folder root_dir name = dir).
  { unfold group_folder, group_prefix. by rewrite take_chars_all. }
  split; [done|]. rewrite Hname. split; [done|].
  unfold target_path. by rewrite Hgroup.
Qed.

Lemma short_name_is_its_own_group_witness :
  group_folder "/data" (folder_name "/data/S1") = "/data/S1"
  ∧ target_path "/data" (folder_name "/data/S1") = "/data/S1/S1.tsv".
Proof.
  destruct (short_name_is_its_own_group "/data" "S1") as (_ & Hg & Ht).
  - reflexivity.
  - simpl. lia.
  - split; [exact Hg|exact Ht].
Defined.

(** X13: the target path of a sample is never the path of a sample's
    reads nor of one of the two reference files in the root folder, so the
    copy of line 136 leaves the inputs of the run alone. *)
Theorem targets_spare_the_inputs (root_dir dir other : string) :
  target_path root_dir (folder_name dir) ≠ fastq_path other
  ∧ target_path root_dir (folder_name dir) ∉ reference_files root_dir.
Proof.
  pose proof (basename_free dir) as Hfree. fold (folder_name dir) in Hfree.
  set (name := folder_name dir) in *.
  assert (Hbase : ∀ a f, has_char slash f = false →
            last_char f ≠ Some "v"%char →
            target_path root_dir name ≠ path_join a f).
  { intros a f Hf Hlast Heq. apply (f_equal basename) in Heq.
    rewrite target_path_basename, basename_join in Heq by done.
    apply Hlast. rewrite <- Heq. unfold output_filename.
    by rewrite last_char_app. }
  split; [by apply Hbase|].
  unfold reference_files. rewrite !elem_of_cons, elem_of_nil.
  intros [Heq|[Heq|[]]]; [|by apply Hbase in Heq].
  assert (Hname : name = "taxonomy").
  { apply (f_equal basename) in Heq.
    rewrite target_path_basename, basename_join in Heq by done.
    by apply (string_app_inv_tail _ "taxonomy" ".tsv"). }
  rewrite Hname in Heq. unfold target_path, group_folder in Heq.
  rewrite !path_join_relative in Heq by done.
  change (group_prefix "taxonomy") with "tax" in Heq.
  change (output_filename "taxonomy") with "taxonomy.tsv" in Heq.
  rewrite !string_app_assoc in Heq.
  apply (inj (String.app root_dir)) in Heq.
  apply (inj (String.app (joint root_dir))) in Heq.
  destruct (joint_cases (root_dir +:+ joint root_dir +:+ "tax")) as [Hj|Hj];
    rewrite Hj in Heq; vm_compute in Heq; discriminate Heq.
Qed.

End path_facts.

(** * The run over all sample folders *)

Section batch_facts.
Import Text Pandas Pipeline Paths Batch RunExamples.
Variable root_dir : string.
Variable taxonomy : list string.
Variable search : string → option (list string).

Lemma samples_named_cons (name : string) (e : walk_entry)
    (entries : list walk_entry) :
  samples_named name (e :: entries)
  = if decide (has_sample e = true ∧ folder_name (dirpath e) = name)
    then e :: samples_named name entries
    else samples_named name entries.
Proof. unfold samples_named. by rewrite filter_cons. Qed.

Lemma last_cons_default {A} (x : A) (l : list A) :
  last (x :: l) = Some (default x (last l)).
Proof.
  revert x. induction l as [|y l IH]; intros x; [done|].
  change (last (x :: y :: l)) with (last (y :: l)). rewrite IH.
  by destruct l.
Qed.

(** X15: after a run that went through, the file at the target path of a
    folder name holds the cleaned table of the last sample folder of that
    name in the walk; tables of earlier folders of that name are
    overwritten, and samples of other names leave the file alone. *)
Theorem target_holds_last_sample_of_its_name
    (entries : list walk_entry) (files out : gmap string DataFrame)
    (name : string) :
  walk root_dir taxonomy search entries files = Finished out →
  has_char slash name = false →
  out !! target_path root_dir name
  = match last (samples_named name entries) with
    | Some e => cleaned_table taxonomy search (dirpath e)
    | None => files !! target_path root_dir name
    end.
Proof.
  intros Hwalk Hname. revert files Hwalk.
  induction entries as [|e entries IH]; intros files Hwalk.
  - by injection Hwalk as ->.
  - simpl in Hwalk. rewrite samples_named_cons.
    destruct (has_sample e) eqn:He.
    + unfold Batch.sample_step in Hwalk.
      destruct (cleaned_table taxonomy search (dirpath e)) as [table|]
        eqn:Htable; [|done].
      rewrite (IH _ Hwalk). case_decide as Hsame.
      * destruct Hsame as [_ Hsame]. rewrite last_cons_default.
        destruct (last (samples_named name entries)) as [e'|]; simpl; [done|].
        by rewrite Htable, Hsame, lookup_insert_eq.
      * destruct (last (samples_named name entries)); [done|].
        rewrite lookup_insert_ne; [done|]. intros Heq.
        apply target_path_inj in Heq; [|apply basename_free|done].
        by apply Hsame.
    + rewrite (IH _ Hwalk). case_decide as Hsame; [|done].
      by destruct Hsame.
Qed.

End batch_facts.

Section batch_witnesses.
Import Text Pandas Pipeline Paths Batch RunExamples Examples.

Lemma target_holds_last_sample_of_its_name_witness :
  ∃ out,
    walk "/data" taxonomy_small search_two_runs walk_two_runs ∅ = Finished out
    ∧ out !! "/data/ABC/ABC01.tsv"
      = cleaned_table taxonomy_small search_two_runs "/data/run2/ABC01".
Proof.
  eexists. split; [vm_compute; reflexivity|].
  apply (target_holds_last_sample_of_its_name "/data" taxonomy_small
           search_two_runs walk_two_runs ∅ _ "ABC01").
  - vm_compute. reflexivity.
  - reflexivity.
Defined.

End batch_witnesses.
